(** * Reeds-Shepp path generation (modules/planning/open_space/reeds_shepp_path.cc)

    A shallow embedding of the Reeds-Shepp planner of Apollo's open-space
    module.

    - C++ [double] is binary64, embedded as Rocq's primitive [float]: every
      arithmetic operation rounds once, to nearest even (no fused
      multiply-add, no extended precision).
    - [std::vector] is a list; allocation never fails.
    - A function that writes through a pointer takes the pointee and
      returns its new value; the member functions that append to
      [all_possible_paths] thread the collection.
    - A call that may throw [std::out_of_range] or run into undefined
      behaviour returns an [outcome].
    - The mathematical functions of the C library and of
      [apollo::common::math] are parameters of the model. *)

From Stdlib Require Import String Ascii ZArith List Bool Lia Floats Permutation.
Import ListNotations.

Open Scope float_scope.

(** ** Outcomes of a call *)

(** [Ret a]: the call returns [a].  [OutOfRange]: [std::vector::at] throws.
    [Undefined]: the C++ standard gives the call no meaning ([back] or
    [pop_back] of an empty vector, a read past an array, a conversion of a
    double that does not fit [std::size_t]). *)
Inductive outcome (A : Type) : Type :=
| Ret (a : A)
| OutOfRange
| Undefined.

Arguments Ret {A} a.
Arguments OutOfRange {A}.
Arguments Undefined {A}.

Definition bind {A B : Type} (c : outcome A) (k : A -> outcome B) : outcome B :=
  match c with
  | Ret a => k a
  | OutOfRange => OutOfRange
  | Undefined => Undefined
  end.

Notation "x <- c ';;' k" := (bind c (fun x => k))
  (at level 100, c at next level, right associativity).
Notation "' p <- c ';;' k" := (bind c (fun p => k))
  (at level 100, p pattern, c at next level, right associativity).

(** ** Vectors *)

(** [v.at(i)] for a [std::size_t] index. *)
Definition at_ {A : Type} (v : list A) (i : nat) : outcome A :=
  match nth_error v i with
  | Some a => Ret a
  | None => OutOfRange
  end.

Fixpoint update {A : Type} (v : list A) (i : nat) (a : A) : list A :=
  match v, i with
  | [], _ => []
  | _ :: w, O => a :: w
  | b :: w, S j => b :: update w j a
  end.

(** [v.at(i) = a]. *)
Definition assign {A : Type} (v : list A) (i : nat) (a : A) : outcome (list A) :=
  if (i <? length v)%nat then Ret (update v i a) else OutOfRange.

(** [v.back()], undefined on an empty vector. *)
Definition back {A : Type} (v : list A) : outcome A :=
  match rev v with
  | a :: _ => Ret a
  | [] => Undefined
  end.

(** [v.pop_back()], undefined on an empty vector. *)
Definition pop_back {A : Type} (v : list A) : outcome (list A) :=
  match v with
  | [] => Undefined
  | _ => Ret (removelast v)
  end.

(** A counted [for] loop over the indices [ixs], threading the state [s]. *)
Fixpoint for_each {S : Type} (ixs : list nat) (body : nat -> S -> outcome S)
    (s : S) : outcome S :=
  match ixs with
  | [] => Ret s
  | i :: js => s' <- body i s ;; for_each js body s'
  end.

(** ** Conversions between doubles and integers *)

(** The integer part of a finite double, [None] for infinities and NaN. *)
Definition integer_part (f : float) : option Z :=
  match Prim2SF f with
  | S754_zero _ => Some 0%Z
  | S754_finite s m e =>
      let a := if (0 <=? e)%Z then Z.shiftl (Zpos m) e
               else Z.shiftr (Zpos m) (- e) in
      Some (if s then (- a)%Z else a)
  | _ => None
  end.

(** Conversion of a double to [std::size_t] (64 bits): truncation toward
    zero; undefined when the truncated value is not representable. *)
Definition size_t_of_double (f : float) : outcome nat :=
  match integer_part f with
  | Some z => if ((0 <=? z) && (z <? 2 ^ 64))%Z then Ret (Z.to_nat z)
              else Undefined
  | None => Undefined
  end.

(** Conversion of a [std::size_t] to double. *)
Definition double_of_size_t (n : nat) : float :=
  PrimFloat.of_uint63 (Uint63.of_Z (Z.of_nat n)).

(** Conversion of an [int] to [std::size_t]: modulo [2^64]. *)
Definition size_t_of_int (i : Z) : nat := Z.to_nat (i mod 2 ^ 64).

(** The [double] index of the discretizer, which only ever holds small
    integers, is kept as an integer; it converts to [std::size_t] when it
    is not negative. *)
Definition size_t_of_index (index : Z) : outcome nat :=
  if (index <? 0)%Z then Undefined else Ret (Z.to_nat index).

Definition M_PI : float := 0x1.921fb54442d18p+1.

(** ** The mathematical functions the file calls *)

(** [sin], [cos], [tan], [atan2], [asin], [acos] are the C library's
    ([std::sqrt] and [std::abs] are the primitive [sqrt] and [abs] of
    binary64).  [NormalizeAngle] and [Cartesian2Polar] are
    [apollo::common::math]'s, declared outside this file: the model takes
    all of them as parameters. *)
Class Math : Type := {
  sin : float -> float;
  cos : float -> float;
  tan : float -> float;
  atan2 : float -> float -> float;
  asin : float -> float;
  acos : float -> float;
  NormalizeAngle : float -> float;
  Cartesian2Polar : float -> float -> float * float
}.

(** ** Data *)

Record Node3d : Type := {
  GetX : float;
  GetY : float;
  GetPhi : float
}.

(** Modelled from the spec: the struct [RSPParam] is declared in the header
    reeds_shepp_path.h, which is not part of the sources; a primitive that
    does not validate leaves "all outputs at their default (zero)" and the
    flag false. *)
Record RSPParam : Type := {
  flag : bool;
  t : float;
  u : float;
  v : float
}.

Definition RSPParam0 : RSPParam := {| flag := false; t := 0; u := 0; v := 0 |}.

(** Modelled from the spec: the struct [ReedSheppPath] is declared in the
    same header; a candidate path carries its segment lengths and types, its
    total length and the sample sequences filled by the discretizer. *)
Record ReedSheppPath : Type := {
  segs_lengths : list float;
  segs_types : list ascii;
  total_length : float;
  x : list float;
  y : list float;
  phi : list float;
  gear : list bool
}.

Definition Paths : Type := list ReedSheppPath.

(** The sample buffers of the discretizer. *)
Record Buffers : Type := {
  px : list float;
  py : list float;
  pphi : list float;
  pgear : list bool
}.

(** The members of a [ReedShepp] object that the file reads:
    [max_kappa_] and [open_space_conf_.step_size()]. *)
Record ReedShepp : Type := {
  max_kappa_ : float;
  step_size : float
}.

(** The sizes, in bytes, that [sizeof] reports on the platform. *)
Record Platform : Type := {
  sizeof_double_ptr : nat;
  sizeof_double : nat
}.

Definition LP64 : Platform := {| sizeof_double_ptr := 8; sizeof_double := 8 |}.

(** A member function that appends to [all_possible_paths] and returns a
    [bool]. *)
Definition step : Type := Paths -> outcome (bool * Paths).

(** [a ;;; b]: run [a]; when it returns [false] return [false], otherwise
    go on with [b]. *)
Definition and_then (a b : step) : step :=
  fun paths =>
    '(ok, paths') <- a paths ;;
    if ok then b paths' else Ret (false, paths').

Notation "a ';;;' b" := (and_then a b)
  (at level 100, b at level 200, right associativity).

Definition return_true : step := fun paths => Ret (true, paths).

Section Model.

Context {M : Math}.
Variable P : Platform.
Variable RS : ReedShepp.

(** *** calc_tau_omega *)

Definition calc_tau_omega (u v xi eta phi : float) : float * float :=
  let delta := NormalizeAngle (u - v) in
  let A := sin u - sin delta in
  let B := cos u - cos delta - 1 in
  let t1 := atan2 (eta * A - xi * B) (xi * A + eta * B) in
  let t2 := 2 * (cos delta - cos v - cos u) + 3 in
  let tau := if t2 <? 0 then NormalizeAngle (t1 + M_PI)
             else NormalizeAngle t1 in
  let omega := NormalizeAngle (tau - u + v - phi) in
  (tau, omega).

(** *** The primitive solvers *)

Definition LSL (x y phi : float) (param : RSPParam) : RSPParam :=
  let polar := Cartesian2Polar (x - sin phi) (y - 1 + cos phi) in
  let u := fst polar in
  let t := snd polar in
  if 0 <=? t then
    let v := NormalizeAngle (phi - t) in
    if 0 <=? v then {| flag := true; t := t; u := u; v := v |}
    else param
  else param.

Definition LSR (x y phi : float) (param : RSPParam) : RSPParam :=
  let polar := Cartesian2Polar (x + sin phi) (y - 1 - cos phi) in
  let u1 := fst polar * fst polar in
  let t1 := snd polar in
  if 4 <=? u1 then
    let u := sqrt (u1 - 4) in
    let theta := atan2 2 u in
    let t := NormalizeAngle (t1 + theta) in
    let v := NormalizeAngle (t - phi) in
    if (0 <=? t) && (0 <=? v) then {| flag := true; t := t; u := u; v := v |}
    else param
  else param.

Definition LRL (x y phi : float) (param : RSPParam) : RSPParam :=
  let polar := Cartesian2Polar (x - sin phi) (y - 1 + cos phi) in
  let u1 := fst polar in
  let t1 := snd polar in
  if u1 <=? 4 then
    let u := -2 * asin (0x1p-2 * u1) in
    let t := NormalizeAngle (t1 + 0x1p-1 * u + M_PI) in
    let v := NormalizeAngle (phi - t + u) in
    if (0 <=? t) && (u <=? 0) then {| flag := true; t := t; u := u; v := v |}
    else param
  else param.

Definition SLS (x y phi : float) (param : RSPParam) : RSPParam :=
  let phi_mod := NormalizeAngle phi in
  if (0 <? y) && (0 <? phi_mod) && (phi_mod <? M_PI * 0x1.fae147ae147aep-1) then
    let xd := - y / tan phi_mod + x in
    let t := xd - tan (phi_mod / 2) in
    let u := phi_mod in
    let v := sqrt ((x - xd) * (x - xd) + y * y) - tan (phi_mod / 2) in
    {| flag := true; t := t; u := u; v := v |}
  else if (y <? 0) && (0 <? phi_mod) && (phi_mod <? M_PI * 0x1.fae147ae147aep-1) then
    let xd := - y / tan phi_mod + x in
    let t := xd - tan (phi_mod / 2) in
    let u := phi_mod in
    let v := - sqrt ((x - xd) * (x - xd) + y * y) - tan (phi_mod / 2) in
    {| flag := true; t := t; u := u; v := v |}
  else param.

Definition LRLRn (x y phi : float) (param : RSPParam) : RSPParam :=
  let xi := x + sin phi in
  let eta := y - 1 - cos phi in
  let rho := 0x1p-2 * (2 + sqrt (xi * xi + eta * eta)) in
  let u := 0 in
  let v := 0 in
  let t := 0 in
  if rho <=? 1 then
    let u := acos rho in
    let tau_omega := calc_tau_omega u v xi eta phi in
    if (0 <=? fst tau_omega) && (snd tau_omega <=? 0) then
      {| flag := true; t := t; u := u; v := v |}
    else param
  else param.

Definition LRLRp (x y phi : float) (param : RSPParam) : RSPParam :=
  let xi := x + sin phi in
  let eta := y - 1 - cos phi in
  let rho := (20 - xi * xi - eta * eta) / 16 in
  let u := 0 in
  let v := 0 in
  let t := 0 in
  if (rho <=? 1) && (0 <=? rho) then
    let u := - acos rho in
    if -0x1p-1 * M_PI <=? u then
      let tau_omega := calc_tau_omega u v xi eta phi in
      if (0 <=? fst tau_omega) && (0 <=? snd tau_omega) then
        {| flag := true; t := t; u := u; v := v |}
      else param
    else param
  else param.

Definition LRSR (x y phi : float) (param : RSPParam) : RSPParam :=
  let xi := x + sin phi in
  let eta := y - 1 - cos phi in
  let polar := Cartesian2Polar (- eta) xi in
  let rho := fst polar in
  let theta := snd polar in
  if 2 <=? rho then
    let t := theta in
    let u := 2 - rho in
    let v := NormalizeAngle (t + 0x1p-1 * M_PI - phi) in
    if (0 <=? t) && (u <=? 0) && (v <=? 0) then
      {| flag := true; t := t; u := u; v := v |}
    else param
  else param.

Definition LRSL (x y phi : float) (param : RSPParam) : RSPParam :=
  let xi := x - sin phi in
  let eta := y - 1 + cos phi in
  let polar := Cartesian2Polar xi eta in
  let rho := fst polar in
  let theta := snd polar in
  if 2 <=? rho then
    let r := sqrt (rho * rho - 4) in
    let u := 2 - r in
    let t := NormalizeAngle (theta + atan2 r (-2)) in
    let v := NormalizeAngle (phi - 0x1p-1 * M_PI - t) in
    if (0 <=? t) && (u <=? 0) && (v <=? 0) then
      {| flag := true; t := t; u := u; v := v |}
    else param
  else param.

Definition LRSLR (x y phi : float) (param : RSPParam) : RSPParam :=
  let xi := x + sin phi in
  let eta := y - 1 - cos phi in
  let polar := Cartesian2Polar xi eta in
  let rho := fst polar in
  if 2 <=? rho then
    let u := 4 - sqrt (rho * rho - 4) in
    if u <=? 0 then
      let t := NormalizeAngle
                 (atan2 ((4 - u) * xi - 2 * eta) (-2 * xi + (u - 4) * eta)) in
      let v := NormalizeAngle (t - phi) in
      if (0 <=? t) && (0 <=? v) then {| flag := true; t := t; u := u; v := v |}
      else param
    else param
  else param.

(** *** SetRSP *)

(** [lengths] and [types] are the caller's arrays ([types] without its
    terminating NUL).  Inside the function [lengths] is a [double*], so
    [sizeof(lengths) / sizeof(lengths[0])] divides the size of a pointer by
    the size of a double. *)
Definition SetRSP (lengths : list float) (types : string) : step :=
  fun all_possible_paths =>
    let lengths_size := (sizeof_double_ptr P / sizeof_double P)%nat in
    if (length lengths <? lengths_size)%nat then Undefined
    else
      let length_vec := firstn lengths_size lengths in
      let type_vec := firstn lengths_size (list_ascii_of_string types) in
      let sum := fold_left (fun sum l => sum + abs l)
                           (firstn lengths_size lengths) 0 in
      let path := {| segs_lengths := length_vec;
                     segs_types := type_vec;
                     total_length := sum;
                     x := []; y := []; phi := []; gear := [] |} in
      if total_length path <? 0 then Ret (false, all_possible_paths)
      else Ret (true, all_possible_paths ++ [path]).

(** [if (flag && !SetRSP(lengths, types, all_possible_paths)) return false;] *)
Definition when_flag (flag : bool) (lengths : list float) (types : string)
  : step :=
  fun all_possible_paths =>
    if flag then SetRSP lengths types all_possible_paths
    else Ret (true, all_possible_paths).

(** *** The family orchestrators *)

Definition SCS (x y phi : float) : step :=
  let SLS_param := SLS x y phi RSPParam0 in
  let SLS_lengths := [t SLS_param; u SLS_param; v SLS_param] in
  let SLS_types := "SLS"%string in
  when_flag (flag SLS_param) SLS_lengths SLS_types ;;;
  let SRS_param := SLS x (- y) (- phi) RSPParam0 in
  let SRS_lengths := [t SRS_param; u SRS_param; v SRS_param] in
  let SRS_types := "SRS"%string in
  when_flag (flag SRS_param) SRS_lengths SRS_types ;;;
  return_true.

Definition CSC (x y phi : float) : step :=
  let LSL1_param := LSL x y phi RSPParam0 in
  let LSL1_lengths := [t LSL1_param; u LSL1_param; v LSL1_param] in
  let LSL1_types := "LSL"%string in
  when_flag (flag LSL1_param) LSL1_lengths LSL1_types ;;;
  let LSL2_param := LSL (- x) y (- phi) RSPParam0 in
  let LSL2_lengths := [- t LSL2_param; - u LSL2_param; - v LSL2_param] in
  let LSL2_types := "LSL"%string in
  when_flag (flag LSL2_param) LSL2_lengths LSL2_types ;;;
  let LSL3_param := LSL x (- y) (- phi) RSPParam0 in
  let LSL3_lengths := [t LSL3_param; u LSL3_param; v LSL3_param] in
  let LSL3_types := "RSR"%string in
  when_flag (flag LSL3_param) LSL3_lengths LSL3_types ;;;
  let LSL4_param := LSL (- x) (- y) phi RSPParam0 in
  let LSL4_lengths := [- t LSL4_param; - u LSL4_param; - v LSL4_param] in
  let LSL4_types := "RSR"%string in
  when_flag (flag LSL4_param) LSL4_lengths LSL4_types ;;;
  let LSR1_param := LSR x y phi RSPParam0 in
  let LSR1_lengths := [t LSR1_param; u LSR1_param; v LSR1_param] in
  let LSR1_types := "LSR"%string in
  when_flag (flag LSR1_param) LSR1_lengths LSR1_types ;;;
  let LSR2_param := LSR (- x) y (- phi) RSPParam0 in
  let LSR2_lengths := [- t LSR2_param; - u LSR2_param; - v LSR2_param] in
  let LSR2_types := "LSR"%string in
  when_flag (flag LSR2_param) LSR2_lengths LSR2_types ;;;
  let LSR3_param := LSR x (- y) (- phi) RSPParam0 in
  let LSR3_lengths := [t LSR3_param; u LSR3_param; v LSR3_param] in
  let LSR3_types := "RSL"%string in
  when_flag (flag LSR3_param) LSR3_lengths LSR3_types ;;;
  let LSR4_param := LSR (- x) (- y) phi RSPParam0 in
  let LSR4_lengths := [- t LSR4_param; - u LSR4_param; - v LSR4_param] in
  let LSR4_types := "RSL"%string in
  when_flag (flag LSR4_param) LSR4_lengths LSR4_types ;;;
  return_true.

Definition CCC (x y phi : float) : step :=
  let LRL1_param := LRL x y phi RSPParam0 in
  let LRL1_lengths := [t LRL1_param; u LRL1_param; v LRL1_param] in
  let LRL1_types := "LRL"%string in
  when_flag (flag LRL1_param) LRL1_lengths LRL1_types ;;;
  let LRL2_param := LRL (- x) y (- phi) RSPParam0 in
  let LRL2_lengths := [- t LRL2_param; - u LRL2_param; - v LRL2_param] in
  let LRL2_types := "LRL"%string in
  when_flag (flag LRL2_param) LRL2_lengths LRL2_types ;;;
  let LRL3_param := LRL x (- y) (- phi) RSPParam0 in
  let LRL3_lengths := [t LRL3_param; u LRL3_param; v LRL3_param] in
  let LRL3_types := "RLR"%string in
  when_flag (flag LRL3_param) LRL3_lengths LRL3_types ;;;
  let LRL4_param := LRL (- x) (- y) phi RSPParam0 in
  let LRL4_lengths := [- t LRL4_param; - u LRL4_param; - v LRL4_param] in
  let LRL4_types := "RLR"%string in
  when_flag (flag LRL4_param) LRL4_lengths LRL4_types ;;;
  let xb := x * cos phi + y * sin phi in
  let yb := x * sin phi - y * cos phi in
  let LRL5_param := LRL xb yb phi RSPParam0 in
  let LRL5_lengths := [v LRL5_param; u LRL5_param; t LRL5_param] in
  let LRL5_types := "LRL"%string in
  when_flag (flag LRL5_param) LRL5_lengths LRL5_types ;;;
  let LRL6_param := LRL (- xb) yb (- phi) RSPParam0 in
  let LRL6_lengths := [- v LRL6_param; - u LRL6_param; - t LRL6_param] in
  let LRL6_types := "LRL"%string in
  when_flag (flag LRL6_param) LRL6_lengths LRL6_types ;;;
  let LRL7_param := LRL xb (- yb) (- phi) RSPParam0 in
  let LRL7_lengths := [v LRL7_param; u LRL7_param; t LRL7_param] in
  let LRL7_types := "RLR"%string in
  when_flag (flag LRL7_param) LRL7_lengths LRL7_types ;;;
  let LRL8_param := LRL (- xb) (- yb) phi RSPParam0 in
  let LRL8_lengths := [- v LRL8_param; - u LRL8_param; - t LRL8_param] in
  let LRL8_types := "RLR"%string in
  when_flag (flag LRL8_param) LRL8_lengths LRL8_types ;;;
  return_true.

Definition CCCC (x y phi : float) : step :=
  let LRLRn1_param := LRLRn x y phi RSPParam0 in
  let LRLRn1_lengths :=
    [t LRLRn1_param; u LRLRn1_param; - u LRLRn1_param; v LRLRn1_param] in
  let LRLRn1_types := "LRLR"%string in
  when_flag (flag LRLRn1_param) LRLRn1_lengths LRLRn1_types ;;;
  let LRLRn2_param := LRLRn (- x) y (- phi) RSPParam0 in
  let LRLRn2_lengths :=
    [- t LRLRn2_param; - u LRLRn2_param; u LRLRn2_param; - v LRLRn2_param] in
  let LRLRn2_types := "LRLR"%string in
  when_flag (flag LRLRn2_param) LRLRn2_lengths LRLRn2_types ;;;
  let LRLRn3_param := LRLRn x (- y) (- phi) RSPParam0 in
  let LRLRn3_lengths :=
    [t LRLRn3_param; u LRLRn3_param; - u LRLRn3_param; v LRLRn3_param] in
  let LRLRn3_types := "RLRL"%string in
  when_flag (flag LRLRn3_param) LRLRn3_lengths LRLRn3_types ;;;
  let LRLRn4_param := LRLRn (- x) (- y) phi RSPParam0 in
  let LRLRn4_lengths :=
    [- t LRLRn4_param; - u LRLRn4_param; u LRLRn4_param; - v LRLRn4_param] in
  let LRLRn4_types := "RLRL"%string in
  when_flag (flag LRLRn4_param) LRLRn4_lengths LRLRn4_types ;;;
  let LRLRp1_param := LRLRp x y phi RSPParam0 in
  let LRLRp1_lengths :=
    [t LRLRp1_param; u LRLRp1_param; u LRLRp1_param; v LRLRp1_param] in
  let LRLRp1_types := "LRLR"%string in
  when_flag (flag LRLRp1_param) LRLRp1_lengths LRLRp1_types ;;;
  let LRLRp2_param := LRLRp (- x) y (- phi) RSPParam0 in
  let LRLRp2_lengths :=
    [- t LRLRp2_param; - u LRLRp2_param; - u LRLRp2_param; - v LRLRp2_param] in
  let LRLRp2_types := "LRLR"%string in
  when_flag (flag LRLRp2_param) LRLRp2_lengths LRLRp2_types ;;;
  let LRLRp3_param := LRLRp x (- y) (- phi) RSPParam0 in
  let LRLRp3_lengths :=
    [t LRLRp3_param; u LRLRp3_param; u LRLRp3_param; v LRLRp3_param] in
  let LRLRp3_types := "RLRL"%string in
  when_flag (flag LRLRp3_param) LRLRp3_lengths LRLRp3_types ;;;
  let LRLRp4_param := LRLRp (- x) (- y) phi RSPParam0 in
  let LRLRp4_lengths :=
    [- t LRLRp4_param; - u LRLRp4_param; - u LRLRp4_param; - v LRLRp4_param] in
  let LRLRp4_types := "RLRL"%string in
  when_flag (flag LRLRp4_param) LRLRp4_lengths LRLRp4_types ;;;
  return_true.

Definition CCSC (x y phi : float) : step :=
  let LRSL1_param := LRLRn x y phi RSPParam0 in
  let LRSL1_lengths :=
    [t LRSL1_param; -0x1p-1 * M_PI; - u LRSL1_param; v LRSL1_param] in
  let LRSL1_types := "LRSL"%string in
  when_flag (flag LRSL1_param) LRSL1_lengths LRSL1_types ;;;
  let LRSL2_param := LRLRn (- x) y (- phi) RSPParam0 in
  let LRSL2_lengths :=
    [- t LRSL2_param; 0x1p-1 * M_PI; - u LRSL2_param; - v LRSL2_param] in
  let LRSL2_types := "LRSL"%string in
  when_flag (flag LRSL2_param) LRSL2_lengths LRSL2_types ;;;
  let LRSL3_param := LRLRn x (- y) (- phi) RSPParam0 in
  let LRSL3_lengths :=
    [t LRSL3_param; -0x1p-1 * M_PI; u LRSL3_param; v LRSL3_param] in
  let LRSL3_types := "RLSR"%string in
  when_flag (flag LRSL3_param) LRSL3_lengths LRSL3_types ;;;
  let LRSL4_param := LRLRn (- x) (- y) phi RSPParam0 in
  let LRSL4_lengths :=
    [- t LRSL4_param; -0x1p-1 * M_PI; - u LRSL4_param; - v LRSL4_param] in
  let LRSL4_types := "RLSR"%string in
  when_flag (flag LRSL4_param) LRSL4_lengths LRSL4_types ;;;
  let LRSR1_param := LRLRp x y phi RSPParam0 in
  let LRSR1_lengths :=
    [t LRSR1_param; -0x1p-1 * M_PI; u LRSR1_param; v LRSR1_param] in
  let LRSR1_types := "LRSR"%string in
  when_flag (flag LRSR1_param) LRSR1_lengths LRSR1_types ;;;
  let LRSR2_param := LRLRp (- x) y (- phi) RSPParam0 in
  let LRSR2_lengths :=
    [- t LRSR2_param; 0x1p-1 * M_PI; - u LRSR2_param; - v LRSR2_param] in
  let LRSR2_types := "LRSR"%string in
  when_flag (flag LRSR2_param) LRSR2_lengths LRSR2_types ;;;
  let LRSR3_param := LRLRp x (- y) (- phi) RSPParam0 in
  let LRSR3_lengths :=
    [t LRSR3_param; -0x1p-1 * M_PI; u LRSR3_param; v LRSR3_param] in
  let LRSR3_types := "RLSL"%string in
  when_flag (flag LRSR3_param) LRSR3_lengths LRSR3_types ;;;
  let LRSR4_param := LRLRp (- x) (- y) phi RSPParam0 in
  let LRSR4_lengths :=
    [- t LRSR4_param; 0x1p-1 * M_PI; - u LRSR4_param; - v LRSR4_param] in
  let LRSR4_types := "RLSL"%string in
  when_flag (flag LRSR4_param) LRSR4_lengths LRSR4_types ;;;
  let xb := x * cos phi + y * sin phi in
  let yb := x * sin phi - y * cos phi in
  let LRSL5_param := LRLRn xb yb phi RSPParam0 in
  let LRSL5_lengths :=
    [v LRSL5_param; u LRSL5_param; -0x1p-1 * M_PI; t LRSL5_param] in
  let LRSL5_types := "LSRL"%string in
  when_flag (flag LRSL5_param) LRSL5_lengths LRSL5_types ;;;
  let LRSL6_param := LRLRn (- xb) yb (- phi) RSPParam0 in
  let LRSL6_lengths :=
    [- v LRSL6_param; - u LRSL6_param; 0x1p-1 * M_PI; - t LRSL6_param] in
  let LRSL6_types := "LSRL"%string in
  when_flag (flag LRSL6_param) LRSL6_lengths LRSL6_types ;;;
  let LRSL7_param := LRLRn xb (- yb) (- phi) RSPParam0 in
  let LRSL7_lengths :=
    [v LRSL7_param; u LRSL7_param; -0x1p-1 * M_PI; t LRSL7_param] in
  let LRSL7_types := "RSLR"%string in
  when_flag (flag LRSL7_param) LRSL7_lengths LRSL7_types ;;;
  let LRSL8_param := LRLRn (- xb) (- yb) phi RSPParam0 in
  let LRSL8_lengths :=
    [- v LRSL8_param; - u LRSL8_param; 0x1p-1 * M_PI; - t LRSL8_param] in
  let LRSL8_types := "RSLR"%string in
  when_flag (flag LRSL8_param) LRSL8_lengths LRSL8_types ;;;
  let LRSR5_param := LRLRp xb yb phi RSPParam0 in
  let LRSR5_lengths :=
    [v LRSR5_param; u LRSR5_param; -0x1p-1 * M_PI; t LRSR5_param] in
  let LRSR5_types := "RSRL"%string in
  when_flag (flag LRSR5_param) LRSR5_lengths LRSR5_types ;;;
  let LRSR6_param := LRLRp (- xb) yb (- phi) RSPParam0 in
  let LRSR6_lengths :=
    [- v LRSR6_param; - u LRSR6_param; 0x1p-1 * M_PI; - t LRSR6_param] in
  let LRSR6_types := "RSRL"%string in
  when_flag (flag LRSR6_param) LRSR6_lengths LRSR6_types ;;;
  let LRSR7_param := LRLRp xb (- yb) (- phi) RSPParam0 in
  let LRSR7_lengths :=
    [v LRSR7_param; u LRSR7_param; -0x1p-1 * M_PI; t LRSR7_param] in
  let LRSR7_types := "LSLR"%string in
  when_flag (flag LRSR7_param) LRSR7_lengths LRSR7_types ;;;
  let LRSR8_param := LRLRp (- xb) (- yb) phi RSPParam0 in
  let LRSR8_lengths :=
    [- v LRSR8_param; - u LRSR8_param; 0x1p-1 * M_PI; - t LRSR8_param] in
  let LRSR8_types := "LSLR"%string in
  when_flag (flag LRSR8_param) LRSR8_lengths LRSR8_types ;;;
  return_true.

Definition CCSCC (x y phi : float) : step :=
  let LRSLR1_param := LRSLR x y phi RSPParam0 in
  let LRSLR1_lengths :=
    [t LRSLR1_param; -0x1p-1 * M_PI; u LRSLR1_param;
     -0x1p-1 * M_PI; v LRSLR1_param] in
  let LRSLR1_types := "LRSLR"%string in
  when_flag (flag LRSLR1_param) LRSLR1_lengths LRSLR1_types ;;;
  let LRSLR2_param := LRSLR (- x) y (- phi) RSPParam0 in
  let LRSLR2_lengths :=
    [- t LRSLR2_param; 0x1p-1 * M_PI; - u LRSLR2_param;
     0x1p-1 * M_PI; - v LRSLR2_param] in
  let LRSLR2_types := "LRSLR"%string in
  when_flag (flag LRSLR2_param) LRSLR2_lengths LRSLR2_types ;;;
  let LRSLR3_param := LRSLR x (- y) (- phi) RSPParam0 in
  let LRSLR3_lengths :=
    [t LRSLR3_param; -0x1p-1 * M_PI; u LRSLR3_param;
     -0x1p-1 * M_PI; v LRSLR3_param] in
  let LRSLR3_types := "RLSRL"%string in
  when_flag (flag LRSLR3_param) LRSLR3_lengths LRSLR3_types ;;;
  let LRSLR4_param := LRSLR (- x) (- y) phi RSPParam0 in
  let LRSLR4_lengths :=
    [- t LRSLR4_param; 0x1p-1 * M_PI; - u LRSLR4_param;
     0x1p-1 * M_PI; - v LRSLR4_param] in
  let LRSLR4_types := "RLSRL"%string in
  when_flag (flag LRSLR4_param) LRSLR4_lengths LRSLR4_types ;;;
  return_true.


(** *** GenerateRSP *)

Definition GenerateRSP (start_node end_node : Node3d) : step :=
  let dx := GetX end_node - GetX start_node in
  let dy := GetY end_node - GetY start_node in
  let dphi := GetPhi end_node - GetPhi start_node in
  let c := cos (GetPhi start_node) in
  let s := sin (GetPhi start_node) in
  let x := (c * dx + s * dy) * max_kappa_ RS in
  let y := (- s * dx + c * dy) * max_kappa_ RS in
  SCS x y dphi ;;;
  CSC x y dphi ;;;
  CCC x y dphi ;;;
  CCCC x y dphi ;;;
  CCSC x y dphi ;;;
  CCSCC x y dphi ;;;
  fun all_possible_paths =>
    if (length all_possible_paths =? 0)%nat then Ret (false, all_possible_paths)
    else Ret (true, all_possible_paths).

(** *** Interpolation *)

Definition Interpolation (index : Z) (pd : float) (m : ascii)
    (ox oy ophi : float) (b : Buffers) : outcome Buffers :=
  i <- size_t_of_index index ;;
  b <- (if (m =? "S")%char then
          px' <- assign (px b) i (ox + pd / max_kappa_ RS * cos ophi) ;;
          py' <- assign (py b) i (oy + pd / max_kappa_ RS * sin ophi) ;;
          pphi' <- assign (pphi b) i ophi ;;
          Ret {| px := px'; py := py'; pphi := pphi'; pgear := pgear b |}
        else
          let ldx := sin pd / max_kappa_ RS in
          let ldy := if (m =? "L")%char then (1 - cos pd) / max_kappa_ RS
                     else if (m =? "R")%char then (1 - cos pd) / - max_kappa_ RS
                     else 0 in
          let gdx := cos (- ophi) * ldx + sin (- ophi) * ldy in
          let gdy := - sin (- ophi) * ldx + cos (- ophi) * ldy in
          px' <- assign (px b) i (ox + gdx) ;;
          py' <- assign (py b) i (oy + gdy) ;;
          Ret {| px := px'; py := py'; pphi := pphi b; pgear := pgear b |}) ;;
  pgear' <- assign (pgear b) i (0 <? pd) ;;
  let b := {| px := px b; py := py b; pphi := pphi b; pgear := pgear' |} in
  if (m =? "L")%char then
    pphi' <- assign (pphi b) i (ophi + pd) ;;
    Ret {| px := px b; py := py b; pphi := pphi'; pgear := pgear b |}
  else if (m =? "R")%char then
    pphi' <- assign (pphi b) i (ophi - pd) ;;
    Ret {| px := px b; py := py b; pphi := pphi'; pgear := pgear b |}
  else Ret b.

(** *** GenerateLocalConfigurations *)

(** [v[i]], undefined out of range. *)
Definition subscript {A : Type} (v : list A) (i : nat) : outcome A :=
  match nth_error v i with
  | Some a => Ret a
  | None => Undefined
  end.

(** [while (std::abs(pd) <= std::abs(l)) { index++; Interpolation(...);
    pd += d; }].  Every turn stores at a larger index, and a store past the
    buffer throws, so the loop makes fewer turns than the buffer has slots:
    [fuel] counts the slots. *)
Fixpoint sample_segment (fuel : nat) (m : ascii) (l d ox oy ophi : float)
    (index : Z) (pd : float) (b : Buffers) : outcome (Z * float * Buffers) :=
  if abs pd <=? abs l then
    match fuel with
    | O => OutOfRange
    | S fuel' =>
        let index := (index + 1)%Z in
        b <- Interpolation index pd m ox oy ophi b ;;
        sample_segment fuel' m l d ox oy ophi index (pd + d) b
    end
  else Ret (index, pd, b).

(** The locals of the segment loop. *)
Record Cursor : Type := {
  index : Z;
  d : float;
  pd : float;
  ll : float;
  bufs : Buffers
}.

(** The body of [for (i = 0; i < path.segs_types.size(); i++)]. *)
Definition segment (path : ReedSheppPath) (i : nat) (c : Cursor)
  : outcome Cursor :=
  m <- at_ (segs_types path) i ;;
  l <- at_ (segs_lengths path) i ;;
  let d := if 0 <? l then step_size RS else - step_size RS in
  k <- size_t_of_index (index c) ;;
  ox <- at_ (px (bufs c)) k ;;
  oy <- at_ (py (bufs c)) k ;;
  ophi <- at_ (pphi (bufs c)) k ;;
  let index := (index c - 1)%Z in
  same_sign <- (if (1 <=? i)%nat then
                  prev <- subscript (segs_lengths path) (i - 1) ;;
                  cur <- at_ (segs_lengths path) i ;;
                  Ret (0 <? prev * cur)
                else Ret false) ;;
  let pd := if same_sign : bool then - d - ll c else d - ll c in
  '(index, pd, b) <- sample_segment (length (px (bufs c))) m l d ox oy ophi
                                    index pd (bufs c) ;;
  let ll := l - pd - d in
  let index := (index + 1)%Z in
  b <- Interpolation index l m ox oy ophi b ;;
  Ret {| index := index; d := d; pd := pd; ll := ll; bufs := b |}.

(** [while (px.back() == 0.0) { px.pop_back(); py.pop_back();
    pphi.pop_back(); pgear.pop_back(); }].  Every turn removes a slot:
    [fuel] counts the slots. *)
Fixpoint trim (fuel : nat) (b : Buffers) : outcome Buffers :=
  last <- back (px b) ;;
  if last =? 0 then
    match fuel with
    | O => Undefined
    | S fuel' =>
        px' <- pop_back (px b) ;;
        py' <- pop_back (py b) ;;
        pphi' <- pop_back (pphi b) ;;
        pgear' <- pop_back (pgear b) ;;
        trim fuel' {| px := px'; py := py'; pphi := pphi'; pgear := pgear' |}
    end
  else Ret b.

(** The body of the second [for] loop: one sample in the global frame. *)
Definition to_global (start_node : Node3d) (b : Buffers) (i : nat)
    (path : ReedSheppPath) : outcome ReedSheppPath :=
  px_i <- at_ (px b) i ;;
  py_i <- at_ (py b) i ;;
  let gx := cos (- GetPhi start_node) * px_i + sin (- GetPhi start_node) * py_i
            + GetX start_node in
  let gy := - sin (- GetPhi start_node) * px_i
            + cos (- GetPhi start_node) * py_i + GetY start_node in
  pphi_i <- at_ (pphi b) i ;;
  let gphi := NormalizeAngle (pphi_i + GetPhi start_node) in
  Ret {| segs_lengths := segs_lengths path; segs_types := segs_types path;
         total_length := total_length path;
         x := x path ++ [gx]; y := y path ++ [gy]; phi := phi path ++ [gphi];
         gear := gear path |}.

(** The body of the third [for] loop. *)
Definition rescale (i : nat) (path : ReedSheppPath) : outcome ReedSheppPath :=
  l <- at_ (segs_lengths path) i ;;
  ls <- assign (segs_lengths path) i (l / max_kappa_ RS) ;;
  Ret {| segs_lengths := ls; segs_types := segs_types path;
         total_length := total_length path;
         x := x path; y := y path; phi := phi path; gear := gear path |}.

(** The first part of the body of [for (auto path : *all_possible_paths)]:
    the buffers are allocated and the segments walked. *)
Definition walk (path : ReedSheppPath) : outcome Buffers :=
  point_num <- size_t_of_double
                 (total_length path / step_size RS
                  + double_of_size_t (length (segs_lengths path)) + 3) ;;
  let b := {| px := repeat 0 point_num; py := repeat 0 point_num;
              pphi := repeat 0 point_num; pgear := repeat true point_num |} in
  let index := 1%Z in
  let d := 0 in
  let pd := 0 in
  let ll := 0 in
  l0 <- at_ (segs_lengths path) 0 ;;
  pgear' <- assign (pgear b) 0 (0 <? l0) ;;
  let b := {| px := px b; py := py b; pphi := pphi b; pgear := pgear' |} in
  let d := if 0 <? l0 then step_size RS else - step_size RS in
  let pd := d in
  c <- for_each (seq 0 (length (segs_types path))) (segment path)
         {| index := index; d := d; pd := pd; ll := ll; bufs := b |} ;;
  Ret (bufs c).

(** The body of [for (auto path : *all_possible_paths)]: [path] is the
    loop's own copy of the element, and the result is the value of that copy
    when the body ends. *)
Definition discretize (start_node : Node3d) (path : ReedSheppPath)
  : outcome ReedSheppPath :=
  b <- walk path ;;
  b <- trim (length (px b)) b ;;
  path <- for_each (seq 0 (length (px b))) (to_global start_node b) path ;;
  let path := {| segs_lengths := segs_lengths path;
                 segs_types := segs_types path;
                 total_length := total_length path;
                 x := x path; y := y path; phi := phi path;
                 gear := pgear b |} in
  path <- for_each (seq 0 (length (segs_lengths path))) rescale path ;;
  Ret {| segs_lengths := segs_lengths path; segs_types := segs_types path;
         total_length := total_length path / max_kappa_ RS;
         x := x path; y := y path; phi := phi path; gear := gear path |}.

(** The range-for takes each element by value, so nothing the body does
    reaches [*all_possible_paths]. *)
Fixpoint discretize_copies (start_node : Node3d) (paths : Paths)
  : outcome unit :=
  match paths with
  | [] => Ret tt
  | element :: rest =>
      let path := element in
      _ <- discretize start_node path ;;
      discretize_copies start_node rest
  end.

Definition GenerateLocalConfigurations (start_node end_node : Node3d) : step :=
  fun all_possible_paths =>
    _ <- discretize_copies start_node all_possible_paths ;;
    Ret (true, all_possible_paths).

(** *** GenerateRSPs *)

Definition GenerateRSPs (start_node end_node : Node3d) : step :=
  GenerateRSP start_node end_node ;;;
  GenerateLocalConfigurations start_node end_node ;;;
  return_true.

(** *** ShortestRSP *)

(** [for (i = 0; i < all_possible_paths.size(); i++)], on the elements from
    index [i] on. *)
Fixpoint scan (paths : Paths) (i : Z) (optimal_path_length : float)
    (optimal_path_index : Z) : float * Z :=
  match paths with
  | [] => (optimal_path_length, optimal_path_index)
  | path :: rest =>
      if total_length path <? optimal_path_length
      then scan rest (i + 1)%Z (total_length path) i
      else scan rest (i + 1)%Z optimal_path_length optimal_path_index
  end.

(** The result pairs the returned [bool] with the value of [*optimal_path]
    after the call. *)
Definition ShortestRSP (start_node end_node : Node3d)
    (optimal_path : ReedSheppPath) : outcome (bool * ReedSheppPath) :=
  '(ok, all_possible_paths) <- GenerateRSPs start_node end_node [] ;;
  if negb ok then Ret (false, optimal_path)
  else
    let '(optimal_path_length, optimal_path_index) :=
      scan all_possible_paths 0%Z infinity (-1)%Z in
    path <- at_ all_possible_paths (size_t_of_int optimal_path_index) ;;
    Ret (true, path).

End Model.

(** ** A reference instance of the mathematical functions *)

(** Binary64 approximations by argument reduction and Taylor polynomials
    (about fifteen digits on [[-pi, pi]]); they let the model run on concrete
    poses.  The theorems below hold for every instance of [Math]. *)
Module RefMath.

Definition TWO_PI : float := 0x1.921fb54442d18p+2.
Definition HALF_PI : float := 0x1.921fb54442d18p+0.

(** The integer part of [f] as a double ([f] itself when it has none). *)
Definition trunc (f : float) : float :=
  match Prim2SF f with
  | S754_finite s m e =>
      if (0 <=? e)%Z then f
      else
        let a := PrimFloat.of_uint63 (Uint63.of_Z (Z.shiftr (Zpos m) (- e))) in
        if s then - a else a
  | _ => f
  end.

Definition fmod (a b : float) : float := a - b * trunc (a / b).

(** The nearest multiple of [2 pi] is taken away, then the series runs. *)
Definition reduce (a : float) : float :=
  if abs a <=? M_PI then a
  else
    let k := trunc (a / TWO_PI) in
    let r := a - k * TWO_PI in
    if M_PI <? r then r - TWO_PI
    else if r <? - M_PI then r + TWO_PI
    else r.

(** [1 - z / (a (a + 1)) * (1 - z / ((a + 2) (a + 3)) * (1 - ...))] with
    [a = 2 k + c], [n] factors deep: at [z = r * r] and [k = 1] the sine of
    [r] divided by [r] for [c = 0], the cosine of [r] for [c = -1]. *)
Fixpoint series (n : nat) (k : float) (c z : float) : float :=
  match n with
  | O => 1
  | S n' => 1 - z / ((2 * k + c) * (2 * k + c + 1)) * series n' (k + 1) c z
  end.

Definition sin (a : float) : float :=
  let r := reduce a in
  r * series 16 1 0 (r * r).

Definition cos (a : float) : float :=
  let r := reduce a in
  series 16 1 (-1) (r * r).

Definition tan (a : float) : float := sin a / cos a.

(** [atan] on [[-1, 1]]: three halvings of the angle, then the series
    [h - h^3/3 + h^5/5 - ...], here divided by [h], at [z = h * h]. *)
Fixpoint atan_series (n : nat) (k : float) (z : float) : float :=
  match n with
  | O => 0
  | S n' => 1 / k - z * atan_series n' (k + 2) z
  end.

Definition halve (a : float) : float := a / (1 + sqrt (1 + a * a)).

Definition atan_small (a : float) : float :=
  let h := halve (halve (halve a)) in
  8 * (h * atan_series 14 1 (h * h)).

Definition atan (a : float) : float :=
  if abs a <=? 1 then atan_small a
  else if 0 <? a then HALF_PI - atan_small (1 / a)
  else if a <? 0 then - HALF_PI - atan_small (1 / a)
  else a.

Definition atan2 (b a : float) : float :=
  if 0 <? a then atan (b / a)
  else if a <? 0 then
    if get_sign b then atan (b / a) - M_PI else atan (b / a) + M_PI
  else if a =? 0 then
    if 0 <? b then HALF_PI
    else if b <? 0 then - HALF_PI
    else if b =? 0 then
      if get_sign a then (if get_sign b then - M_PI else M_PI) else b
    else b
  else a + b.

Definition asin (a : float) : float := atan2 a (sqrt ((1 - a) * (1 + a))).
Definition acos (a : float) : float := atan2 (sqrt ((1 - a) * (1 + a))) a.

(** Modelled from the spec: [NormalizeAngle] "returns an angle in a fixed
    canonical half-open range", here [[-pi, pi)]. *)
Definition NormalizeAngle (angle : float) : float :=
  let a := fmod (angle + M_PI) TWO_PI in
  let a := if a <? 0 then a + TWO_PI else a in
  a - M_PI.

(** Modelled from the spec: [Cartesian2Polar] is the "standard polar
    conversion", returning the radius and the angle. *)
Definition Cartesian2Polar (a b : float) : float * float :=
  (sqrt (a * a + b * b), atan2 b a).

End RefMath.

#[export] Instance ref_math : Math := {|
  sin := RefMath.sin;
  cos := RefMath.cos;
  tan := RefMath.tan;
  atan2 := RefMath.atan2;
  asin := RefMath.asin;
  acos := RefMath.acos;
  NormalizeAngle := RefMath.NormalizeAngle;
  Cartesian2Polar := RefMath.Cartesian2Polar
|}.


(** * Definitions for the statements *)

(** ** Binary64 *)

(** Two values that are equal or are both zeros. *)
Definition same_or_zeros (a b : spec_float) : Prop :=
  a = b \/ exists s s', a = S754_zero s /\ b = S754_zero s'.

(** ** The path assembler *)

(** The element count [SetRSP] computes. *)
Definition lengths_size (P : Platform) : nat :=
  (sizeof_double_ptr P / sizeof_double P)%nat.

(** The total length the specification asks for: the sum of the absolute
    values of all the lengths supplied. *)
Definition sum_abs (lengths : list float) : float :=
  fold_left (fun sum l => sum + abs l) lengths 0.

(** The record [SetRSP] appends on LP64. *)
Definition candidate (lengths : list float) (types : string) : ReedSheppPath :=
  {| segs_lengths := firstn 1 lengths;
     segs_types := firstn 1 (list_ascii_of_string types);
     total_length := abs (hd 0 lengths);
     x := []; y := []; phi := []; gear := [] |}.

Definition offer (flag : bool) (lengths : list float) (types : string)
  : Paths :=
  if flag then [candidate lengths types] else [].

(** ** The interpolation rule, in the specification's words *)

(** The chord offset of a turn by [pd] at curvature [max_kappa_], its
    y-component negated on a right turn. *)
Definition chord_offset {M : Math} (RS : ReedShepp) (m : ascii) (pd : float)
  : float * float :=
  let ldx := sin pd / max_kappa_ RS in
  let ldy := (1 - cos pd) / max_kappa_ RS in
  (ldx, if (m =? "R")%char then - ldy else ldy).

(** The offset [o] rotated by [- ophi], as the source writes it: the matrix
    with rows [(cos (- ophi), sin (- ophi))] and
    [(- sin (- ophi), cos (- ophi))] applied to [o]. *)
Definition rotate {M : Math} (ophi : float) (o : float * float)
  : float * float :=
  (cos (- ophi) * fst o + sin (- ophi) * snd o,
   - sin (- ophi) * fst o + cos (- ophi) * snd o).

(** The position and heading of the sample at the signed step [pd] from the
    anchor [(ox, oy, ophi)]. *)
Definition sample_pose {M : Math} (RS : ReedShepp) (m : ascii)
    (pd ox oy ophi : float) : float * float * float :=
  if (m =? "S")%char then
    (ox + pd / max_kappa_ RS * cos ophi,
     oy + pd / max_kappa_ RS * sin ophi,
     ophi)
  else
    let g := rotate ophi (chord_offset RS m pd) in
    (ox + fst g, oy + snd g,
     if (m =? "L")%char then ophi + pd else ophi - pd).

(** ** The orchestrators as tables of calls *)

(** One block of an orchestrator: the parameters a primitive returned, the
    length array and the type string built from them. *)
Definition call : Type := RSPParam * list float * string.

Definition offer_of (c : call) : Paths :=
  let '(param, lengths, types) := c in offer (flag param) lengths types.

(** A call whose length array is not empty. *)
Definition has_lengths (c : call) : Prop := snd (fst c) <> [].

Definition run_calls (P : Platform) (calls : list call) : step :=
  fold_right (fun '(param, lengths, types) rest =>
                when_flag P (flag param) lengths types ;;; rest)
             return_true calls.

(** The blocks of each orchestrator in the order of the source.  The
    orchestrator is the run of its table (lemmas [SCS_run] to
    [CCSCC_run]). *)
Definition SCS_calls {M : Math} (x y phi : float) : list call :=
  let SLS_param := SLS x y phi RSPParam0 in
  let SRS_param := SLS x (- y) (- phi) RSPParam0 in
  [
   (SLS_param, [t SLS_param; u SLS_param; v SLS_param],
    "SLS"%string);
   (SRS_param, [t SRS_param; u SRS_param; v SRS_param],
    "SRS"%string)
  ].

Definition CSC_calls {M : Math} (x y phi : float) : list call :=
  let LSL1_param := LSL x y phi RSPParam0 in
  let LSL2_param := LSL (- x) y (- phi) RSPParam0 in
  let LSL3_param := LSL x (- y) (- phi) RSPParam0 in
  let LSL4_param := LSL (- x) (- y) phi RSPParam0 in
  let LSR1_param := LSR x y phi RSPParam0 in
  let LSR2_param := LSR (- x) y (- phi) RSPParam0 in
  let LSR3_param := LSR x (- y) (- phi) RSPParam0 in
  let LSR4_param := LSR (- x) (- y) phi RSPParam0 in
  [
   (LSL1_param, [t LSL1_param; u LSL1_param; v LSL1_param],
    "LSL"%string);
   (LSL2_param, [- t LSL2_param; - u LSL2_param; - v LSL2_param],
    "LSL"%string);
   (LSL3_param, [t LSL3_param; u LSL3_param; v LSL3_param],
    "RSR"%string);
   (LSL4_param, [- t LSL4_param; - u LSL4_param; - v LSL4_param],
    "RSR"%string);
   (LSR1_param, [t LSR1_param; u LSR1_param; v LSR1_param],
    "LSR"%string);
   (LSR2_param, [- t LSR2_param; - u LSR2_param; - v LSR2_param],
    "LSR"%string);
   (LSR3_param, [t LSR3_param; u LSR3_param; v LSR3_param],
    "RSL"%string);
   (LSR4_param, [- t LSR4_param; - u LSR4_param; - v LSR4_param],
    "RSL"%string)
  ].

Definition CCC_calls {M : Math} (x y phi : float) : list call :=
  let LRL1_param := LRL x y phi RSPParam0 in
  let LRL2_param := LRL (- x) y (- phi) RSPParam0 in
  let LRL3_param := LRL x (- y) (- phi) RSPParam0 in
  let LRL4_param := LRL (- x) (- y) phi RSPParam0 in
  let xb := x * cos phi + y * sin phi in
  let yb := x * sin phi - y * cos phi in
  let LRL5_param := LRL xb yb phi RSPParam0 in
  let LRL6_param := LRL (- xb) yb (- phi) RSPParam0 in
  let LRL7_param := LRL xb (- yb) (- phi) RSPParam0 in
  let LRL8_param := LRL (- xb) (- yb) phi RSPParam0 in
  [
   (LRL1_param, [t LRL1_param; u LRL1_param; v LRL1_param],
    "LRL"%string);
   (LRL2_param, [- t LRL2_param; - u LRL2_param; - v LRL2_param],
    "LRL"%string);
   (LRL3_param, [t LRL3_param; u LRL3_param; v LRL3_param],
    "RLR"%string);
   (LRL4_param, [- t LRL4_param; - u LRL4_param; - v LRL4_param],
    "RLR"%string);
   (LRL5_param, [v LRL5_param; u LRL5_param; t LRL5_param],
    "LRL"%string);
   (LRL6_param, [- v LRL6_param; - u LRL6_param; - t LRL6_param],
    "LRL"%string);
   (LRL7_param, [v LRL7_param; u LRL7_param; t LRL7_param],
    "RLR"%string);
   (LRL8_param, [- v LRL8_param; - u LRL8_param; - t LRL8_param],
    "RLR"%string)
  ].

Definition CCCC_calls {M : Math} (x y phi : float) : list call :=
  let LRLRn1_param := LRLRn x y phi RSPParam0 in
  let LRLRn2_param := LRLRn (- x) y (- phi) RSPParam0 in
  let LRLRn3_param := LRLRn x (- y) (- phi) RSPParam0 in
  let LRLRn4_param := LRLRn (- x) (- y) phi RSPParam0 in
  let LRLRp1_param := LRLRp x y phi RSPParam0 in
  let LRLRp2_param := LRLRp (- x) y (- phi) RSPParam0 in
  let LRLRp3_param := LRLRp x (- y) (- phi) RSPParam0 in
  let LRLRp4_param := LRLRp (- x) (- y) phi RSPParam0 in
  [
   (LRLRn1_param,
    [t LRLRn1_param; u LRLRn1_param; - u LRLRn1_param; v LRLRn1_param],
    "LRLR"%string);
   (LRLRn2_param,
    [- t LRLRn2_param; - u LRLRn2_param; u LRLRn2_param; - v LRLRn2_param],
    "LRLR"%string);
   (LRLRn3_param,
    [t LRLRn3_param; u LRLRn3_param; - u LRLRn3_param; v LRLRn3_param],
    "RLRL"%string);
   (LRLRn4_param,
    [- t LRLRn4_param; - u LRLRn4_param; u LRLRn4_param; - v LRLRn4_param],
    "RLRL"%string);
   (LRLRp1_param,
    [t LRLRp1_param; u LRLRp1_param; u LRLRp1_param; v LRLRp1_param],
    "LRLR"%string);
   (LRLRp2_param,
    [- t LRLRp2_param; - u LRLRp2_param; - u LRLRp2_param; - v LRLRp2_param],
    "LRLR"%string);
   (LRLRp3_param,
    [t LRLRp3_param; u LRLRp3_param; u LRLRp3_param; v LRLRp3_param],
    "RLRL"%string);
   (LRLRp4_param,
    [- t LRLRp4_param; - u LRLRp4_param; - u LRLRp4_param; - v LRLRp4_param],
    "RLRL"%string)
  ].

Definition CCSC_calls {M : Math} (x y phi : float) : list call :=
  let LRSL1_param := LRLRn x y phi RSPParam0 in
  let LRSL2_param := LRLRn (- x) y (- phi) RSPParam0 in
  let LRSL3_param := LRLRn x (- y) (- phi) RSPParam0 in
  let LRSL4_param := LRLRn (- x) (- y) phi RSPParam0 in
  let LRSR1_param := LRLRp x y phi RSPParam0 in
  let LRSR2_param := LRLRp (- x) y (- phi) RSPParam0 in
  let LRSR3_param := LRLRp x (- y) (- phi) RSPParam0 in
  let LRSR4_param := LRLRp (- x) (- y) phi RSPParam0 in
  let xb := x * cos phi + y * sin phi in
  let yb := x * sin phi - y * cos phi in
  let LRSL5_param := LRLRn xb yb phi RSPParam0 in
  let LRSL6_param := LRLRn (- xb) yb (- phi) RSPParam0 in
  let LRSL7_param := LRLRn xb (- yb) (- phi) RSPParam0 in
  let LRSL8_param := LRLRn (- xb) (- yb) phi RSPParam0 in
  let LRSR5_param := LRLRp xb yb phi RSPParam0 in
  let LRSR6_param := LRLRp (- xb) yb (- phi) RSPParam0 in
  let LRSR7_param := LRLRp xb (- yb) (- phi) RSPParam0 in
  let LRSR8_param := LRLRp (- xb) (- yb) phi RSPParam0 in
  [
   (LRSL1_param,
    [t LRSL1_param; -0x1p-1 * M_PI; - u LRSL1_param; v LRSL1_param],
    "LRSL"%string);
   (LRSL2_param,
    [- t LRSL2_param; 0x1p-1 * M_PI; - u LRSL2_param; - v LRSL2_param],
    "LRSL"%string);
   (LRSL3_param, [t LRSL3_param; -0x1p-1 * M_PI; u LRSL3_param; v LRSL3_param],
    "RLSR"%string);
   (LRSL4_param,
    [- t LRSL4_param; -0x1p-1 * M_PI; - u LRSL4_param; - v LRSL4_param],
    "RLSR"%string);
   (LRSR1_param, [t LRSR1_param; -0x1p-1 * M_PI; u LRSR1_param; v LRSR1_param],
    "LRSR"%string);
   (LRSR2_param,
    [- t LRSR2_param; 0x1p-1 * M_PI; - u LRSR2_param; - v LRSR2_param],
    "LRSR"%string);
   (LRSR3_param, [t LRSR3_param; -0x1p-1 * M_PI; u LRSR3_param; v LRSR3_param],
    "RLSL"%string);
   (LRSR4_param,
    [- t LRSR4_param; 0x1p-1 * M_PI; - u LRSR4_param; - v LRSR4_param],
    "RLSL"%string);
   (LRSL5_param, [v LRSL5_param; u LRSL5_param; -0x1p-1 * M_PI; t LRSL5_param],
    "LSRL"%string);
   (LRSL6_param,
    [- v LRSL6_param; - u LRSL6_param; 0x1p-1 * M_PI; - t LRSL6_param],
    "LSRL"%string);
   (LRSL7_param, [v LRSL7_param; u LRSL7_param; -0x1p-1 * M_PI; t LRSL7_param],
    "RSLR"%string);
   (LRSL8_param,
    [- v LRSL8_param; - u LRSL8_param; 0x1p-1 * M_PI; - t LRSL8_param],
    "RSLR"%string);
   (LRSR5_param, [v LRSR5_param; u LRSR5_param; -0x1p-1 * M_PI; t LRSR5_param],
    "RSRL"%string);
   (LRSR6_param,
    [- v LRSR6_param; - u LRSR6_param; 0x1p-1 * M_PI; - t LRSR6_param],
    "RSRL"%string);
   (LRSR7_param, [v LRSR7_param; u LRSR7_param; -0x1p-1 * M_PI; t LRSR7_param],
    "LSLR"%string);
   (LRSR8_param,
    [- v LRSR8_param; - u LRSR8_param; 0x1p-1 * M_PI; - t LRSR8_param],
    "LSLR"%string)
  ].

Definition CCSCC_calls {M : Math} (x y phi : float) : list call :=
  let LRSLR1_param := LRSLR x y phi RSPParam0 in
  let LRSLR2_param := LRSLR (- x) y (- phi) RSPParam0 in
  let LRSLR3_param := LRSLR x (- y) (- phi) RSPParam0 in
  let LRSLR4_param := LRSLR (- x) (- y) phi RSPParam0 in
  [
   (LRSLR1_param,
    [t LRSLR1_param; -0x1p-1 * M_PI; u LRSLR1_param;
     -0x1p-1 * M_PI; v LRSLR1_param],
    "LRSLR"%string);
   (LRSLR2_param,
    [- t LRSLR2_param; 0x1p-1 * M_PI; - u LRSLR2_param;
     0x1p-1 * M_PI; - v LRSLR2_param],
    "LRSLR"%string);
   (LRSLR3_param,
    [t LRSLR3_param; -0x1p-1 * M_PI; u LRSLR3_param;
     -0x1p-1 * M_PI; v LRSLR3_param],
    "RLSRL"%string);
   (LRSLR4_param,
    [- t LRSLR4_param; 0x1p-1 * M_PI; - u LRSLR4_param;
     0x1p-1 * M_PI; - v LRSLR4_param],
    "RLSRL"%string)
  ].


(** ** The search *)

(** The calls of the six families in the order of [GenerateRSP]. *)
Definition all_calls {M : Math} (x y phi : float) : list call :=
  SCS_calls x y phi ++ CSC_calls x y phi ++ CCC_calls x y phi
  ++ CCCC_calls x y phi ++ CCSC_calls x y phi ++ CCSCC_calls x y phi.

(** The pose [GenerateRSP] hands to the families. *)
Definition normalized {M : Math} (RS : ReedShepp) (start_node end_node : Node3d)
  : float * float * float :=
  let dx := GetX end_node - GetX start_node in
  let dy := GetY end_node - GetY start_node in
  let dphi := GetPhi end_node - GetPhi start_node in
  let c := cos (GetPhi start_node) in
  let s := sin (GetPhi start_node) in
  ((c * dx + s * dy) * max_kappa_ RS, (- s * dx + c * dy) * max_kappa_ RS, dphi).

(** The candidates of a normalized pose on LP64, in generation order. *)
Definition search {M : Math} (x y phi : float) : Paths :=
  flat_map offer_of (all_calls x y phi).

(** The candidates of a pair of poses. *)
Definition candidates {M : Math} (RS : ReedShepp) (start_node end_node : Node3d)
  : Paths :=
  let '(x, y, dphi) := normalized RS start_node end_node in
  search x y dphi.

(** ** The mirror of a path *)

(** Left and right turns exchanged. *)
Definition mirror_turn (c : ascii) : ascii :=
  if (c =? "L")%char then "R"%char
  else if (c =? "R")%char then "L"%char
  else c.

Definition mirror_path (path : ReedSheppPath) : ReedSheppPath :=
  {| segs_lengths := segs_lengths path;
     segs_types := map mirror_turn (segs_types path);
     total_length := total_length path;
     x := x path; y := y path; phi := phi path; gear := gear path |}.

(** The record of a validated call with first length [a] and first letter
    [c], as LP64 keeps it. *)
Definition single (flag : bool) (a : float) (c : ascii) : Paths :=
  if flag then
    [{| segs_lengths := [a]; segs_types := [c]; total_length := abs a;
        x := []; y := []; phi := []; gear := [] |}]
  else [].

(** ** The symmetries of the three-turn family *)

(** The symmetries of a normalized pose: none, [(-x, y, -phi)],
    [(x, -y, -phi)] and [(-x, -y, phi)]. *)
Inductive symmetry : Type :=
| keep
| heading_mirror
| mirror
| heading_mirror_and_mirror.










(** ** Poses for the examples *)

Definition example_RS : ReedShepp :=
  {| max_kappa_ := 0x1p-2; step_size := 0x1p-1 |}.

Definition origin : Node3d := {| GetX := 0; GetY := 0; GetPhi := 0 |}.

Definition example_goal : Node3d := {| GetX := 40; GetY := 20; GetPhi := 1 |}.

(** The goal five metres straight ahead of the origin. *)
Definition straight_ahead : Node3d := {| GetX := 5; GetY := 0; GetPhi := 0 |}.

(** A default-constructed [ReedSheppPath]. *)
Definition empty_path : ReedSheppPath :=
  {| segs_lengths := []; segs_types := []; total_length := 0;
     x := []; y := []; phi := []; gear := [] |}.

(** The minimum the scan of [ShortestRSP] ends with. *)
Definition minimal_length (paths : Paths) : float :=
  fst (scan paths 0%Z infinity (-1)%Z).


(** ** The buffers of the discretizer *)

(** Four buffers of [n] slots each whose slot 0 still holds the zeros it
    was allocated with. *)
Definition untouched_start (n : nat) (b : Buffers) : Prop :=
  length (px b) = n /\ length (py b) = n /\ length (pphi b) = n
  /\ length (pgear b) = n
  /\ hd 0 (px b) = 0 /\ hd 0 (py b) = 0 /\ hd 0 (pphi b) = 0.

(** ** The path assembler on any platform *)

(** The record [SetRSP] appends when the caller's arrays hold at least
    [lengths_size P] elements. *)
Definition stored (P : Platform) (lengths : list float) (types : string)
  : ReedSheppPath :=
  {| segs_lengths := firstn (lengths_size P) lengths;
     segs_types := firstn (lengths_size P) (list_ascii_of_string types);
     total_length := sum_abs (firstn (lengths_size P) lengths);
     x := []; y := []; phi := []; gear := [] |}.

(** A step that, when it has a defined result, returns [true] with at most
    [n] records appended to the collection. *)
Definition appends (n : nat) (a : step) : Prop :=
  forall paths,
    a paths = Undefined
    \/ exists added,
         a paths = Ret (true, paths ++ added) /\ (length added <= n)%nat.

(** A step that, when it has a defined result, appends at most [n] records
    and returns whether the collection holds any record at all. *)
Definition collects (n : nat) (a : step) : Prop :=
  forall paths,
    a paths = Undefined
    \/ exists added,
         a paths = Ret (negb (length (paths ++ added) =? 0)%nat,
                        paths ++ added)
         /\ (length added <= n)%nat.

(** ** Further poses for the examples *)

(** The mirror image of [example_goal] seen from the origin. *)
Definition mirrored_goal : Node3d :=
  {| GetX := 40; GetY := -20; GetPhi := -1 |}.

(** A start pose at the origin whose heading is half a radian, and two
    goals whose offsets from it in world coordinates are [(40, 20, 1)] and
    [(40, -20, -1)]. *)
Definition turned_start : Node3d :=
  {| GetX := 0; GetY := 0; GetPhi := 0x1p-1 |}.

Definition turned_goal : Node3d :=
  {| GetX := 40; GetY := 20; GetPhi := 0x1.8p+0 |}.

Definition turned_goal_mirror : Node3d :=
  {| GetX := 40; GetY := -20; GetPhi := -0x1p-1 |}.

(** A goal whose abscissa is not a number. *)
Definition lost_goal : Node3d := {| GetX := nan; GetY := 0; GetPhi := 0 |}.

(** ** Segments of length zero *)

(** The record LP64 keeps of a validated call whose first length is [a] and
    whose first letter is [c]. *)
Definition one_segment (a : float) (c : ascii) : ReedSheppPath :=
  {| segs_lengths := [a]; segs_types := [c]; total_length := abs a;
     x := []; y := []; phi := []; gear := [] |}.

(** A record of one segment whose length is a zero, of either sign. *)
Definition zero_length (path : ReedSheppPath) : Prop :=
  exists a c, (a =? 0) = true /\ path = one_segment a c.

(** The buffers of four slots that all hold zero, the first two flagged as
    driven backwards. *)
Definition all_zero : Buffers :=
  {| px := [0; 0; 0; 0]; py := [0; 0; 0; 0]; pphi := [0; 0; 0; 0];
     pgear := [false; false; true; true] |}.

(** A call whose first length is a zero and whose type string is not
    empty. *)
Definition first_length_zero (c : call) : Prop :=
  exists a rest ch s,
    snd (fst c) = a :: rest /\ snd c = String ch s /\ (a =? 0) = true.




(** ** The result of the discretizer *)

(** Buffers whose slot 0 of [pgear] holds [g]. *)
Definition first_gear (g : bool) (b : Buffers) : Prop :=
  hd true (pgear b) = g.

(** The number of slots the discretizer allocates for a path. *)
Definition point_num (RS : ReedShepp) (path : ReedSheppPath)
  : outcome nat :=
  size_t_of_double
    (total_length path / step_size RS
     + double_of_size_t (length (segs_lengths path)) + 3).

(** ** Other platforms *)

(** A platform with 32-bit pointers: a pointer to double has half the size
    of a double. *)
Definition ILP32 : Platform := {| sizeof_double_ptr := 4; sizeof_double := 8 |}.

(** What a call leaves in the collection on the platform [P]. *)
Definition kept (P : Platform) (c : call) : Paths :=
  let '(param, lengths, types) := c in
  if flag param then [stored P lengths types] else [].

(** ** The reversal of a path *)

(** The same segments driven in the other direction: every length changes
    sign. *)
Definition reverse_path (path : ReedSheppPath) : ReedSheppPath :=
  {| segs_lengths := map PrimFloat.opp (segs_lengths path);
     segs_types := segs_types path;
     total_length := total_length path;
     x := x path; y := y path; phi := phi path; gear := gear path |}.

(** ** One segment *)

(** The image of a sample of the buffers in the global frame. *)
Definition global_pose {M : Math} (start_node : Node3d)
    (sample : float * float * float) : float * float * float :=
  let px_i := fst (fst sample) in
  let py_i := snd (fst sample) in
  let pphi_i := snd sample in
  (cos (- GetPhi start_node) * px_i + sin (- GetPhi start_node) * py_i
   + GetX start_node,
   - sin (- GetPhi start_node) * px_i + cos (- GetPhi start_node) * py_i
   + GetY start_node,
   NormalizeAngle (pphi_i + GetPhi start_node)).

(** The values [pd] takes at the samples of the loop
    [while (std::abs(pd) <= std::abs(l))], from [pd] on, in steps of [d]:
    each is the rounded sum of the one before and [d].  [fuel] bounds their
    number. *)
Fixpoint sampled (fuel : nat) (l d pd : float) : list float :=
  match fuel with
  | O => []
  | S fuel' =>
      if abs pd <=? abs l then pd :: sampled fuel' l d (pd + d) else []
  end.

(** The signed distances at which one segment [a] is sampled when the
    buffers have [n] slots: the steps, then the end of the segment. *)
Definition sample_points (RS : ReedShepp) (a : float) (n : nat) : list float :=
  let d := if 0 <? a then step_size RS else - step_size RS in
  sampled n a d (d - 0) ++ [a].

(** The poses of the samples of one segment [a] of letter [c], in the local
    frame: the origin, then the pose at each sample point. *)
Definition local_poses {M : Math} (RS : ReedShepp) (a : float) (c : ascii)
    (n : nat) : list (float * float * float) :=
  (0, 0, 0) :: map (fun pd => sample_pose RS c pd 0 0 0) (sample_points RS a n).

(** Buffers that hold the poses [poses] and the flags [gears], followed by
    [m] slots as allocated. *)
Definition buffers_of (poses : list (float * float * float))
    (gears : list bool) (m : nat) : Buffers :=
  {| px := map (fun s => fst (fst s)) poses ++ repeat 0 m;
     py := map (fun s => snd (fst s)) poses ++ repeat 0 m;
     pphi := map (fun s => snd s) poses ++ repeat 0 m;
     pgear := gears ++ repeat true m |}.

(** The path the discretizer makes of one segment [a] of letter [c] with
    buffers of [n] slots. *)
Definition discretized {M : Math} (RS : ReedShepp) (start_node : Node3d)
    (a : float) (c : ascii) (n : nat) : ReedSheppPath :=
  let globals := map (global_pose start_node) (local_poses RS a c n) in
  {| segs_lengths := [a / max_kappa_ RS];
     segs_types := [c];
     total_length := abs a / max_kappa_ RS;
     x := map (fun s => fst (fst s)) globals;
     y := map (fun s => snd (fst s)) globals;
     phi := map (fun s => snd s) globals;
     gear := (0 <? a) :: map (fun pd => 0 <? pd) (sample_points RS a n) |}.

(** * Properties *)

(** ** Binary64 facts *)

Module Dbl.

Lemma Prim2SF_zero : Prim2SF 0 = S754_zero false.
Proof. reflexivity. Qed.

Lemma opp_involutive a : - - a = a.
Proof.
  apply Prim2SF_inj. rewrite !opp_spec.
  destruct (Prim2SF a) as [s|s| |s m e]; simpl;
    rewrite ?negb_involutive; reflexivity.
Qed.

Lemma add_zero_abs a : 0 + abs a = abs a.
Proof.
  apply Prim2SF_inj. rewrite add_spec, abs_spec, Prim2SF_zero.
  destruct (Prim2SF a) as [s|s| |s m e]; reflexivity.
Qed.

Lemma abs_ltb_zero a : (abs a <? 0) = false.
Proof.
  rewrite ltb_spec, abs_spec, Prim2SF_zero.
  destruct (Prim2SF a) as [s|s| |s m e]; reflexivity.
Qed.

(** Rounding does not look at the sign. *)
Lemma binary_round_aux_negb s m e l :
  binary_round_aux prec emax (negb s) m e l
  = SFopp (binary_round_aux prec emax s m e l).
Proof.
  unfold binary_round_aux.
  destruct (shr_fexp prec emax m e l) as [mrs' e'].
  destruct (shr_fexp prec emax _ e' loc_Exact) as [mrs'' e''].
  destruct (shr_m mrs''); try reflexivity.
  destruct (e'' <=? emax - prec)%Z; reflexivity.
Qed.

Lemma xorb_negb_r a b : xorb a (negb b) = negb (xorb a b).
Proof. destruct a, b; reflexivity. Qed.

Lemma xorb_negb_l a b : xorb (negb a) b = negb (xorb a b).
Proof. destruct a, b; reflexivity. Qed.

Lemma mul_opp_r a b : a * - b = - (a * b).
Proof.
  apply Prim2SF_inj. rewrite opp_spec, !mul_spec, opp_spec.
  unfold SF64mul.
  destruct (Prim2SF a) as [sa|sa| |sa ma ea],
           (Prim2SF b) as [sb|sb| |sb mb eb];
    simpl; rewrite ?xorb_negb_r; try reflexivity.
  apply binary_round_aux_negb.
Qed.

Lemma mul_opp_l a b : - a * b = - (a * b).
Proof.
  apply Prim2SF_inj. rewrite opp_spec, !mul_spec, opp_spec.
  unfold SF64mul.
  destruct (Prim2SF a) as [sa|sa| |sa ma ea],
           (Prim2SF b) as [sb|sb| |sb mb eb];
    simpl; rewrite ?xorb_negb_l; try reflexivity.
  apply binary_round_aux_negb.
Qed.

Lemma div_opp_r a b : a / - b = - (a / b).
Proof.
  apply Prim2SF_inj. rewrite opp_spec, !div_spec, opp_spec.
  unfold SF64div.
  destruct (Prim2SF a) as [sa|sa| |sa ma ea],
           (Prim2SF b) as [sb|sb| |sb mb eb];
    simpl; rewrite ?xorb_negb_r; try reflexivity.
  destruct (SFdiv_core_binary prec emax (Z.pos ma) ea (Z.pos mb) eb)
    as [[mz ez] lz].
  apply binary_round_aux_negb.
Qed.

Lemma binary_round_negb s m e :
  binary_round prec emax (negb s) m e = SFopp (binary_round prec emax s m e).
Proof.
  unfold binary_round.
  destruct (shl_align m e _) as [mz ez]. apply binary_round_aux_negb.
Qed.

Lemma binary_normalize_opp m e :
  same_or_zeros (binary_normalize prec emax (- m) e false)
                (SFopp (binary_normalize prec emax m e false)).
Proof.
  destruct m as [|p|p]; simpl.
  - right. exists false, true. split; reflexivity.
  - left. apply (binary_round_negb false).
  - left. apply (binary_round_negb true).
Qed.

Lemma cond_Zopp_negb s z : cond_Zopp (negb s) z = (- cond_Zopp s z)%Z.
Proof. destruct s; simpl; lia. Qed.

(** [(-a) - (-b)] is [-(a - b)], but for the sign of a zero result. *)
Lemma SFsub_opp_opp a b :
  same_or_zeros (SF64sub (SFopp a) (SFopp b)) (SFopp (SF64sub a b)).
Proof.
  unfold SF64sub.
  destruct a as [[|]|[|]| |sa ma ea], b as [[|]|[|]| |sb mb eb]; simpl;
    try (left; reflexivity);
    try (right; do 2 eexists; split; reflexivity).
  rewrite !cond_Zopp_negb.
  match goal with
  | |- same_or_zeros (binary_normalize _ _ ?m _ _)
                     (SFopp (binary_normalize _ _ ?n _ _)) =>
      replace m with (- n)%Z by lia
  end.
  apply binary_normalize_opp.
Qed.

Lemma sub_one_zero a s : Prim2SF a = S754_zero s -> a - 1 = -1.
Proof.
  intros H. apply Prim2SF_inj. rewrite sub_spec, H.
  destruct s; reflexivity.
Qed.

(** The sign of a zero is lost once 1 is taken away. *)
Lemma sub_opp_opp_minus_one a b :
  (- a - - b) - 1 = - (a - b) - 1 /\ - (- a - - b) - 1 = (a - b) - 1.
Proof.
  destruct (SFsub_opp_opp (Prim2SF a) (Prim2SF b)) as [H | (s & s' & H & H')].
  - rewrite <- !opp_spec, <- !sub_spec, <- opp_spec in H.
    apply Prim2SF_inj in H. rewrite H, opp_involutive. split; reflexivity.
  - rewrite <- !opp_spec, <- !sub_spec in H.
    rewrite <- sub_spec, <- opp_spec in H'.
    assert (H0 : Prim2SF (a - b) = S754_zero (negb s')).
    { rewrite <- (opp_involutive (a - b)), opp_spec, H'. reflexivity. }
    assert (H1 : Prim2SF (- (- a - - b)) = S754_zero (negb s)).
    { rewrite opp_spec, H. reflexivity. }
    rewrite (sub_one_zero _ _ H), (sub_one_zero _ _ H'),
      (sub_one_zero _ _ H0), (sub_one_zero _ _ H1).
    split; reflexivity.
Qed.

(** The order of binary64, on the specification side. *)
Ltac split_compare :=
  repeat match goal with
  | |- context [Pos.compare_cont Eq ?a ?b] =>
      change (Pos.compare_cont Eq a b) with (Pos.compare a b)
  | H : context [Pos.compare_cont Eq ?a ?b] |- _ =>
      change (Pos.compare_cont Eq a b) with (Pos.compare a b) in H
  end;
  repeat match goal with
  | H : context [Z.compare ?a ?b] |- _ =>
      destruct (Z.compare_spec a b); simpl in H; try discriminate H
  | H : context [Pos.compare ?a ?b] |- _ =>
      destruct (Pos.compare_spec a b); simpl in H; try discriminate H
  | |- context [Z.compare ?a ?b] =>
      destruct (Z.compare_spec a b); simpl
  | |- context [Pos.compare ?a ?b] =>
      destruct (Pos.compare_spec a b); simpl
  end;
  subst; try reflexivity; try discriminate; try lia.

Ltac by_cases a b c :=
  destruct a as [[|]|[|]| |[|] ? ?], b as [[|]|[|]| |[|] ? ?],
           c as [[|]|[|]| |[|] ? ?];
  simpl; intros; try reflexivity; try discriminate; split_compare.

Lemma SFltb_trans a b c :
  SFltb a b = true -> SFltb b c = true -> SFltb a c = true.
Proof. unfold SFltb. by_cases a b c. Qed.

Lemma SFeqb_ltb a b c :
  SFeqb c a = true -> SFltb a b = true -> SFltb c b = true.
Proof. unfold SFeqb, SFltb. by_cases a b c. Qed.

Lemma SFltb_false_leb a c :
  a <> S754_nan -> c <> S754_nan -> SFltb c a = false -> SFleb a c = true.
Proof.
  unfold SFltb, SFleb.
  destruct a as [[|]|[|]| |[|] ? ?], c as [[|]|[|]| |[|] ? ?];
    simpl; intros; try reflexivity; try discriminate; try congruence;
    split_compare.
Qed.

Lemma SFltb_irrefl a : SFltb a a = false.
Proof.
  unfold SFltb. destruct a as [[|]|[|]| |[|] m e]; simpl; try reflexivity;
    rewrite Z.compare_refl;
    change (Pos.compare_cont Eq m m) with (Pos.compare m m);
    rewrite Pos.compare_refl; reflexivity.
Qed.

Lemma SFltb_not_nan a b : SFltb a b = true -> a <> S754_nan.
Proof. unfold SFltb. destruct a, b; simpl; intros; discriminate. Qed.

Lemma is_nan_false a : is_nan a = false <-> Prim2SF a <> S754_nan.
Proof.
  unfold is_nan. rewrite eqb_spec. unfold SFeqb.
  destruct (Prim2SF a) as [[|]|[|]| |[|] m e]; simpl;
    rewrite ?Z.compare_refl;
    repeat match goal with
    | |- context [Pos.compare_cont Eq ?p ?p] =>
        change (Pos.compare_cont Eq p p) with (Pos.compare p p)
    end;
    rewrite ?Pos.compare_refl; simpl;
    split; intros; try discriminate; try reflexivity; congruence.
Qed.

Lemma ltb_trans a b c : (a <? b) = true -> (b <? c) = true -> (a <? c) = true.
Proof. rewrite !ltb_spec. apply SFltb_trans. Qed.

Lemma ltb_irrefl a : (a <? a) = false.
Proof. rewrite ltb_spec. apply SFltb_irrefl. Qed.

Lemma ltb_asym a b : (a <? b) = true -> (b <? a) = false.
Proof.
  intros Hab. destruct (b <? a) eqn:Hba; [|reflexivity].
  rewrite <- (ltb_irrefl a). symmetry. apply (ltb_trans _ _ _ Hab Hba).
Qed.

(** Nothing is below a value that is below [b] unless it is below [b]. *)
Lemma ltb_lower a b c : (a <? b) = true -> (c <? b) = false -> (c <? a) = false.
Proof.
  intros Hab Hcb. destruct (c <? a) eqn:Hca; [|reflexivity].
  rewrite (ltb_trans _ _ _ Hca Hab) in Hcb. discriminate.
Qed.

Lemma eqb_ltb a b c : (c =? a) = true -> (a <? b) = true -> (c <? b) = true.
Proof. rewrite eqb_spec, !ltb_spec. apply SFeqb_ltb. Qed.

Lemma ltb_false_leb a c :
  is_nan a = false -> is_nan c = false -> (c <? a) = false -> (a <=? c) = true.
Proof.
  rewrite !is_nan_false, ltb_spec, leb_spec. apply SFltb_false_leb.
Qed.

Lemma ltb_is_nan a b : (a <? b) = true -> is_nan a = false.
Proof. rewrite is_nan_false, ltb_spec. apply SFltb_not_nan. Qed.

(** A positive double is a positive finite number or plus infinity. *)
Lemma positive_cases k :
  (0 <? k) = true ->
  Prim2SF k = S754_infinity false
  \/ exists m e, Prim2SF k = S754_finite false m e.
Proof.
  rewrite ltb_spec, Prim2SF_zero. unfold SFltb.
  destruct (Prim2SF k) as [s|[|]| |[|] m e]; simpl; intros H;
    try discriminate.
  - left. reflexivity.
  - right. eauto.
Qed.

Lemma div_zero_pos k : (0 <? k) = true -> 0 / k = 0.
Proof.
  intros H. apply Prim2SF_inj. rewrite div_spec, Prim2SF_zero.
  destruct (positive_cases k H) as [-> | (m & e & ->)]; reflexivity.
Qed.

Lemma mul_zero_pos k :
  (0 <? k) = true -> (k <? infinity) = true -> 0 * k = 0.
Proof.
  intros H Hfin. apply Prim2SF_inj. rewrite mul_spec, Prim2SF_zero.
  destruct (positive_cases k H) as [E | (m & e & ->)]; [|reflexivity].
  rewrite ltb_spec, E in Hfin. discriminate Hfin.
Qed.

(** One step backwards is already past a segment of length zero. *)
Lemma backward_step_past_zero k :
  (0 <? k) = true -> (abs (- k - 0) <=? 0) = false.
Proof.
  intros H. rewrite leb_spec, abs_spec, sub_spec, opp_spec, Prim2SF_zero.
  destruct (positive_cases k H) as [-> | (m & e & ->)]; reflexivity.
Qed.

(** A NaN stays a NaN through the arithmetic that sizes the buffers. *)
Lemma div_add_add_nan a b c d :
  Prim2SF a = S754_nan -> Prim2SF (a / b + c + d) = S754_nan.
Proof.
  intros H. rewrite !add_spec, div_spec, H. reflexivity.
Qed.

Lemma SFabs_antisym a b :
  SFltb (SFabs a) (SFabs b) = false -> SFltb (SFabs b) (SFabs a) = false ->
  SFabs a <> S754_nan -> SFabs b <> S754_nan -> SFabs a = SFabs b.
Proof.
  unfold SFltb.
  destruct a as [sa|sa| |sa ma ea], b as [sb|sb| |sb mb eb]; simpl;
    intros; try reflexivity; try discriminate; try congruence.
  revert H H0. split_compare.
Qed.

Lemma abs_antisym a b :
  (abs a <? abs b) = false -> (abs b <? abs a) = false ->
  is_nan (abs a) = false -> is_nan (abs b) = false -> abs a = abs b.
Proof.
  rewrite !is_nan_false, !ltb_spec, !abs_spec. intros.
  apply Prim2SF_inj. rewrite !abs_spec. apply SFabs_antisym; assumption.
Qed.

Lemma eqb_zero_cases a : (a =? 0) = true -> a = 0 \/ a = - 0.
Proof.
  rewrite eqb_spec, Prim2SF_zero. intros H.
  destruct (Prim2SF a) as [[|]|s| |s m e] eqn:E;
    try (destruct s; discriminate H); try discriminate H.
  - right. apply Prim2SF_inj. rewrite E. reflexivity.
  - left. apply Prim2SF_inj. rewrite E. reflexivity.
Qed.

Lemma div_opp_l a b : - a / b = - (a / b).
Proof.
  apply Prim2SF_inj. rewrite opp_spec, !div_spec, opp_spec.
  unfold SF64div.
  destruct (Prim2SF a) as [sa|sa| |sa ma ea],
           (Prim2SF b) as [sb|sb| |sb mb eb];
    simpl; rewrite ?xorb_negb_l; try reflexivity.
  destruct (SFdiv_core_binary prec emax (Z.pos ma) ea (Z.pos mb) eb)
    as [[mz ez] lz].
  apply binary_round_aux_negb.
Qed.

(** A rounding that was given the sign of a positive number is not below
    zero. *)
Lemma binary_round_aux_sign s m e l :
  SFltb (binary_round_aux prec emax false m e l) (S754_zero s) = false.
Proof.
  unfold binary_round_aux.
  destruct (shr_fexp prec emax m e l) as [mrs' e'].
  destruct (shr_fexp prec emax _ e' loc_Exact) as [mrs'' e''].
  destruct (shr_m mrs''); try reflexivity.
  destruct (e'' <=? emax - prec)%Z; reflexivity.
Qed.

(** A sum of two doubles that are not negative is not negative. *)
Lemma add_not_negative a b :
  (a <? 0) = false -> (b <? 0) = false -> (a + b <? 0) = false.
Proof.
  rewrite !ltb_spec, add_spec, Prim2SF_zero. unfold SF64add.
  destruct (Prim2SF a) as [[|]|[|]| |[|] ma ea],
           (Prim2SF b) as [[|]|[|]| |[|] mb eb];
    intros Ha Hb; try discriminate Ha; try discriminate Hb;
    try reflexivity.
  unfold SFadd.
  destruct (shl_align ma ea (Z.min ea eb)) as [ma' ea'].
  destruct (shl_align mb eb (Z.min ea eb)) as [mb' eb'].
  cbn [fst cond_Zopp Z.add binary_normalize]. unfold binary_round.
  destruct (shl_align _ _ _) as [mz ez]. apply binary_round_aux_sign.
Qed.


Lemma ltb_opp_zero a : (0 <? - a) = (a <? 0) /\ (- a <? 0) = (0 <? a).
Proof.
  rewrite !ltb_spec, opp_spec, Prim2SF_zero.
  destruct (Prim2SF a) as [[|]|[|]| |[|] m e]; split; reflexivity.
Qed.

Lemma abs_opp a : abs (- a) = abs a.
Proof.
  apply Prim2SF_inj. rewrite !abs_spec, opp_spec.
  destruct (Prim2SF a) as [s|s| |s m e]; reflexivity.
Qed.

(** The arithmetic that sizes the buffers has a finite result only on a
    finite first operand. *)
Lemma div_add_add_finite a b c d :
  integer_part (a / b + c + d) <> None -> (a <? infinity) = true.
Proof.
  unfold integer_part. rewrite !add_spec, div_spec, ltb_spec.
  change (Prim2SF infinity) with (S754_infinity false).
  unfold SF64add, SF64div.
  destruct (Prim2SF a) as [sa|[|]| |[|] ma ea]; try reflexivity;
    destruct (Prim2SF b) as [sb|sb| |sb mb eb],
             (Prim2SF c) as [sc|[|]| |sc mc ec],
             (Prim2SF d) as [sd|[|]| |sd md ed];
    try destruct sb; cbn; intros H; try reflexivity;
    exfalso; apply H; reflexivity.
Qed.

End Dbl.

(** ** Vectors *)

Lemma update_length {A : Type} (v : list A) i a :
  length (update v i a) = length v.
Proof.
  revert i; induction v as [|b w IH]; intros [|j]; simpl; auto.
Qed.

Lemma update_same {A : Type} (v : list A) i a :
  (i < length v)%nat -> nth_error (update v i a) i = Some a.
Proof.
  revert i; induction v as [|b w IH]; intros [|j]; simpl; intros H;
    try lia; auto.
  apply IH; lia.
Qed.

Lemma update_other {A : Type} (v : list A) i j a :
  i <> j -> nth_error (update v i a) j = nth_error v j.
Proof.
  revert i j; induction v as [|b w IH]; intros [|i] [|j] H; simpl; auto;
    try congruence.
Qed.

Lemma assign_Ret {A : Type} (v : list A) i a :
  (i < length v)%nat -> assign v i a = Ret (update v i a).
Proof.
  intros H. unfold assign.
  destruct (Nat.ltb_spec i (length v)); [reflexivity | lia].
Qed.

Lemma assign_OutOfRange {A : Type} (v : list A) i a :
  (length v <= i)%nat -> assign v i a = OutOfRange.
Proof.
  intros H. unfold assign.
  destruct (Nat.ltb_spec i (length v)); [lia | reflexivity].
Qed.


(** ** The path assembler *)

Lemma lengths_size_one P :
  sizeof_double_ptr P = sizeof_double P -> (0 < sizeof_double P)%nat ->
  lengths_size P = 1%nat.
Proof.
  intros H Hpos. unfold lengths_size. rewrite H.
  apply Nat.div_same. lia.
Qed.

Lemma SetRSP_one P l rest types paths :
  lengths_size P = 1%nat ->
  SetRSP P (l :: rest) types paths
  = Ret (true, paths ++ [candidate (l :: rest) types]).
Proof.
  intros H. unfold SetRSP. fold (lengths_size P). rewrite H. simpl.
  rewrite Dbl.add_zero_abs, Dbl.abs_ltb_zero. reflexivity.
Qed.

(** C9.  Where a pointer to double is as large as a double, the record
    [SetRSP] appends keeps one segment whatever the caller supplied: its
    length and type vectors have size 1 (the first length and the first
    letter) and its total length is the absolute value of the first length
    alone. *)
Theorem SetRSP_stores_one_segment (P : Platform) (lengths : list float)
    (types : string) (all_possible_paths : Paths) :
  sizeof_double_ptr P = sizeof_double P ->
  (0 < sizeof_double P)%nat ->
  (1 <= length lengths)%nat ->
  String.length types = length lengths ->
  exists path,
    SetRSP P lengths types all_possible_paths
    = Ret (true, all_possible_paths ++ [path])
    /\ length (segs_lengths path) = 1%nat
    /\ length (segs_types path) = 1%nat
    /\ segs_lengths path = firstn 1 lengths
    /\ segs_types path = firstn 1 (list_ascii_of_string types)
    /\ total_length path = abs (nth 0 lengths 0).
Proof.
  intros Hsize Hpos Hlen Htypes.
  destruct lengths as [|l rest]; [simpl in Hlen; lia|].
  destruct types as [|c types]; [discriminate Htypes|].
  eexists. split.
  - apply SetRSP_one, lengths_size_one; assumption.
  - simpl. repeat split; reflexivity.
Qed.

Lemma SetRSP_stores_one_segment_witness :
  exists path,
    SetRSP LP64 [1; -2; 3] "LSL" [] = Ret (true, [] ++ [path])
    /\ length (segs_lengths path) = 1%nat
    /\ length (segs_types path) = 1%nat
    /\ segs_lengths path = firstn 1 [1; -2; 3]
    /\ segs_types path = firstn 1 (list_ascii_of_string "LSL")
    /\ total_length path = abs (nth 0 [1; -2; 3] 0).
Proof.
  apply (SetRSP_stores_one_segment LP64 [1; -2; 3] "LSL" []);
    [reflexivity | simpl; lia | simpl; lia | reflexivity].
Defined.

(** C1.  On LP64 the lengths 1, -2, 3 with the letters LSL give a record
    that keeps the length 1 and the letter L only, with total length 1,
    where the sum of the absolute values of the three lengths is 6. *)
Theorem SetRSP_drops_segments :
  SetRSP LP64 [1; -2; 3] "LSL" []
  = Ret (true, [{| segs_lengths := [1]; segs_types := ["L"%char];
                   total_length := 1;
                   x := []; y := []; phi := []; gear := [] |}])
  /\ sum_abs [1; -2; 3] = 6.
Proof. split; vm_compute; reflexivity. Qed.

(** ** The four-turn primitives *)

(** C10.  When [LRLRn] or [LRLRp] validates, the [t] and [v] it writes are
    the zeros the locals were initialised with; the pair that
    [calc_tau_omega] returns is only tested.  [u] alone is computed. *)
Theorem LRLRn_LRLRp_t_v_zero {M : Math} (x0 y0 phi0 : float)
    (param : RSPParam) :
  flag param = false ->
  (flag (LRLRn x0 y0 phi0 param) = true ->
   t (LRLRn x0 y0 phi0 param) = 0 /\ v (LRLRn x0 y0 phi0 param) = 0
   /\ u (LRLRn x0 y0 phi0 param)
      = acos (0x1p-2 * (2 + sqrt ((x0 + sin phi0) * (x0 + sin phi0)
                                  + (y0 - 1 - cos phi0) * (y0 - 1 - cos phi0)))))
  /\
  (flag (LRLRp x0 y0 phi0 param) = true ->
   t (LRLRp x0 y0 phi0 param) = 0 /\ v (LRLRp x0 y0 phi0 param) = 0
   /\ u (LRLRp x0 y0 phi0 param)
      = - acos ((20 - (x0 + sin phi0) * (x0 + sin phi0)
                 - (y0 - 1 - cos phi0) * (y0 - 1 - cos phi0)) / 16)).
Proof.
  intros Hparam. split.
  - unfold LRLRn. cbv zeta.
    destruct (_ <=? 1); [|congruence].
    destruct (_ && _); [|congruence].
    intros _. simpl. auto.
  - unfold LRLRp. cbv zeta.
    destruct (_ && _); [|congruence].
    destruct (_ <=? - acos _); [|congruence].
    destruct (_ && _); [|congruence].
    intros _. simpl. auto.
Qed.

Lemma LRLRn_LRLRp_t_v_zero_witness :
  (flag (LRLRn (-0x1p-1) 0 1 RSPParam0) = true
   /\ t (LRLRn (-0x1p-1) 0 1 RSPParam0) = 0
   /\ v (LRLRn (-0x1p-1) 0 1 RSPParam0) = 0)
  /\
  (flag (LRLRp 0 (-2) 0x1p-1 RSPParam0) = true
   /\ t (LRLRp 0 (-2) 0x1p-1 RSPParam0) = 0
   /\ v (LRLRp 0 (-2) 0x1p-1 RSPParam0) = 0).
Proof.
  split.
  - split; [vm_compute; reflexivity|].
    destruct (LRLRn_LRLRp_t_v_zero (-0x1p-1) 0 1 RSPParam0 eq_refl)
      as [Hn _].
    destruct Hn as (Ht & Hv & _); [vm_compute; reflexivity|]. split; assumption.
  - split; [vm_compute; reflexivity|].
    destruct (LRLRn_LRLRp_t_v_zero 0 (-2) 0x1p-1 RSPParam0 eq_refl)
      as [_ Hp].
    destruct Hp as (Ht & Hv & _); [vm_compute; reflexivity|]. split; assumption.
Defined.

(** ** The interpolation rule *)

(** C6.  For a segment letter S, L or R and an index inside the four
    buffers, [Interpolation] returns; the slot at the index then holds the
    position and heading of [sample_pose] (straight: the anchor moved by
    [pd / max_kappa_] along the heading, heading kept; left: the rotated
    chord offset added, heading [ophi + pd]; right: the same with the
    y-component negated, heading [ophi - pd]) and the flag [pd > 0]; every
    other slot is as before. *)
Theorem Interpolation_rule {M : Math} (RS : ReedShepp) (index : Z)
    (pd : float) (m : ascii) (ox oy ophi : float) (b : Buffers) :
  (0 <= index)%Z ->
  (Z.to_nat index < length (px b))%nat ->
  (Z.to_nat index < length (py b))%nat ->
  (Z.to_nat index < length (pphi b))%nat ->
  (Z.to_nat index < length (pgear b))%nat ->
  m = "S"%char \/ m = "L"%char \/ m = "R"%char ->
  exists b',
    Interpolation RS index pd m ox oy ophi b = Ret b'
    /\ nth_error (px b') (Z.to_nat index)
       = Some (fst (fst (sample_pose RS m pd ox oy ophi)))
    /\ nth_error (py b') (Z.to_nat index)
       = Some (snd (fst (sample_pose RS m pd ox oy ophi)))
    /\ nth_error (pphi b') (Z.to_nat index)
       = Some (snd (sample_pose RS m pd ox oy ophi))
    /\ nth_error (pgear b') (Z.to_nat index) = Some (0 <? pd)
    /\ forall j, j <> Z.to_nat index ->
         nth_error (px b') j = nth_error (px b) j
         /\ nth_error (py b') j = nth_error (py b) j
         /\ nth_error (pphi b') j = nth_error (pphi b) j
         /\ nth_error (pgear b') j = nth_error (pgear b) j.
Proof.
  intros Hidx Hx Hy Hphi Hgear Hm.
  unfold Interpolation, size_t_of_index.
  destruct (Z.ltb_spec index 0) as [Hneg|_]; [lia|].
  set (i := Z.to_nat index) in *.
  unfold sample_pose, rotate, chord_offset.
  destruct Hm as [-> | [-> | ->]]; simpl;
    rewrite ?(assign_Ret _ _ _ Hx), ?(assign_Ret _ _ _ Hy); simpl;
    rewrite ?(assign_Ret _ _ _ Hphi), ?(assign_Ret _ _ _ Hgear); simpl;
    rewrite ?assign_Ret by (rewrite ?update_length; assumption); simpl;
    eexists; (split; [reflexivity|]); simpl;
    rewrite ?update_same by (rewrite ?update_length; assumption);
    rewrite ?Dbl.div_opp_r;
    repeat split; try reflexivity;
    rewrite ?update_other by congruence; try reflexivity.
Qed.

Lemma Interpolation_rule_witness :
  exists b',
    Interpolation {| max_kappa_ := 0x1p-2; step_size := 0x1p-1 |} 1 0x1p-1
      "R" 1 2 0x1p-1
      {| px := [0; 0; 0]; py := [0; 0; 0]; pphi := [0; 0; 0];
         pgear := [true; true; true] |} = Ret b'
    /\ nth_error (px b') 1 <> Some 0
    /\ nth_error (pgear b') 1 = Some true
    /\ nth_error (px b') 2 = Some 0.
Proof.
  destruct (Interpolation_rule {| max_kappa_ := 0x1p-2; step_size := 0x1p-1 |}
              1 0x1p-1 "R" 1 2 0x1p-1
              {| px := [0; 0; 0]; py := [0; 0; 0]; pphi := [0; 0; 0];
                 pgear := [true; true; true] |})
    as (b' & Hrun & Hx & _ & _ & Hg & Hother);
    [lia | simpl; lia | simpl; lia | simpl; lia | simpl; lia
    | right; right; reflexivity |].
  change (Z.to_nat 1) with 1%nat in Hx, Hg, Hother.
  exists b'. split; [exact Hrun|]. split; [|split].
  - rewrite Hx. intros H.
    apply (f_equal (fun o => match o with
                             | Some f => Prim2SF f
                             | None => S754_nan
                             end)) in H.
    vm_compute in H. discriminate H.
  - rewrite Hg. reflexivity.
  - destruct (Hother 2%nat) as [H _]; [simpl; lia|]. rewrite H. reflexivity.
Defined.
(** ** What the orchestrators append on LP64 *)

Lemma when_flag_LP64 flag l rest types paths :
  when_flag LP64 flag (l :: rest) types paths
  = Ret (true, paths ++ offer flag (l :: rest) types).
Proof.
  unfold when_flag, offer. destruct flag.
  - rewrite SetRSP_one by reflexivity. reflexivity.
  - rewrite app_nil_r. reflexivity.
Qed.

Lemma run_calls_LP64 calls :
  Forall has_lengths calls ->
  forall paths,
    run_calls LP64 calls paths = Ret (true, paths ++ flat_map offer_of calls).
Proof.
  induction 1 as [|[[param lengths] types] calls Hc _ IH]; intros paths.
  - simpl. rewrite app_nil_r. reflexivity.
  - destruct lengths as [|l rest]; [exfalso; apply Hc; reflexivity|].
    simpl. unfold and_then. rewrite when_flag_LP64. simpl.
    rewrite IH, app_assoc. reflexivity.
Qed.

Ltac has_lengths_tac :=
  cbv zeta; repeat constructor; unfold has_lengths; simpl; discriminate.

Section Families.

Context {M : Math}.
Variable P : Platform.
Variables x0 y0 phi0 : float.
Variable paths : Paths.

Lemma SCS_run : SCS P x0 y0 phi0 = run_calls P (SCS_calls x0 y0 phi0).
Proof. reflexivity. Qed.

Lemma CSC_run : CSC P x0 y0 phi0 = run_calls P (CSC_calls x0 y0 phi0).
Proof. reflexivity. Qed.

Lemma CCC_run : CCC P x0 y0 phi0 = run_calls P (CCC_calls x0 y0 phi0).
Proof. reflexivity. Qed.

Lemma CCCC_run : CCCC P x0 y0 phi0 = run_calls P (CCCC_calls x0 y0 phi0).
Proof. reflexivity. Qed.

Lemma CCSC_run : CCSC P x0 y0 phi0 = run_calls P (CCSC_calls x0 y0 phi0).
Proof. reflexivity. Qed.

Lemma CCSCC_run : CCSCC P x0 y0 phi0 = run_calls P (CCSCC_calls x0 y0 phi0).
Proof. reflexivity. Qed.

Lemma SCS_LP64 :
  SCS LP64 x0 y0 phi0 paths
  = Ret (true, paths ++ flat_map offer_of (SCS_calls x0 y0 phi0)).
Proof.
  change (SCS LP64 x0 y0 phi0) with (run_calls LP64 (SCS_calls x0 y0 phi0)).
  apply run_calls_LP64. unfold SCS_calls. has_lengths_tac.
Qed.

Lemma CSC_LP64 :
  CSC LP64 x0 y0 phi0 paths
  = Ret (true, paths ++ flat_map offer_of (CSC_calls x0 y0 phi0)).
Proof.
  change (CSC LP64 x0 y0 phi0) with (run_calls LP64 (CSC_calls x0 y0 phi0)).
  apply run_calls_LP64. unfold CSC_calls. has_lengths_tac.
Qed.

Lemma CCC_LP64 :
  CCC LP64 x0 y0 phi0 paths
  = Ret (true, paths ++ flat_map offer_of (CCC_calls x0 y0 phi0)).
Proof.
  change (CCC LP64 x0 y0 phi0) with (run_calls LP64 (CCC_calls x0 y0 phi0)).
  apply run_calls_LP64. unfold CCC_calls. has_lengths_tac.
Qed.

Lemma CCCC_LP64 :
  CCCC LP64 x0 y0 phi0 paths
  = Ret (true, paths ++ flat_map offer_of (CCCC_calls x0 y0 phi0)).
Proof.
  change (CCCC LP64 x0 y0 phi0) with (run_calls LP64 (CCCC_calls x0 y0 phi0)).
  apply run_calls_LP64. unfold CCCC_calls. has_lengths_tac.
Qed.

Lemma CCSC_LP64 :
  CCSC LP64 x0 y0 phi0 paths
  = Ret (true, paths ++ flat_map offer_of (CCSC_calls x0 y0 phi0)).
Proof.
  change (CCSC LP64 x0 y0 phi0) with (run_calls LP64 (CCSC_calls x0 y0 phi0)).
  apply run_calls_LP64. unfold CCSC_calls. has_lengths_tac.
Qed.

Lemma CCSCC_LP64 :
  CCSCC LP64 x0 y0 phi0 paths
  = Ret (true, paths ++ flat_map offer_of (CCSCC_calls x0 y0 phi0)).
Proof.
  change (CCSCC LP64 x0 y0 phi0) with (run_calls LP64 (CCSCC_calls x0 y0 phi0)).
  apply run_calls_LP64. unfold CCSCC_calls. has_lengths_tac.
Qed.

End Families.

(** ** The search *)

Lemma and_then_after (a k : step) paths added :
  a paths = Ret (true, paths ++ added) ->
  (a ;;; k) paths = k (paths ++ added).
Proof. intros Ha. unfold and_then. rewrite Ha. reflexivity. Qed.

Lemma GenerateRSP_LP64 {M : Math} RS start_node end_node :
  GenerateRSP LP64 RS start_node end_node []
  = Ret (negb (length (candidates RS start_node end_node) =? 0)%nat,
         candidates RS start_node end_node).
Proof.
  unfold GenerateRSP, candidates, normalized, search, all_calls. cbv zeta.
  rewrite !flat_map_app.
  rewrite (and_then_after _ _ _ _ (SCS_LP64 _ _ _ _)).
  rewrite (and_then_after _ _ _ _ (CSC_LP64 _ _ _ _)).
  rewrite (and_then_after _ _ _ _ (CCC_LP64 _ _ _ _)).
  rewrite (and_then_after _ _ _ _ (CCCC_LP64 _ _ _ _)).
  rewrite (and_then_after _ _ _ _ (CCSC_LP64 _ _ _ _)).
  rewrite (and_then_after _ _ _ _ (CCSCC_LP64 _ _ _ _)).
  rewrite app_nil_l, <- !app_assoc.
  destruct (length _ =? 0)%nat; reflexivity.
Qed.

Lemma offer_of_length c : (length (offer_of c) <= 1)%nat.
Proof. destruct c as [[[[] ? ? ?] ?] ?]; simpl; lia. Qed.

Lemma flat_map_offer_length calls :
  (length (flat_map offer_of calls) <= length calls)%nat.
Proof.
  induction calls as [|c calls IH]; simpl; [lia|].
  rewrite length_app. pose proof (offer_of_length c). lia.
Qed.

Lemma candidates_length {M : Math} RS start_node end_node :
  (length (candidates RS start_node end_node) <= 46)%nat.
Proof.
  unfold candidates, normalized, search. cbv zeta.
  etransitivity; [apply flat_map_offer_length|].
  apply Nat.eq_le_incl. reflexivity.
Qed.

(** What [ShortestRSP] does with the candidates, on LP64. *)
Lemma ShortestRSP_LP64 {M : Math} RS start_node end_node optimal_path :
  ShortestRSP LP64 RS start_node end_node optimal_path
  = match candidates RS start_node end_node with
    | [] => Ret (false, optimal_path)
    | _ :: _ =>
        _ <- discretize_copies RS start_node
               (candidates RS start_node end_node) ;;
        path <- at_ (candidates RS start_node end_node)
                  (size_t_of_int
                     (snd (scan (candidates RS start_node end_node)
                                0%Z infinity (-1)%Z))) ;;
        Ret (true, path)
    end.
Proof.
  unfold ShortestRSP, GenerateRSPs, and_then.
  rewrite GenerateRSP_LP64.
  destruct (candidates RS start_node end_node) as [|c cs] eqn:E.
  - reflexivity.
  - cbn [length Nat.eqb negb bind].
    unfold GenerateLocalConfigurations.
    destruct (discretize_copies RS start_node (c :: cs)); try reflexivity.
    cbn [bind return_true negb].
    destruct (scan (c :: cs) 0 infinity (-1)). reflexivity.
Qed.

(** No record is appended exactly when no call validated. *)
Lemma no_offer calls :
  flat_map offer_of calls = []
  <-> forall param lengths types,
        In (param, lengths, types) calls -> flag param = false.
Proof.
  induction calls as [|[[param lengths] types] calls IH]; simpl.
  - split; [intros _ ? ? ? [] | reflexivity].
  - split.
    + intros H. apply app_eq_nil in H. destruct H as [Hc Hrest].
      intros param' lengths' types' [E | Hin].
      * injection E as <- <- <-. unfold offer in Hc.
        destruct (flag param); [discriminate Hc | reflexivity].
      * apply (proj1 IH Hrest _ _ _ Hin).
    + intros H. unfold offer.
      rewrite (H param lengths types) by (left; reflexivity).
      apply IH. intros param' lengths' types' Hin.
      apply (H param' lengths' types'). right. exact Hin.
Qed.

(** C4.  On LP64 no family orchestrator ever returns [false]: each appends
    what validated and returns [true].  [GenerateRSP] returns [false] when
    the collection is empty and [true] otherwise, and [ShortestRSP] returns
    [false], leaving [*optimal_path] as it was, exactly when the six
    families produced no candidate, that is, when none of their calls
    validated. *)
Theorem ShortestRSP_fails_iff_no_candidate {M : Math} (RS : ReedShepp)
    (start_node end_node : Node3d) (optimal_path : ReedSheppPath) :
  (forall x0 y0 phi0 paths,
      SCS LP64 x0 y0 phi0 paths
      = Ret (true, paths ++ flat_map offer_of (SCS_calls x0 y0 phi0))
      /\ CSC LP64 x0 y0 phi0 paths
         = Ret (true, paths ++ flat_map offer_of (CSC_calls x0 y0 phi0))
      /\ CCC LP64 x0 y0 phi0 paths
         = Ret (true, paths ++ flat_map offer_of (CCC_calls x0 y0 phi0))
      /\ CCCC LP64 x0 y0 phi0 paths
         = Ret (true, paths ++ flat_map offer_of (CCCC_calls x0 y0 phi0))
      /\ CCSC LP64 x0 y0 phi0 paths
         = Ret (true, paths ++ flat_map offer_of (CCSC_calls x0 y0 phi0))
      /\ CCSCC LP64 x0 y0 phi0 paths
         = Ret (true, paths ++ flat_map offer_of (CCSCC_calls x0 y0 phi0)))
  /\ GenerateRSP LP64 RS start_node end_node []
     = Ret (negb (length (candidates RS start_node end_node) =? 0)%nat,
            candidates RS start_node end_node)
  /\ (candidates RS start_node end_node = []
      <-> ShortestRSP LP64 RS start_node end_node optimal_path
          = Ret (false, optimal_path))
  /\ (forall path,
        ShortestRSP LP64 RS start_node end_node optimal_path
        = Ret (false, path) ->
        path = optimal_path /\ candidates RS start_node end_node = [])
  /\ (candidates RS start_node end_node = []
      <-> let '(x0, y0, dphi) := normalized RS start_node end_node in
          forall param lengths types,
            In (param, lengths, types) (all_calls x0 y0 dphi) ->
            flag param = false).
Proof.
  split; [|split; [|split; [|split]]].
  - intros x0 y0 phi0 paths.
    repeat split;
      [apply SCS_LP64 | apply CSC_LP64 | apply CCC_LP64 | apply CCCC_LP64
      | apply CCSC_LP64 | apply CCSCC_LP64].
  - apply GenerateRSP_LP64.
  - rewrite ShortestRSP_LP64.
    destruct (candidates RS start_node end_node) as [|c cs].
    + split; reflexivity.
    + split; [discriminate|].
      destruct (discretize_copies RS start_node (c :: cs)); try discriminate.
      cbn [bind]. destruct (at_ _ _); discriminate.
  - intros path. rewrite ShortestRSP_LP64.
    destruct (candidates RS start_node end_node) as [|c cs].
    + intros H. split; [congruence | reflexivity].
    + destruct (discretize_copies RS start_node (c :: cs)); try discriminate.
      cbn [bind]. destruct (at_ _ _); discriminate.
  - unfold candidates.
    destruct (normalized RS start_node end_node) as [[x0 y0] dphi].
    apply no_offer.
Qed.

(** ** The selector *)

(** The scan has chosen nothing, or the first candidate that no candidate
    is below. *)
Lemma scan_chooses paths : forall i len idx,
  (scan paths i len idx = (len, idx)
   /\ forall q, In q paths -> (total_length q <? len) = false)
  \/ exists k p,
       nth_error paths k = Some p
       /\ scan paths i len idx = (total_length p, (i + Z.of_nat k)%Z)
       /\ (total_length p <? len) = true
       /\ (forall q, In q paths -> (total_length q <? total_length p) = false)
       /\ (forall j q, nth_error paths j = Some q -> (j < k)%nat ->
                       (total_length q =? total_length p) = false).
Proof.
  induction paths as [|p rest IH]; intros i len idx.
  - left. split; [reflexivity | intros q []].
  - simpl. destruct (total_length p <? len) eqn:Hp.
    + specialize (IH (i + 1)%Z (total_length p) i).
      right. destruct IH as [[Hidx Hnone] | (k & p' & Hk & Hidx & Hlt & Hmin & Htie)].
      * exists 0%nat, p. simpl. rewrite Hidx, Z.add_0_r.
        repeat split; auto.
        -- intros q [<- | Hq]; [apply Dbl.ltb_irrefl | auto].
        -- intros j q _ Hj. lia.
      * exists (S k), p'. simpl. rewrite Hidx.
        repeat split; auto.
        -- f_equal. lia.
        -- apply (Dbl.ltb_trans _ _ _ Hlt Hp).
        -- intros q [<- | Hq]; [apply Dbl.ltb_asym; exact Hlt | auto].
        -- intros [|j] q Hq Hj; simpl in Hq.
           ++ injection Hq as <-.
              destruct (total_length p =? total_length p') eqn:E; [|reflexivity].
              rewrite <- (Dbl.ltb_irrefl (total_length p)). symmetry.
              apply (Dbl.eqb_ltb _ _ _ E Hlt).
           ++ apply (Htie j q Hq). lia.
    + specialize (IH (i + 1)%Z len idx).
      destruct IH as [[Hidx Hnone] | (k & p' & Hk & Hidx & Hlt & Hmin & Htie)].
      * left. split; [exact Hidx|].
        intros q [<- | Hq]; auto.
      * right. exists (S k), p'. simpl. rewrite Hidx.
        repeat split; auto.
        -- f_equal. lia.
        -- intros q [<- | Hq]; [apply (Dbl.ltb_lower _ _ _ Hlt Hp) | auto].
        -- intros [|j] q Hq Hj; simpl in Hq.
           ++ injection Hq as <-.
              destruct (total_length p =? total_length p') eqn:E; [|reflexivity].
              rewrite <- Hp. symmetry. apply (Dbl.eqb_ltb _ _ _ E Hlt).
           ++ apply (Htie j q Hq). lia.
Qed.

(** The discretizer has no defined result on a path whose total length is
    not a number: the size of the buffers is undefined. *)
Lemma walk_not_nan {M : Math} RS path b :
  walk RS path = Ret b -> is_nan (total_length path) = false.
Proof.
  intros H. apply Dbl.is_nan_false. intros Hnan.
  unfold walk, size_t_of_double, integer_part in H.
  rewrite (Dbl.div_add_add_nan _ _ _ _ Hnan) in H. discriminate H.
Qed.

Lemma discretize_not_nan {M : Math} RS start_node path path' :
  discretize RS start_node path = Ret path' ->
  is_nan (total_length path) = false.
Proof.
  unfold discretize. destruct (walk RS path) as [b| |] eqn:E; try discriminate.
  intros _. apply (walk_not_nan _ _ _ E).
Qed.

Lemma discretize_copies_not_nan {M : Math} RS start_node paths :
  discretize_copies RS start_node paths = Ret tt ->
  forall q, In q paths -> is_nan (total_length q) = false.
Proof.
  induction paths as [|p rest IH]; intros H q Hq; [destruct Hq|].
  cbn [discretize_copies] in H.
  destruct (discretize RS start_node p) as [p'| |] eqn:E; try discriminate.
  cbn [bind] in H. destruct Hq as [<- | Hq].
  - apply (discretize_not_nan _ _ _ _ E).
  - apply IH; assumption.
Qed.

(** When [ShortestRSP] returns [true], the path it writes is the candidate
    the scan chose. *)
Lemma ShortestRSP_true {M : Math} RS start_node end_node optimal_path path :
  ShortestRSP LP64 RS start_node end_node optimal_path = Ret (true, path) ->
  exists k,
    nth_error (candidates RS start_node end_node) k = Some path
    /\ (forall q, In q (candidates RS start_node end_node) ->
                  (total_length q <? total_length path) = false)
    /\ (forall j q, nth_error (candidates RS start_node end_node) j = Some q ->
                    (j < k)%nat ->
                    (total_length q =? total_length path) = false)
    /\ (forall q, In q (candidates RS start_node end_node) ->
                  is_nan (total_length q) = false).
Proof.
  rewrite ShortestRSP_LP64.
  pose proof (candidates_length RS start_node end_node) as Hlen.
  destruct (candidates RS start_node end_node) as [|c cs] eqn:E;
    [discriminate|].
  destruct (discretize_copies RS start_node (c :: cs)) as [[]| |] eqn:Ecopies;
    try discriminate.
  pose proof (discretize_copies_not_nan _ _ _ Ecopies) as Hnan.
  cbn [bind].
  destruct (scan_chooses (c :: cs) 0%Z infinity (-1)%Z)
    as [[Hidx _] | (k & p & Hk & Hidx & Hlt & Hmin & Htie)];
    rewrite Hidx; cbn [snd].
  - assert (Hnone : nth_error (c :: cs) (size_t_of_int (-1)) = None).
    { apply nth_error_None. unfold size_t_of_int.
      change ((-1) mod 2 ^ 64)%Z with 18446744073709551615%Z. lia. }
    unfold at_. rewrite Hnone. discriminate.
  - assert (Hsame : size_t_of_int (0 + Z.of_nat k) = k).
    { unfold size_t_of_int. rewrite Z.add_0_l.
      assert (k < length (c :: cs))%nat
        by (apply nth_error_Some; congruence).
      rewrite Z.mod_small; [apply Nat2Z.id|]. split; [lia|].
      apply Z.lt_trans with 47%Z; [lia | reflexivity]. }
    rewrite Hsame. unfold at_. rewrite Hk. cbn [bind].
    intros H. injection H as <-.
    exists k. repeat split; auto.
Qed.

(** C3.  When [ShortestRSP] returns [true] on LP64, the path it writes is
    one of the candidates [GenerateRSP] collected; its total length is less
    than or equal to the total length of every candidate (none of which is
    a NaN, or the discretizer would not have returned), and every candidate
    of the same total length comes after it in generation order. *)
Theorem ShortestRSP_minimal_first {M : Math} (RS : ReedShepp)
    (start_node end_node : Node3d) (optimal_path path : ReedSheppPath) :
  ShortestRSP LP64 RS start_node end_node optimal_path = Ret (true, path) ->
  GenerateRSP LP64 RS start_node end_node []
  = Ret (true, candidates RS start_node end_node)
  /\ exists k,
       nth_error (candidates RS start_node end_node) k = Some path
       /\ (forall q, In q (candidates RS start_node end_node) ->
                     (total_length path <=? total_length q) = true
                     /\ (total_length q <? total_length path) = false)
       /\ (forall j q,
             nth_error (candidates RS start_node end_node) j = Some q ->
             (total_length q =? total_length path) = true -> (k <= j)%nat).
Proof.
  intros Hrun.
  destruct (ShortestRSP_true _ _ _ _ _ Hrun) as (k & Hk & Hmin & Htie & Hnan).
  split.
  - rewrite GenerateRSP_LP64.
    destruct (candidates RS start_node end_node); [destruct k; discriminate Hk|].
    reflexivity.
  - exists k. repeat split; auto.
    + apply Dbl.ltb_false_leb; auto.
      apply Hnan. apply (nth_error_In _ _ Hk).
    + intros j q Hj Heq.
      destruct (Nat.le_gt_cases k j) as [Hle | Hlt]; [exact Hle|].
      rewrite (Htie j q Hj Hlt) in Heq. discriminate Heq.
Qed.

Lemma ShortestRSP_minimal_first_witness :
  GenerateRSP LP64 example_RS origin example_goal []
  = Ret (true, candidates example_RS origin example_goal)
  /\ exists k,
       nth_error (candidates example_RS origin example_goal) k
       = Some (candidate [0x1.d748c05a817e4p-2] "L")
       /\ (forall q, In q (candidates example_RS origin example_goal) ->
                     (total_length (candidate [0x1.d748c05a817e4p-2] "L")
                      <=? total_length q) = true
                     /\ (total_length q
                         <? total_length (candidate [0x1.d748c05a817e4p-2] "L"))
                        = false)
       /\ (forall j q,
             nth_error (candidates example_RS origin example_goal) j = Some q ->
             (total_length q
              =? total_length (candidate [0x1.d748c05a817e4p-2] "L")) = true ->
             (k <= j)%nat).
Proof.
  apply (ShortestRSP_minimal_first example_RS origin example_goal empty_path
           (candidate [0x1.d748c05a817e4p-2] "L")).
  vm_compute. reflexivity.
Defined.

(** Every candidate is the record of a call that validated. *)
Lemma In_flat_map_offer path calls :
  In path (flat_map offer_of calls) ->
  exists param lengths types,
    In (param, lengths, types) calls /\ flag param = true
    /\ path = candidate lengths types.
Proof.
  intros H. apply in_flat_map in H. destruct H as ([[param lengths] types] & Hc & Hp).
  exists param, lengths, types. simpl in Hp. unfold offer in Hp.
  destruct (flag param); [|destruct Hp].
  destruct Hp as [<- | []]. repeat split; auto.
Qed.

(** C2.  When [ShortestRSP] returns [true] on LP64, the path it writes is
    the record [SetRSP] built for a call that validated, untouched by the
    discretizer (which works on copies): its sample sequences [x], [y],
    [phi] and [gear] are empty, and its one length and its total length are
    the primitive's, in unit-curvature space, not divided by
    [max_kappa_]. *)
Theorem ShortestRSP_path_not_discretized {M : Math} (RS : ReedShepp)
    (start_node end_node : Node3d) (optimal_path path : ReedSheppPath) :
  ShortestRSP LP64 RS start_node end_node optimal_path = Ret (true, path) ->
  x path = [] /\ y path = [] /\ phi path = [] /\ gear path = []
  /\ (exists paths,
        GenerateRSP LP64 RS start_node end_node [] = Ret (true, paths)
        /\ In path paths)
  /\ exists param lengths types,
       (let '(x0, y0, dphi) := normalized RS start_node end_node in
        In (param, lengths, types) (all_calls x0 y0 dphi))
       /\ flag param = true
       /\ segs_lengths path = firstn 1 lengths
       /\ total_length path = abs (hd 0 lengths).
Proof.
  intros Hrun.
  destruct (ShortestRSP_true _ _ _ _ _ Hrun) as (k & Hk & _).
  apply nth_error_In in Hk.
  assert (Hgen : exists paths,
             GenerateRSP LP64 RS start_node end_node [] = Ret (true, paths)
             /\ In path paths).
  { exists (candidates RS start_node end_node). split; [|exact Hk].
    rewrite GenerateRSP_LP64.
    destruct (candidates RS start_node end_node); [destruct Hk | reflexivity]. }
  unfold candidates in Hk.
  destruct (normalized RS start_node end_node) as [[x0 y0] dphi].
  apply In_flat_map_offer in Hk.
  destruct Hk as (param & lengths & types & Hin & Hflag & ->).
  repeat split; try reflexivity; [exact Hgen|].
  exists param, lengths, types. repeat split; auto.
Qed.

Lemma ShortestRSP_path_not_discretized_witness :
  ShortestRSP LP64 example_RS origin example_goal empty_path
  = Ret (true, candidate [0x1.d748c05a817e4p-2] "L")
  /\ x (candidate [0x1.d748c05a817e4p-2] "L") = []
  /\ segs_lengths (candidate [0x1.d748c05a817e4p-2] "L")
     = [0x1.d748c05a817e4p-2]
  /\ total_length (candidate [0x1.d748c05a817e4p-2] "L")
     = 0x1.d748c05a817e4p-2.
Proof.
  assert (Hrun : ShortestRSP LP64 example_RS origin example_goal empty_path
                 = Ret (true, candidate [0x1.d748c05a817e4p-2] "L"))
    by (vm_compute; reflexivity).
  split; [exact Hrun|].
  destruct (ShortestRSP_path_not_discretized example_RS origin example_goal
              empty_path (candidate [0x1.d748c05a817e4p-2] "L") Hrun)
    as (Hx & _).
  split; [exact Hx|]. split; reflexivity.
Defined.

(** What the loop of [GenerateLocalConfigurations] computes on its copy of
    that record and then drops: two samples and the lengths divided by
    [max_kappa_]. *)
Lemma discretize_example :
  exists path,
    discretize example_RS origin (candidate [0x1.d748c05a817e4p-2] "L")
    = Ret path
    /\ length (x path) = 2%nat /\ length (y path) = 2%nat
    /\ length (phi path) = 2%nat /\ gear path = [true; true]
    /\ segs_lengths path = [0x1.d748c05a817e4p-2 / 0x1p-2]
    /\ total_length path = 0x1.d748c05a817e4p-2 / 0x1p-2.
Proof.
  eexists. split; [vm_compute; reflexivity|].
  repeat split; vm_compute; reflexivity.
Qed.

(** ** The discretizer at a zero offset *)

Section SamePose.

Context {M : Math}.

(** The values the C library and [apollo::common::math] return at zero. *)
Hypothesis sin_zero : sin 0 = 0.
Hypothesis cos_zero : cos 0 = 1.
Hypothesis sin_neg_zero : sin (- 0) = - 0.
Hypothesis cos_neg_zero : cos (- 0) = 1.
Hypothesis NormalizeAngle_zero : NormalizeAngle 0 = 0.
Hypothesis Cartesian2Polar_zero : Cartesian2Polar 0 0 = (0, 0).

(** A positive finite curvature bound and a positive step. *)
Variable RS : ReedShepp.
Hypothesis max_kappa_positive : (0 <? max_kappa_ RS) = true.
Hypothesis max_kappa_finite : (max_kappa_ RS <? infinity) = true.
Hypothesis step_size_positive : (0 <? step_size RS) = true.

Lemma normalized_same_pose : normalized RS origin origin = (0, 0, 0).
Proof.
  unfold normalized. cbn [GetX GetY GetPhi origin].
  rewrite sin_zero, cos_zero.
  change (1 * (0 - 0) + 0 * (0 - 0)) with 0.
  change (- 0 * (0 - 0) + 1 * (0 - 0)) with 0.
  change (0 - 0) with 0.
  rewrite Dbl.mul_zero_pos by assumption. reflexivity.
Qed.

Lemma LSL_zero_offset :
  LSL 0 0 0 RSPParam0 = {| flag := true; t := 0; u := 0; v := 0 |}.
Proof.
  unfold LSL. rewrite sin_zero, cos_zero.
  change (0 - 0) with 0. change (0 - 1 + 1) with 0.
  rewrite Cartesian2Polar_zero. cbn [fst snd].
  change (0 <=? 0) with true. cbn iota.
  change (0 - 0) with 0. rewrite NormalizeAngle_zero.
  change (0 <=? 0) with true. reflexivity.
Qed.

(** The first candidate is the left turn of length zero. *)
Lemma candidates_same_pose :
  exists rest,
    candidates RS origin origin = candidate [0; 0; 0] "LSL" :: rest.
Proof.
  unfold candidates. rewrite normalized_same_pose.
  unfold search, all_calls. rewrite !flat_map_app.
  assert (HSCS : flat_map offer_of (SCS_calls 0 0 0) = []).
  { unfold SCS_calls, SLS. cbv zeta.
    change (0 <? 0) with false. change (0 <? - 0) with false.
    change (- 0 <? 0) with false. reflexivity. }
  rewrite HSCS. cbn [app].
  unfold CSC_calls. cbv zeta. cbn [flat_map offer_of].
  rewrite LSL_zero_offset. cbn [flag t u v offer app].
  eexists. reflexivity.
Qed.

(** The final sample of the segment of length zero. *)
Lemma Interpolation_zero b :
  Interpolation RS 1 0 "L" 0 0 0
    {| px := [0; 0; 0; 0]; py := [0; 0; 0; 0]; pphi := [0; 0; 0; 0];
       pgear := b |}
  = (pgear' <- assign b 1%nat false ;;
     Ret {| px := [0; 0; 0; 0]; py := [0; 0; 0; 0]; pphi := [0; 0; 0; 0];
            pgear := pgear' |}).
Proof.
  unfold Interpolation.
  cbn [size_t_of_index Z.ltb Z.compare bind Ascii.eqb Bool.eqb
       px py pphi pgear].
  rewrite sin_zero, cos_zero, sin_neg_zero, cos_neg_zero.
  change (1 - 1) with 0. rewrite (Dbl.div_zero_pos _ max_kappa_positive).
  vm_compute. destruct b as [|? [|? ?]]; reflexivity.
Qed.

(** The walk leaves every slot of the four-slot buffers at zero. *)
Lemma walk_same_pose :
  walk RS (candidate [0; 0; 0] "LSL")
  = Ret {| px := [0; 0; 0; 0]; py := [0; 0; 0; 0]; pphi := [0; 0; 0; 0];
           pgear := [false; false; true; true] |}.
Proof.
  unfold walk.
  cbn [candidate total_length segs_lengths segs_types firstn hd
       list_ascii_of_string length].
  change (abs 0) with 0. rewrite (Dbl.div_zero_pos _ step_size_positive).
  change (size_t_of_double (0 + double_of_size_t 1 + 3)) with (@Ret nat 4%nat).
  cbn [bind repeat at_ nth_error assign length Nat.ltb Nat.leb update
       px py pphi pgear].
  change (0 <? 0) with false. cbn iota.
  cbn [seq for_each]. unfold segment.
  cbn [candidate segs_types segs_lengths firstn hd list_ascii_of_string
       at_ nth_error bind size_t_of_index index Z.ltb Z.compare bufs
       px py pphi pgear Z.to_nat Pos.to_nat Pos.iter_op Nat.add Nat.leb ll].
  change (0 <? 0) with false. cbn iota.
  cbn [length sample_segment].
  change (abs 0) with 0.
  rewrite (Dbl.backward_step_past_zero _ step_size_positive).
  cbn [bind Z.add Z.sub Z.opp Z.pos_sub Pos.add Pos.succ].
  change (Pos.to_nat 1) with 1%nat. cbn [at_ nth_error bind].
  rewrite Interpolation_zero. reflexivity.
Qed.

Lemma discretize_same_pose :
  discretize RS origin (candidate [0; 0; 0] "LSL") = Undefined.
Proof. unfold discretize. rewrite walk_same_pose. reflexivity. Qed.

(** C7.  With start and goal both at the origin, whatever the positive
    finite curvature bound and the positive step, the first candidate is the
    left turn of length zero; the walk over it leaves all four slots of [px]
    at zero, so the trim pops every sample and then takes [back] of an empty
    vector: no sample is retained and the call has no defined result. *)
Theorem ShortestRSP_same_pose_undefined (optimal_path : ReedSheppPath) :
  (exists rest,
      GenerateRSP LP64 RS origin origin []
      = Ret (true, candidate [0; 0; 0] "LSL" :: rest))
  /\ (exists b,
        walk RS (candidate [0; 0; 0] "LSL") = Ret b
        /\ px b = [0; 0; 0; 0]
        /\ trim (length (px b)) b = Undefined)
  /\ discretize RS origin (candidate [0; 0; 0] "LSL") = Undefined
  /\ ShortestRSP LP64 RS origin origin optimal_path = Undefined.
Proof.
  destruct candidates_same_pose as [rest Hrest].
  split; [|split; [|split]].
  - exists rest. rewrite GenerateRSP_LP64, Hrest. reflexivity.
  - eexists. split; [apply walk_same_pose|]. split; reflexivity.
  - apply discretize_same_pose.
  - rewrite ShortestRSP_LP64, Hrest. cbn [discretize_copies].
    rewrite discretize_same_pose. reflexivity.
Qed.

End SamePose.

Lemma ShortestRSP_same_pose_undefined_witness :
  ShortestRSP LP64 example_RS origin origin empty_path = Undefined.
Proof.
  apply (ShortestRSP_same_pose_undefined (M := ref_math));
    vm_compute; reflexivity.
Defined.

(** The goal straight ahead runs into the same trim: its first candidate
    is again a left turn of length zero. *)
Lemma straight_ahead_undefined :
  (exists rest,
      candidates example_RS origin straight_ahead
      = candidate [0; 0x1.4p+0; 0] "LSL" :: rest)
  /\ ShortestRSP LP64 example_RS origin straight_ahead empty_path = Undefined.
Proof.
  split; [eexists|]; vm_compute; reflexivity.
Qed.

(** ** The mirror symmetry of the search *)

Lemma offer_single flag a rest c types :
  offer flag (a :: rest) (String c types) = single flag a c.
Proof. destruct flag; reflexivity. Qed.

Lemma map_mirror_single flag a c :
  map mirror_path (single flag a c) = single flag a (mirror_turn c).
Proof. destruct flag; reflexivity. Qed.

Lemma swap_one {A : Type} (a b r r' : list A) :
  Permutation r r' -> Permutation (b ++ a ++ r) (a ++ b ++ r').
Proof.
  intros H. rewrite !app_assoc.
  apply Permutation_app; [apply Permutation_app_comm | exact H].
Qed.

Lemma swap_pairs {A : Type} (a b c d r r' : list A) :
  Permutation r r' ->
  Permutation (c ++ d ++ a ++ b ++ r) (a ++ b ++ c ++ d ++ r').
Proof.
  intros H.
  replace (c ++ d ++ a ++ b ++ r) with ((c ++ d) ++ (a ++ b) ++ r)
    by (rewrite <- !app_assoc; reflexivity).
  replace (a ++ b ++ c ++ d ++ r') with ((a ++ b) ++ (c ++ d) ++ r')
    by (rewrite <- !app_assoc; reflexivity).
  apply swap_one. exact H.
Qed.

Section Mirror.

Context {M : Math}.
Variables x0 y0 phi0 : float.

(** The cosine is even and the sine odd at the heading difference. *)
Hypothesis cos_even : cos (- phi0) = cos phi0.
Hypothesis sin_odd : sin (- phi0) = - sin phi0.

(** The primitives that the time-reversed calls use read [y] through
    [y - 1] only. *)
Lemma LRL_y x1 y1 y2 phi1 param :
  y1 - 1 = y2 - 1 -> LRL x1 y1 phi1 param = LRL x1 y2 phi1 param.
Proof. intros H. unfold LRL. rewrite H. reflexivity. Qed.

Lemma LRLRn_y x1 y1 y2 phi1 param :
  y1 - 1 = y2 - 1 -> LRLRn x1 y1 phi1 param = LRLRn x1 y2 phi1 param.
Proof. intros H. unfold LRLRn. rewrite H. reflexivity. Qed.

Lemma LRLRp_y x1 y1 y2 phi1 param :
  y1 - 1 = y2 - 1 -> LRLRp x1 y1 phi1 param = LRLRp x1 y2 phi1 param.
Proof. intros H. unfold LRLRp. rewrite H. reflexivity. Qed.

Lemma LRL_mirror_1 x1 a b phi1 param :
  LRL x1 (- a - - b) phi1 param = LRL x1 (- (a - b)) phi1 param.
Proof. apply LRL_y, Dbl.sub_opp_opp_minus_one. Qed.

Lemma LRL_mirror_2 x1 a b phi1 param :
  LRL x1 (- (- a - - b)) phi1 param = LRL x1 (a - b) phi1 param.
Proof. apply LRL_y, Dbl.sub_opp_opp_minus_one. Qed.

Lemma LRLRn_mirror_1 x1 a b phi1 param :
  LRLRn x1 (- a - - b) phi1 param = LRLRn x1 (- (a - b)) phi1 param.
Proof. apply LRLRn_y, Dbl.sub_opp_opp_minus_one. Qed.

Lemma LRLRn_mirror_2 x1 a b phi1 param :
  LRLRn x1 (- (- a - - b)) phi1 param = LRLRn x1 (a - b) phi1 param.
Proof. apply LRLRn_y, Dbl.sub_opp_opp_minus_one. Qed.

Lemma LRLRp_mirror_1 x1 a b phi1 param :
  LRLRp x1 (- a - - b) phi1 param = LRLRp x1 (- (a - b)) phi1 param.
Proof. apply LRLRp_y, Dbl.sub_opp_opp_minus_one. Qed.

Lemma LRLRp_mirror_2 x1 a b phi1 param :
  LRLRp x1 (- (- a - - b)) phi1 param = LRLRp x1 (a - b) phi1 param.
Proof. apply LRLRp_y, Dbl.sub_opp_opp_minus_one. Qed.

(** The time-reversed pose of the mirrored offset. *)
Lemma xb_mirror :
  x0 * cos (- phi0) + - y0 * sin (- phi0) = x0 * cos phi0 + y0 * sin phi0.
Proof.
  rewrite cos_even, sin_odd, Dbl.mul_opp_r, Dbl.mul_opp_l, Dbl.opp_involutive.
  reflexivity.
Qed.

Lemma yb_mirror :
  x0 * sin (- phi0) - - y0 * cos (- phi0)
  = - (x0 * sin phi0) - - (y0 * cos phi0).
Proof.
  rewrite cos_even, sin_odd, Dbl.mul_opp_r, Dbl.mul_opp_l. reflexivity.
Qed.

Ltac to_singles :=
  cbv zeta; cbn [flat_map offer_of];
  rewrite ?map_app; rewrite !offer_single, !map_mirror_single;
  cbn [map];
  change (mirror_turn "L") with "R"%char;
  change (mirror_turn "R") with "L"%char;
  change (mirror_turn "S") with "S"%char.

Lemma SCS_mirror :
  Permutation (flat_map offer_of (SCS_calls x0 (- y0) (- phi0)))
              (map mirror_path (flat_map offer_of (SCS_calls x0 y0 phi0))).
Proof.
  unfold SCS_calls. to_singles. rewrite !Dbl.opp_involutive.
  apply swap_one. reflexivity.
Qed.

Lemma CSC_mirror :
  Permutation (flat_map offer_of (CSC_calls x0 (- y0) (- phi0)))
              (map mirror_path (flat_map offer_of (CSC_calls x0 y0 phi0))).
Proof.
  unfold CSC_calls. to_singles. rewrite !Dbl.opp_involutive.
  do 2 apply swap_pairs. reflexivity.
Qed.

Lemma CCC_mirror :
  Permutation (flat_map offer_of (CCC_calls x0 (- y0) (- phi0)))
              (map mirror_path (flat_map offer_of (CCC_calls x0 y0 phi0))).
Proof.
  unfold CCC_calls. to_singles.
  rewrite !xb_mirror, !yb_mirror, !Dbl.opp_involutive.
  rewrite !LRL_mirror_1, !LRL_mirror_2.
  do 2 apply swap_pairs. reflexivity.
Qed.

Lemma CCCC_mirror :
  Permutation (flat_map offer_of (CCCC_calls x0 (- y0) (- phi0)))
              (map mirror_path (flat_map offer_of (CCCC_calls x0 y0 phi0))).
Proof.
  unfold CCCC_calls. to_singles. rewrite !Dbl.opp_involutive.
  do 2 apply swap_pairs. reflexivity.
Qed.

Lemma CCSC_mirror :
  Permutation (flat_map offer_of (CCSC_calls x0 (- y0) (- phi0)))
              (map mirror_path (flat_map offer_of (CCSC_calls x0 y0 phi0))).
Proof.
  unfold CCSC_calls. to_singles.
  rewrite !xb_mirror, !yb_mirror, !Dbl.opp_involutive.
  rewrite !LRLRn_mirror_1, !LRLRn_mirror_2, !LRLRp_mirror_1, !LRLRp_mirror_2.
  do 4 apply swap_pairs. reflexivity.
Qed.

Lemma CCSCC_mirror :
  Permutation (flat_map offer_of (CCSCC_calls x0 (- y0) (- phi0)))
              (map mirror_path (flat_map offer_of (CCSCC_calls x0 y0 phi0))).
Proof.
  unfold CCSCC_calls. to_singles. rewrite !Dbl.opp_involutive.
  apply swap_pairs. reflexivity.
Qed.

Lemma search_mirror :
  Permutation (search x0 (- y0) (- phi0)) (map mirror_path (search x0 y0 phi0)).
Proof.
  unfold search, all_calls. rewrite !flat_map_app, !map_app.
  repeat apply Permutation_app;
    [apply SCS_mirror | apply CSC_mirror | apply CCC_mirror
    | apply CCCC_mirror | apply CCSC_mirror | apply CCSCC_mirror].
Qed.

End Mirror.

Lemma search_total_length {M : Math} x0 y0 phi0 q :
  In q (search x0 y0 phi0) -> exists a, total_length q = abs a.
Proof.
  intros H. apply In_flat_map_offer in H.
  destruct H as (param & lengths & types & _ & _ & ->).
  eexists. reflexivity.
Qed.

(** The scan ends with the same minimum on two collections that hold the
    same total lengths, each the absolute value of a double. *)
Lemma minimal_length_same (l l' : Paths) :
  (forall q, In q l -> exists q', In q' l' /\ total_length q' = total_length q) ->
  (forall q', In q' l' -> exists q, In q l /\ total_length q = total_length q') ->
  (forall q, In q l -> exists a, total_length q = abs a) ->
  (forall q', In q' l' -> exists a, total_length q' = abs a) ->
  minimal_length l = minimal_length l'.
Proof.
  intros Hto Hfrom Habs Habs'. unfold minimal_length.
  destruct (scan_chooses l 0%Z infinity (-1)%Z)
    as [[Hs Hnone] | (k & p & Hk & Hs & Hlt & Hmin & _)];
  destruct (scan_chooses l' 0%Z infinity (-1)%Z)
    as [[Hs' Hnone'] | (k' & p' & Hk' & Hs' & Hlt' & Hmin' & _)];
  rewrite Hs, Hs'; cbn [fst].
  - reflexivity.
  - apply nth_error_In in Hk'. destruct (Hfrom p' Hk') as (q & Hq & Heq).
    rewrite <- Heq, (Hnone q Hq) in Hlt'. discriminate Hlt'.
  - apply nth_error_In in Hk. destruct (Hto p Hk) as (q' & Hq' & Heq).
    rewrite <- Heq, (Hnone' q' Hq') in Hlt. discriminate Hlt.
  - apply nth_error_In in Hk, Hk'.
    destruct (Hto p Hk) as (q' & Hq' & Heq).
    destruct (Hfrom p' Hk') as (q & Hq & Heq').
    pose proof (Hmin q Hq) as H1. rewrite Heq' in H1.
    pose proof (Hmin' q' Hq') as H2. rewrite Heq in H2.
    pose proof (Dbl.ltb_is_nan _ _ Hlt) as N1.
    pose proof (Dbl.ltb_is_nan _ _ Hlt') as N2.
    destruct (Habs p Hk) as [a Ha]. destruct (Habs' p' Hk') as [a' Ha'].
    rewrite Ha, Ha' in *. apply Dbl.abs_antisym; assumption.
Qed.

(** C8.  The mirror symmetry holds in the frame of the start pose, on the
    offset [GenerateRSP] hands to the families (the goal offset turned by
    the start heading and scaled by [max_kappa_]).  Where the cosine is even
    and the sine odd at the heading difference, the search on the mirrored
    normalized offset [(x, -y, -phi)] yields, up to order, the mirror images
    (left and right exchanged, lengths and total length kept) of the
    candidates of [(x, y, phi)]: every candidate has its mirror on the other
    side, both ways, and the scan of the selector ends with the same minimal
    total length.  So it is for the collections [GenerateRSP] fills, from
    any start pose, for two goals whose normalized offsets are mirror
    images. *)
Theorem search_mirror_symmetric {M : Math} (x0 y0 phi0 : float) :
  cos (- phi0) = cos phi0 ->
  sin (- phi0) = - sin phi0 ->
  Permutation (search x0 (- y0) (- phi0)) (map mirror_path (search x0 y0 phi0))
  /\ (forall c, In c (search x0 y0 phi0) ->
        In (mirror_path c) (search x0 (- y0) (- phi0))
        /\ total_length (mirror_path c) = total_length c)
  /\ (forall c', In c' (search x0 (- y0) (- phi0)) ->
        exists c, In c (search x0 y0 phi0) /\ c' = mirror_path c
                  /\ total_length c' = total_length c)
  /\ minimal_length (search x0 (- y0) (- phi0))
     = minimal_length (search x0 y0 phi0)
  /\ (forall RS start_node goal goal',
        normalized RS start_node goal = (x0, y0, phi0) ->
        normalized RS start_node goal' = (x0, - y0, - phi0) ->
        exists ok paths paths',
          GenerateRSP LP64 RS start_node goal [] = Ret (ok, paths)
          /\ GenerateRSP LP64 RS start_node goal' [] = Ret (ok, paths')
          /\ Permutation paths' (map mirror_path paths)
          /\ minimal_length paths' = minimal_length paths).
Proof.
  intros Hcos Hsin.
  pose proof (search_mirror x0 y0 phi0 Hcos Hsin) as Hperm.
  assert (Hto : forall c, In c (search x0 y0 phi0) ->
                  In (mirror_path c) (search x0 (- y0) (- phi0))).
  { intros c Hc. apply (Permutation_in _ (Permutation_sym Hperm)).
    apply in_map. exact Hc. }
  assert (Hfrom : forall c', In c' (search x0 (- y0) (- phi0)) ->
                    exists c, In c (search x0 y0 phi0) /\ c' = mirror_path c).
  { intros c' Hc'. apply (Permutation_in _ Hperm) in Hc'.
    apply in_map_iff in Hc'. destruct Hc' as (c & <- & Hc).
    exists c. split; [exact Hc | reflexivity]. }
  assert (Hmin : minimal_length (search x0 (- y0) (- phi0))
                 = minimal_length (search x0 y0 phi0)).
  { apply minimal_length_same.
    - intros q Hq. destruct (Hfrom q Hq) as (c & Hc & ->).
      exists c. split; [exact Hc | reflexivity].
    - intros q' Hq'. exists (mirror_path q'). split; [auto | reflexivity].
    - intros q. apply search_total_length.
    - intros q'. apply search_total_length. }
  split; [exact Hperm|]. split; [|split; [|split]].
  - intros c Hc. split; [auto | reflexivity].
  - intros c' Hc'. destruct (Hfrom c' Hc') as (c & Hc & ->).
    exists c. repeat split; auto.
  - exact Hmin.
  - intros RS start_node goal goal' Hn Hn'.
    exists (negb (length (candidates RS start_node goal) =? 0)%nat),
           (candidates RS start_node goal), (candidates RS start_node goal').
    rewrite !GenerateRSP_LP64. unfold candidates. rewrite Hn, Hn'.
    rewrite (Permutation_length Hperm), length_map.
    repeat split; assumption.
Qed.

Lemma search_mirror_symmetric_witness :
  Permutation (search 10 (- 5) (- 1)) (map mirror_path (search 10 5 1))
  /\ length (search 10 5 1) = 5%nat
  /\ minimal_length (search 10 (- 5) (- 1)) = minimal_length (search 10 5 1)
  /\ exists ok paths paths',
       GenerateRSP LP64 example_RS origin example_goal [] = Ret (ok, paths)
       /\ GenerateRSP LP64 example_RS origin mirrored_goal []
          = Ret (ok, paths')
       /\ Permutation paths' (map mirror_path paths)
       /\ minimal_length paths' = minimal_length paths.
Proof.
  destruct (search_mirror_symmetric 10 5 1) as (Hperm & _ & _ & Hmin & Hgen);
    [vm_compute; reflexivity | vm_compute; reflexivity |].
  split; [exact Hperm|]. split; [vm_compute; reflexivity|].
  split; [exact Hmin|].
  apply (Hgen example_RS origin example_goal mirrored_goal);
    vm_compute; reflexivity.
Defined.

(** The symmetry does not hold for goals that are mirror images in world
    coordinates when the start pose is turned: from a start heading of half
    a radian, the goals at the offsets [(40, 20, 1)] and [(40, -20, -1)]
    have normalized offsets that are not mirror images, [ShortestRSP]
    returns paths of different total lengths for them, and the minimal
    total lengths of their candidates differ. *)
Lemma mirror_in_world_frame_differs :
  (GetX turned_goal - GetX turned_start,
   GetY turned_goal - GetY turned_start,
   GetPhi turned_goal - GetPhi turned_start) = (40, 20, 1)
  /\ (GetX turned_goal_mirror - GetX turned_start,
      GetY turned_goal_mirror - GetY turned_start,
      GetPhi turned_goal_mirror - GetPhi turned_start) = (40, - 20, - 1)
  /\ (exists p p',
        ShortestRSP LP64 example_RS turned_start turned_goal empty_path
        = Ret (true, p)
        /\ ShortestRSP LP64 example_RS turned_start turned_goal_mirror
             empty_path = Ret (true, p')
        /\ (total_length p' <? total_length p) = true)
  /\ minimal_length (candidates example_RS turned_start turned_goal_mirror)
     <> minimal_length (candidates example_RS turned_start turned_goal)
  /\ ~ (forall c, In c (candidates example_RS turned_start turned_goal) ->
          exists c',
            In c' (candidates example_RS turned_start turned_goal_mirror)
            /\ total_length c' = total_length c).
Proof.
  split; [vm_compute; reflexivity|]. split; [vm_compute; reflexivity|].
  split.
  { eexists. eexists. split; [vm_compute; reflexivity|].
    split; [vm_compute; reflexivity | vm_compute; reflexivity]. }
  assert (Hlt : (minimal_length
                   (candidates example_RS turned_start turned_goal_mirror)
                 <? minimal_length
                      (candidates example_RS turned_start turned_goal))
                = true) by (vm_compute; reflexivity).
  split.
  - intros H. rewrite H, Dbl.ltb_irrefl in Hlt. discriminate Hlt.
  - intros H.
    pose (c := hd empty_path (candidates example_RS turned_start turned_goal)).
    destruct (H c) as (c' & Hin & Heq).
    + vm_compute. left. reflexivity.
    + vm_compute in Hin.
      assert (Hne : (total_length c' =? total_length c) = false).
      { repeat (destruct Hin as [<- | Hin]; [vm_compute; reflexivity|]).
        destruct Hin. }
      rewrite Heq in Hne. vm_compute in Hne. discriminate Hne.
Qed.

(** ** The loops of the discretizer *)

(** The two [while] loops are run with as many turns as the buffers have
    slots.  More turns change nothing: the loop of a segment throws before it
    runs out of them, the trim meets the empty vector. *)

Section Loops.

Context {M : Math}.
Variable RS : ReedShepp.

Lemma Interpolation_OutOfRange index pd m ox oy ophi b :
  (0 <= index)%Z -> (length (px b) <= Z.to_nat index)%nat ->
  Interpolation RS index pd m ox oy ophi b = OutOfRange.
Proof.
  intros Hidx Hlen. unfold Interpolation, size_t_of_index.
  destruct (Z.ltb_spec index 0) as [Hneg|Hpos]; [lia|]. cbn [bind].
  destruct (m =? "S")%char; rewrite (assign_OutOfRange _ _ _ Hlen);
    reflexivity.
Qed.

Lemma assign_length {A : Type} (v w : list A) i a :
  assign v i a = Ret w -> length w = length v /\ (i < length v)%nat.
Proof.
  unfold assign. destruct (Nat.ltb_spec i (length v)) as [Hlt|Hge];
    intros Hw; [|discriminate].
  injection Hw as <-. split; [apply update_length | assumption].
Qed.

Lemma Interpolation_length index pd m ox oy ophi b b' :
  Interpolation RS index pd m ox oy ophi b = Ret b' ->
  length (px b') = length (px b) /\ (Z.to_nat index < length (px b))%nat.
Proof.
  unfold Interpolation, size_t_of_index.
  destruct (Z.ltb_spec index 0) as [Hneg|Hpos]; [discriminate|]. cbn [bind].
  destruct (m =? "S")%char.
  - destruct (assign (px b) _ _) as [px'| |] eqn:Ex; try discriminate.
    apply assign_length in Ex. cbn [bind].
    destruct (assign (py b) _ _); try discriminate. cbn [bind].
    destruct (assign (pphi b) _ _); try discriminate. cbn [bind px pgear pphi py].
    destruct (assign (pgear b) _ _); try discriminate. cbn [bind px pgear pphi py].
    destruct (m =? "L")%char;
      [|destruct (m =? "R")%char];
      try (destruct (assign _ _ _); try discriminate; cbn [bind]);
      intros Hb; injection Hb as <-; exact Ex.
  - destruct (assign (px b) _ _) as [px'| |] eqn:Ex; try discriminate.
    apply assign_length in Ex. cbn [bind].
    destruct (assign (py b) _ _); try discriminate. cbn [bind px pgear pphi py].
    destruct (assign (pgear b) _ _); try discriminate. cbn [bind px pgear pphi py].
    destruct (m =? "L")%char;
      [|destruct (m =? "R")%char];
      try (destruct (assign _ _ _); try discriminate; cbn [bind]);
      intros Hb; injection Hb as <-; exact Ex.
Qed.

Lemma sample_segment_fuel m l d0 ox oy ophi : forall fuel fuel' index pd0 b,
  (-1 <= index)%Z ->
  (length (px b) - Z.to_nat (index + 1) <= fuel)%nat ->
  (length (px b) - Z.to_nat (index + 1) <= fuel')%nat ->
  sample_segment RS fuel m l d0 ox oy ophi index pd0 b
  = sample_segment RS fuel' m l d0 ox oy ophi index pd0 b.
Proof.
  induction fuel as [|fuel IH]; intros [|fuel'] index pd0 b Hidx Hf Hf';
    cbn [sample_segment]; destruct (abs pd0 <=? abs l); try reflexivity.
  - rewrite Interpolation_OutOfRange by lia. reflexivity.
  - rewrite Interpolation_OutOfRange by lia. reflexivity.
  - destruct (Interpolation RS (index + 1) pd0 m ox oy ophi b) as [b'| |] eqn:E;
      try reflexivity.
    cbn [bind]. apply Interpolation_length in E. destruct E as [Hlen Hin].
    apply IH; rewrite ?Hlen; lia.
Qed.

(** The number of slots is enough for the loop of a segment. *)
Lemma sample_segment_enough m l d0 ox oy ophi fuel index pd0 b :
  (-1 <= index)%Z -> (length (px b) <= fuel)%nat ->
  sample_segment RS fuel m l d0 ox oy ophi index pd0 b
  = sample_segment RS (length (px b)) m l d0 ox oy ophi index pd0 b.
Proof. intros Hidx Hf. apply sample_segment_fuel; lia. Qed.

End Loops.

Lemma back_nil {A : Type} : back (@nil A) = Undefined.
Proof. reflexivity. Qed.

Lemma removelast_length {A : Type} (v : list A) : forall a,
  length (removelast (a :: v)) = length v.
Proof.
  induction v as [|b v IH]; intros a; [reflexivity|].
  change (removelast (a :: b :: v)) with (a :: removelast (b :: v)).
  cbn [length]. f_equal. apply IH.
Qed.

Lemma pop_back_length {A : Type} (v w : list A) :
  pop_back v = Ret w -> S (length w) = length v.
Proof.
  destruct v as [|a v]; intros Hw; [discriminate|].
  injection Hw as <-.
  change (S (length (removelast (a :: v))) = length (a :: v)).
  rewrite removelast_length. reflexivity.
Qed.

Lemma trim_fuel : forall fuel fuel' b,
  (length (px b) <= fuel)%nat -> (length (px b) <= fuel')%nat ->
  trim fuel b = trim fuel' b.
Proof.
  induction fuel as [|fuel IH]; intros [|fuel'] b Hf Hf'; cbn [trim];
    destruct (px b) as [|a v] eqn:E; try reflexivity;
    try (simpl in Hf; lia); try (simpl in Hf'; lia).
  destruct (back (a :: v)); try reflexivity. cbn [bind].
  destruct (_ =? 0); [|reflexivity].
  destruct (pop_back (a :: v)) as [px'| |] eqn:Epop; try reflexivity.
  apply pop_back_length in Epop. cbn [bind].
  destruct (pop_back (py b)); try reflexivity. cbn [bind].
  destruct (pop_back (pphi b)); try reflexivity. cbn [bind].
  destruct (pop_back (pgear b)); try reflexivity. cbn [bind].
  apply IH; cbn [px]; simpl in Hf, Hf', Epop; lia.
Qed.

(** The number of slots is enough for the trim. *)
Lemma trim_enough fuel b :
  (length (px b) <= fuel)%nat -> trim fuel b = trim (length (px b)) b.
Proof. intros Hf. apply trim_fuel; lia. Qed.

(** ** The three-turn family *)


(** ** What the discretizer retains when it returns *)

Lemma assign_inv {A : Type} (v w : list A) i a :
  assign v i a = Ret w -> w = update v i a /\ (i < length v)%nat.
Proof.
  unfold assign. destruct (Nat.ltb_spec i (length v)) as [Hlt|Hge];
    intros Hw; [|discriminate].
  injection Hw as <-. split; [reflexivity | assumption].
Qed.

Lemma hd_update {A : Type} (v : list A) i a d0 :
  i <> 0%nat -> hd d0 (update v i a) = hd d0 v.
Proof. destruct v as [|b w], i as [|j]; simpl; congruence. Qed.

Ltac open_assign :=
  match goal with
  | H : context [assign ?v ?i ?a] |- _ =>
      let w := fresh "w" in
      let E := fresh "E" in
      destruct (assign v i a) as [w| |] eqn:E; try discriminate H;
      apply assign_inv in E; destruct E as [-> ?];
      cbn [bind px py pphi pgear] in H
  end.

Section Retained.

Context {M : Math}.
Variable RS : ReedShepp.

(** A sample stored at an index other than 0 keeps the shape. *)
Lemma Interpolation_untouched n index pd0 m ox oy ophi b b' :
  (1 <= index)%Z -> untouched_start n b ->
  Interpolation RS index pd0 m ox oy ophi b = Ret b' ->
  untouched_start n b'.
Proof.
  intros Hidx (Hx & Hy & Hphi & Hgear & Hx0 & Hy0 & Hphi0) H.
  assert (Hnz : Z.to_nat index <> 0%nat) by lia.
  unfold Interpolation, size_t_of_index in H.
  destruct (Z.ltb_spec index 0) as [Hneg|_]; [lia|]. cbn [bind] in H.
  destruct (m =? "S")%char; repeat open_assign;
    destruct (m =? "L")%char; [| destruct (m =? "R")%char | |
                                 destruct (m =? "R")%char];
    repeat open_assign; injection H as <-;
    unfold untouched_start; cbn [px py pphi pgear];
    rewrite ?update_length, ?hd_update by assumption;
    repeat split; assumption.
Qed.

Lemma sample_segment_untouched n m l d0 ox oy ophi :
  forall fuel index pd0 b index' pd' b',
    (0 <= index)%Z -> untouched_start n b ->
    sample_segment RS fuel m l d0 ox oy ophi index pd0 b
    = Ret (index', pd', b') ->
    untouched_start n b' /\ (index <= index')%Z.
Proof.
  induction fuel as [|fuel IH]; intros index pd0 b index' pd' b' Hidx Hb H;
    cbn [sample_segment] in H; destruct (abs pd0 <=? abs l);
    try discriminate H;
    try (injection H as <- <- <-; split; [assumption | lia]).
  destruct (Interpolation RS (index + 1) pd0 m ox oy ophi b) as [b1| |] eqn:E;
    try discriminate H.
  cbn [bind] in H.
  apply (Interpolation_untouched n) in E; [|lia|assumption].
  apply IH in H; [|lia|assumption]. destruct H as [H1 H2].
  split; [assumption | lia].
Qed.

Lemma segment_untouched n path i c c' :
  (1 <= index c)%Z -> untouched_start n (bufs c) ->
  segment RS path i c = Ret c' ->
  (1 <= index c')%Z /\ untouched_start n (bufs c').
Proof.
  intros Hidx Hb H. unfold segment in H.
  destruct (at_ (segs_types path) i) as [m| |]; try discriminate H.
  cbn [bind] in H.
  destruct (at_ (segs_lengths path) i) as [l| |]; try discriminate H.
  cbn [bind] in H.
  destruct (size_t_of_index (index c)) as [k| |]; try discriminate H.
  cbn [bind] in H.
  destruct (at_ (px (bufs c)) k) as [ox| |]; try discriminate H.
  cbn [bind] in H.
  destruct (at_ (py (bufs c)) k) as [oy| |]; try discriminate H.
  cbn [bind] in H.
  destruct (at_ (pphi (bufs c)) k) as [ophi| |]; try discriminate H.
  cbn [bind] in H.
  match type of H with
  | bind ?s _ = _ => destruct s as [same_sign| |]; try discriminate H
  end.
  cbn [bind] in H.
  match type of H with
  | bind ?s _ = _ =>
      destruct s as [[[index' pd'] b1]| |] eqn:Eloop; try discriminate H
  end.
  cbn [bind] in H.
  apply (sample_segment_untouched n) in Eloop; [|lia|assumption].
  destruct Eloop as [Hb1 Hle].
  destruct (Interpolation RS (index' + 1) l m ox oy ophi b1) as [b2| |] eqn:E;
    try discriminate H.
  cbn [bind] in H. injection H as <-. cbn [index bufs].
  apply (Interpolation_untouched n) in E; [|lia|assumption].
  split; [lia | assumption].
Qed.

Lemma for_each_invariant {S : Type} (Inv : S -> Prop)
    (body : nat -> S -> outcome S) :
  (forall i s s', Inv s -> body i s = Ret s' -> Inv s') ->
  forall ixs s s', Inv s -> for_each ixs body s = Ret s' -> Inv s'.
Proof.
  intros Hbody. induction ixs as [|i ixs IH]; intros s s' Hs H.
  - injection H as <-. exact Hs.
  - cbn [for_each] in H. destruct (body i s) as [s1| |] eqn:E;
      try discriminate H.
    cbn [bind] in H. apply (IH s1); [|exact H]. apply (Hbody i s); assumption.
Qed.

Lemma hd_repeat {A : Type} (a : A) n : hd a (repeat a n) = a.
Proof. destruct n; reflexivity. Qed.

(** After the walk, slot 0 of the buffers is as it was allocated. *)
Lemma walk_untouched path b :
  walk RS path = Ret b -> exists n, untouched_start n b.
Proof.
  unfold walk. intros H.
  destruct (size_t_of_double _) as [n| |]; try discriminate H.
  cbn [bind] in H. exists n.
  destruct (at_ (segs_lengths path) 0) as [l0| |]; try discriminate H.
  cbn [bind px py pphi pgear] in H.
  open_assign.
  match type of H with
  | bind ?s _ = _ => destruct s as [c| |] eqn:Eloop; try discriminate H
  end.
  cbn [bind] in H. injection H as <-.
  apply (for_each_invariant
           (fun c => (1 <= index c)%Z /\ untouched_start n (bufs c)))
    in Eloop.
  - apply Eloop.
  - intros i s s' [Hi Hs] Hstep. apply (segment_untouched n path i s);
      assumption.
  - cbn [index bufs]. split; [lia|].
    unfold untouched_start. cbn [px py pphi pgear].
    rewrite update_length, !repeat_length, !hd_repeat.
    repeat split; reflexivity.
Qed.

Lemma pop_back_inv {A : Type} (v w : list A) :
  pop_back v = Ret w -> w = removelast v /\ v <> [].
Proof.
  destruct v as [|a v]; intros Hw; [discriminate|].
  injection Hw as <-. split; [reflexivity | discriminate].
Qed.

Lemma removelast_length' {A : Type} (v : list A) n :
  v <> [] -> length v = n -> length (removelast v) = (n - 1)%nat.
Proof.
  destruct v as [|a v]; intros Hv Hn; [congruence|].
  rewrite removelast_length. simpl in Hn. lia.
Qed.

Lemma hd_removelast (v : list float) :
  hd 0 v = 0 -> hd 0 (removelast v) = 0.
Proof. destruct v as [|a [|b w]]; simpl; auto. Qed.

Lemma back_single {A : Type} (a : A) : back [a] = Ret a.
Proof. reflexivity. Qed.

(** The trim, when it returns, leaves at least two slots. *)
Lemma trim_untouched : forall fuel n b b',
  untouched_start n b -> trim fuel b = Ret b' ->
  exists n', (2 <= n')%nat /\ untouched_start n' b'.
Proof.
  induction fuel as [|fuel IH];
    intros n b b' (Hx & Hy & Hphi & Hgear & Hx0 & Hy0 & Hphi0) H;
    cbn [trim] in H;
    destruct (back (px b)) as [last| |] eqn:Eback; try discriminate H;
    cbn [bind] in H; destruct (last =? 0) eqn:Elast; try discriminate H.
  - injection H as <-. exists n. split.
    + destruct (px b) as [|a [|a' v]] eqn:Epx; simpl in Hx.
      * discriminate Eback.
      * rewrite back_single in Eback. injection Eback as <-.
        simpl in Hx0. rewrite Hx0 in Elast. discriminate Elast.
      * lia.
    + repeat split; assumption.
  - destruct (pop_back (px b)) as [px'| |] eqn:E1; try discriminate H.
    cbn [bind] in H.
    destruct (pop_back (py b)) as [py'| |] eqn:E2; try discriminate H.
    cbn [bind] in H.
    destruct (pop_back (pphi b)) as [pphi'| |] eqn:E3; try discriminate H.
    cbn [bind] in H.
    destruct (pop_back (pgear b)) as [pgear'| |] eqn:E4; try discriminate H.
    cbn [bind] in H.
    apply pop_back_inv in E1, E2, E3, E4.
    destruct E1 as [-> N1], E2 as [-> N2], E3 as [-> N3], E4 as [-> N4].
    apply (IH (n - 1)%nat) in H; [exact H|].
    unfold untouched_start. cbn [px py pphi pgear].
    rewrite !(removelast_length' _ n) by assumption.
    repeat split; try reflexivity; apply hd_removelast; assumption.
  - injection H as <-. exists n. split.
    + destruct (px b) as [|a [|a' v]] eqn:Epx; simpl in Hx.
      * discriminate Eback.
      * rewrite back_single in Eback. injection Eback as <-.
        simpl in Hx0. rewrite Hx0 in Elast. discriminate Elast.
      * lia.
    + repeat split; assumption.
Qed.

(** The loop that turns the samples to the global frame appends one
    sample for each index and leaves the rest of the path alone. *)
Lemma to_global_appends start_node b : forall ixs path path',
  for_each ixs (to_global start_node b) path = Ret path' ->
  exists xs ys phis,
    x path' = x path ++ xs /\ y path' = y path ++ ys
    /\ phi path' = phi path ++ phis
    /\ length xs = length ixs /\ length ys = length ixs
    /\ length phis = length ixs
    /\ segs_lengths path' = segs_lengths path
    /\ segs_types path' = segs_types path
    /\ total_length path' = total_length path.
Proof.
  induction ixs as [|i ixs IH]; intros path path' H.
  - injection H as <-. exists [], [], []. rewrite !app_nil_r.
    repeat split; reflexivity.
  - cbn [for_each] in H.
    destruct (to_global start_node b i path) as [p1| |] eqn:E;
      try discriminate H.
    cbn [bind] in H. apply IH in H.
    destruct H as (xs & ys & phis & Hx & Hy & Hphi & Lx & Ly & Lphi
                   & Hl & Ht & Htot).
    unfold to_global in E.
    destruct (at_ (px b) i) as [px_i| |]; try discriminate E. cbn [bind] in E.
    destruct (at_ (py b) i) as [py_i| |]; try discriminate E. cbn [bind] in E.
    destruct (at_ (pphi b) i) as [pphi_i| |]; try discriminate E.
    cbn [bind] in E. injection E as <-.
    cbn [x y phi segs_lengths segs_types total_length] in *.
    rewrite <- app_assoc in Hx, Hy, Hphi.
    eexists _, _, _. rewrite Hx, Hy, Hphi.
    repeat split; try reflexivity; try assumption; simpl; lia.
Qed.

(** The first sample is the start pose turned and moved from the zeros of
    slot 0. *)
Lemma to_global_first start_node n b k path path' :
  untouched_start n b ->
  for_each (seq 0 (S k)) (to_global start_node b) path = Ret path' ->
  exists xs ys phis,
    x path' = x path
              ++ (cos (- GetPhi start_node) * 0 + sin (- GetPhi start_node) * 0
                  + GetX start_node) :: xs
    /\ y path' = y path
                 ++ (- sin (- GetPhi start_node) * 0
                     + cos (- GetPhi start_node) * 0 + GetY start_node) :: ys
    /\ phi path' = phi path
                   ++ NormalizeAngle (0 + GetPhi start_node) :: phis
    /\ length xs = k /\ length ys = k /\ length phis = k.
Proof.
  intros (Hx & Hy & Hphi & Hgear & Hx0 & Hy0 & Hphi0) H.
  cbn [seq for_each] in H.
  destruct (to_global start_node b 0 path) as [p1| |] eqn:E;
    try discriminate H.
  cbn [bind] in H. apply to_global_appends in H.
  destruct H as (xs & ys & phis & Ex & Ey & Ephi & Lx & Ly & Lphi & _).
  rewrite length_seq in Lx, Ly, Lphi.
  unfold to_global, at_ in E.
  destruct (px b) as [|px0 pxs]; [discriminate E|].
  destruct (py b) as [|py0 pys]; [discriminate E|].
  destruct (pphi b) as [|pphi0 pphis]; [discriminate E|].
  cbn [nth_error bind] in E. injection E as <-.
  simpl in Hx0, Hy0, Hphi0. subst px0 py0 pphi0.
  cbn [x y phi] in Ex, Ey, Ephi.
  rewrite <- app_assoc in Ex, Ey, Ephi.
  exists xs, ys, phis. repeat split; assumption.
Qed.

Lemma rescale_keeps i path path' :
  rescale RS i path = Ret path' ->
  x path' = x path /\ y path' = y path /\ phi path' = phi path
  /\ gear path' = gear path.
Proof.
  unfold rescale. intros H.
  destruct (at_ (segs_lengths path) i) as [l| |]; try discriminate H.
  cbn [bind] in H.
  destruct (assign (segs_lengths path) i _) as [ls| |]; try discriminate H.
  cbn [bind] in H. injection H as <-. repeat split; reflexivity.
Qed.

End Retained.

(** X1. Whenever the discretizer returns on a path that has no samples yet, it
    has retained at least two: the sequences [x], [y], [phi] and [gear] of the
    result have the same length, two or more, and the first sample is the
    image of the zeros of slot 0, that is, the start pose. *)
Theorem discretize_retains_two {M : Math} (RS : ReedShepp)
    (start_node : Node3d) (path path' : ReedSheppPath) :
  discretize RS start_node path = Ret path' ->
  x path = [] -> y path = [] -> phi path = [] ->
  exists xs ys phis,
    x path' = (cos (- GetPhi start_node) * 0 + sin (- GetPhi start_node) * 0
               + GetX start_node) :: xs
    /\ y path' = (- sin (- GetPhi start_node) * 0
                  + cos (- GetPhi start_node) * 0 + GetY start_node) :: ys
    /\ phi path' = NormalizeAngle (0 + GetPhi start_node) :: phis
    /\ (1 <= length xs)%nat /\ length ys = length xs
    /\ length phis = length xs /\ length (gear path') = S (length xs).
Proof.
  intros H Hx Hy Hphi. unfold discretize in H.
  destruct (walk RS path) as [b| |] eqn:Ewalk; try discriminate H.
  cbn [bind] in H.
  destruct (walk_untouched RS _ _ Ewalk) as [n Hb].
  destruct (trim (length (px b)) b) as [b'| |] eqn:Etrim; try discriminate H.
  cbn [bind] in H.
  destruct (trim_untouched _ _ _ _ Hb Etrim) as (n' & Hn' & Hb').
  destruct Hb' as (Lx & Ly & Lphi & Lgear & Hrest).
  destruct (for_each (seq 0 (length (px b'))) (to_global start_node b') path)
    as [p1| |] eqn:Eglobal; try discriminate H.
  cbn [bind] in H.
  match type of H with
  | bind (for_each ?ixs _ ?p) _ = _ =>
      destruct (for_each ixs (rescale RS) p) as [p2| |] eqn:Erescale;
      try discriminate H
  end.
  cbn [bind] in H. injection H as <-. cbn [x y phi gear].
  apply (for_each_invariant
           (fun p => x p = x p1 /\ y p = y p1 /\ phi p = phi p1
                     /\ gear p = pgear b')) in Erescale.
  - destruct Erescale as (-> & -> & -> & ->).
    rewrite Lx in Eglobal. destruct n' as [|k]; [lia|].
    apply (to_global_first start_node (S k)) in Eglobal;
      [|repeat split; tauto].
    destruct Eglobal as (xs & ys & phis & Ex & Ey & Ephi & Kx & Ky & Kphi).
    rewrite Hx, Hy, Hphi in *. cbn [app] in *.
    exists xs, ys, phis. rewrite Ex, Ey, Ephi, Lgear.
    repeat split; try reflexivity; lia.
  - intros i s s' (E1 & E2 & E3 & E4) Hstep.
    apply rescale_keeps in Hstep. destruct Hstep as (-> & -> & -> & ->).
    repeat split; assumption.
  - repeat split; reflexivity.
Qed.

(** * Further properties *)

(** ** The assembler and the orchestrators on any platform *)

Lemma sum_abs_not_negative lengths : (sum_abs lengths <? 0) = false.
Proof.
  unfold sum_abs.
  assert (H : forall ls acc, (acc <? 0) = false ->
              (fold_left (fun sum l => sum + abs l) ls acc <? 0) = false).
  { induction ls as [|l ls IH]; intros acc Hacc; [exact Hacc|].
    simpl. apply IH. apply Dbl.add_not_negative; [exact Hacc|].
    apply Dbl.abs_ltb_zero. }
  apply H. reflexivity.
Qed.

Lemma SetRSP_cases P lengths types paths :
  SetRSP P lengths types paths
  = if (length lengths <? lengths_size P)%nat then Undefined
    else Ret (true, paths ++ [stored P lengths types]).
Proof.
  unfold SetRSP. fold (lengths_size P).
  destruct (length lengths <? lengths_size P)%nat; [reflexivity|].
  cbn [total_length]. fold (sum_abs (firstn (lengths_size P) lengths)).
  rewrite sum_abs_not_negative. reflexivity.
Qed.


Lemma when_flag_appends P flag lengths types :
  appends 1 (when_flag P flag lengths types).
Proof.
  intros paths. unfold when_flag. destruct flag.
  - rewrite SetRSP_cases.
    destruct (length lengths <? lengths_size P)%nat; [left; reflexivity|].
    right. eexists. split; [reflexivity | simpl; lia].
  - right. exists []. rewrite app_nil_r. split; [reflexivity | simpl; lia].
Qed.

Lemma and_then_appends n m (a b : step) :
  appends n a -> appends m b -> appends (n + m) (a ;;; b).
Proof.
  intros Ha Hb paths. unfold and_then.
  destruct (Ha paths) as [-> | (added & -> & Hn)]; [left; reflexivity|].
  cbn [bind].
  destruct (Hb (paths ++ added)) as [-> | (added' & -> & Hm)];
    [left; reflexivity|].
  right. exists (added ++ added'). rewrite app_assoc, length_app.
  split; [reflexivity | lia].
Qed.

Lemma return_true_appends : appends 0 return_true.
Proof.
  intros paths. right. exists []. rewrite app_nil_r.
  split; [reflexivity | simpl; lia].
Qed.

Lemma run_calls_appends P calls : appends (length calls) (run_calls P calls).
Proof.
  induction calls as [|[[param lengths] types] calls IH].
  - apply return_true_appends.
  - cbn [run_calls fold_right length].
    apply (and_then_appends 1 (length calls)); [|exact IH].
    apply when_flag_appends.
Qed.

Lemma families_append {M : Math} P x0 y0 phi0 :
  appends 46 (fun paths =>
                (SCS P x0 y0 phi0 ;;; CSC P x0 y0 phi0 ;;; CCC P x0 y0 phi0 ;;;
                 CCCC P x0 y0 phi0 ;;; CCSC P x0 y0 phi0 ;;;
                 CCSCC P x0 y0 phi0 ;;; return_true) paths).
Proof.
  rewrite SCS_run, CSC_run, CCC_run, CCCC_run, CCSC_run, CCSCC_run.
  apply (and_then_appends 2 44); [apply run_calls_appends|].
  apply (and_then_appends 8 36); [apply run_calls_appends|].
  apply (and_then_appends 8 28); [apply run_calls_appends|].
  apply (and_then_appends 8 20); [apply run_calls_appends|].
  apply (and_then_appends 16 4); [apply run_calls_appends|].
  apply (and_then_appends 4 0); [apply run_calls_appends|].
  apply return_true_appends.
Qed.

Lemma and_then_collects n m (a b : step) :
  appends n a -> collects m b -> collects (n + m) (a ;;; b).
Proof.
  intros Ha Hb paths. unfold and_then.
  destruct (Ha paths) as [-> | (added & -> & Hn)]; [left; reflexivity|].
  cbn [bind].
  destruct (Hb (paths ++ added)) as [-> | (added' & -> & Hm)];
    [left; reflexivity|].
  right. exists (added ++ added'). rewrite !app_assoc.
  split; [reflexivity | rewrite length_app; lia].
Qed.

Lemma GenerateRSP_collects {M : Math} P RS start_node end_node :
  collects 46 (GenerateRSP P RS start_node end_node).
Proof.
  unfold GenerateRSP. cbv zeta.
  rewrite SCS_run, CSC_run, CCC_run, CCCC_run, CCSC_run, CCSCC_run.
  apply (and_then_collects 2 44); [apply run_calls_appends|].
  apply (and_then_collects 8 36); [apply run_calls_appends|].
  apply (and_then_collects 8 28); [apply run_calls_appends|].
  apply (and_then_collects 8 20); [apply run_calls_appends|].
  apply (and_then_collects 16 4); [apply run_calls_appends|].
  apply (and_then_collects 4 0); [apply run_calls_appends|].
  intros paths. right. exists []. rewrite app_nil_r.
  split; [|simpl; lia].
  destruct (length paths =? 0)%nat; reflexivity.
Qed.

(** X3. Whenever [GenerateRSP] returns, on any platform, the collection it was
    given is a prefix of the collection it leaves: the records that were there
    are neither removed nor changed nor reordered, and at most 46 are
    appended, one for each call of a primitive in the six families. The [bool]
    returned tells whether the collection holds any record at the end, not
    whether this call appended one. *)
Theorem GenerateRSP_extends_collection {M : Math} (P : Platform)
    (RS : ReedShepp) (start_node end_node : Node3d)
    (all_possible_paths paths : Paths) (ok : bool) :
  GenerateRSP P RS start_node end_node all_possible_paths = Ret (ok, paths) ->
  exists added,
    paths = all_possible_paths ++ added
    /\ (length added <= 46)%nat
    /\ ok = negb (length paths =? 0)%nat.
Proof.
  intros H.
  destruct (GenerateRSP_collects P RS start_node end_node all_possible_paths)
    as [E | (added & E & Hlen)]; rewrite E in H; [discriminate H|].
  injection H as Hok Hpaths. subst ok paths.
  exists added. repeat split; auto.
Qed.

Lemma GenerateRSP_extends_collection_witness :
  exists added,
    empty_path :: candidates example_RS origin example_goal
    = [empty_path] ++ added
    /\ (length added <= 46)%nat
    /\ true = negb (length (empty_path
                            :: candidates example_RS origin example_goal)
                    =? 0)%nat.
Proof.
  apply (GenerateRSP_extends_collection (M := ref_math) LP64 example_RS
           origin example_goal [empty_path]).
  vm_compute. reflexivity.
Defined.

(** ** [GenerateRSP] on a collection that already holds records *)

Lemma GenerateRSP_LP64_from {M : Math} RS start_node end_node paths :
  GenerateRSP LP64 RS start_node end_node paths
  = Ret (negb (length (paths ++ candidates RS start_node end_node) =? 0)%nat,
         paths ++ candidates RS start_node end_node).
Proof.
  unfold GenerateRSP, candidates, normalized, search, all_calls. cbv zeta.
  rewrite !flat_map_app.
  rewrite (and_then_after _ _ _ _ (SCS_LP64 _ _ _ _)).
  rewrite (and_then_after _ _ _ _ (CSC_LP64 _ _ _ _)).
  rewrite (and_then_after _ _ _ _ (CCC_LP64 _ _ _ _)).
  rewrite (and_then_after _ _ _ _ (CCCC_LP64 _ _ _ _)).
  rewrite (and_then_after _ _ _ _ (CCSC_LP64 _ _ _ _)).
  rewrite (and_then_after _ _ _ _ (CCSCC_LP64 _ _ _ _)).
  rewrite <- !app_assoc.
  destruct (length _ =? 0)%nat; reflexivity.
Qed.

(** X4. [GenerateRSP] tests the size of the whole collection, so on LP64 a
    call on a collection that is not empty returns [true] whether or not any
    primitive validated; what it appends are the candidates of the two poses,
    which do not depend on the records already there. *)
Theorem GenerateRSP_true_on_nonempty {M : Math} (RS : ReedShepp)
    (start_node end_node : Node3d) (all_possible_paths : Paths) :
  all_possible_paths <> [] ->
  GenerateRSP LP64 RS start_node end_node all_possible_paths
  = Ret (true, all_possible_paths ++ candidates RS start_node end_node).
Proof.
  intros H. rewrite GenerateRSP_LP64_from.
  destruct all_possible_paths as [|p paths]; [contradiction|]. reflexivity.
Qed.

Lemma GenerateRSP_true_on_nonempty_witness :
  candidates example_RS origin lost_goal = []
  /\ GenerateRSP LP64 example_RS origin lost_goal [empty_path]
     = Ret (true, [empty_path] ++ candidates example_RS origin lost_goal).
Proof.
  split; [vm_compute; reflexivity|].
  apply (GenerateRSP_true_on_nonempty (M := ref_math) example_RS origin
           lost_goal [empty_path]).
  discriminate.
Defined.

(** ** The primitives *)

Section Primitives.

Context {M : Math}.

Lemma SLS_on_axis x0 y0 phi0 param :
  (0 <? y0) = false -> (y0 <? 0) = false -> SLS x0 y0 phi0 param = param.
Proof. intros Hpos Hneg. unfold SLS. rewrite Hpos, Hneg. reflexivity. Qed.

(** X5. [SLS] validates only off the axis of the start pose: for an ordinate
    that is neither above nor below zero (a zero of either sign, or a NaN)
    both calls of [SCS] leave their parameters untouched, and [SCS] returns
    [true] without appending anything, on every platform. *)
Theorem SCS_nothing_on_axis (P : Platform) (x0 y0 phi0 : float)
    (all_possible_paths : Paths) :
  (0 <? y0) = false -> (y0 <? 0) = false ->
  SLS x0 y0 phi0 RSPParam0 = RSPParam0
  /\ SLS x0 (- y0) (- phi0) RSPParam0 = RSPParam0
  /\ SCS P x0 y0 phi0 all_possible_paths = Ret (true, all_possible_paths).
Proof.
  intros Hpos Hneg.
  destruct (Dbl.ltb_opp_zero y0) as [Hpos' Hneg'].
  assert (H1 : SLS x0 y0 phi0 RSPParam0 = RSPParam0)
    by (apply SLS_on_axis; assumption).
  assert (H2 : SLS x0 (- y0) (- phi0) RSPParam0 = RSPParam0)
    by (apply SLS_on_axis; congruence).
  repeat split; [exact H1 | exact H2 |].
  unfold SCS. cbv zeta. rewrite H1, H2. reflexivity.
Qed.

(** X6. Where [NormalizeAngle] is odd at the heading difference, at most one
    of the two calls of [SCS] validates: [SLS] wants a normalized heading
    above zero, and the second call is made on the opposite heading. So [SCS]
    appends at most one record. *)
Theorem SCS_at_most_one (x0 y0 phi0 : float) (all_possible_paths : Paths) :
  NormalizeAngle (- phi0) = - NormalizeAngle phi0 ->
  flag (SLS x0 y0 phi0 RSPParam0) && flag (SLS x0 (- y0) (- phi0) RSPParam0)
  = false
  /\ exists added,
       SCS LP64 x0 y0 phi0 all_possible_paths
       = Ret (true, all_possible_paths ++ added)
       /\ (length added <= 1)%nat.
Proof.
  intros Hodd.
  assert (Hflags : flag (SLS x0 y0 phi0 RSPParam0)
                   && flag (SLS x0 (- y0) (- phi0) RSPParam0) = false).
  { unfold SLS. rewrite Hodd.
    destruct (Dbl.ltb_opp_zero (NormalizeAngle phi0)) as [-> _].
    destruct (0 <? NormalizeAngle phi0) eqn:Hpos;
      [rewrite (Dbl.ltb_asym _ _ Hpos)|];
      rewrite !andb_false_r; cbn [andb];
      repeat match goal with
             | |- context [if ?c then _ else _] => destruct c
             end; reflexivity. }
  split; [exact Hflags|].
  exists (flat_map offer_of (SCS_calls x0 y0 phi0)).
  split; [apply SCS_LP64|].
  unfold SCS_calls. cbv zeta. cbn [flat_map offer_of offer].
  destruct (flag (SLS x0 y0 phi0 RSPParam0)),
           (flag (SLS x0 (- y0) (- phi0) RSPParam0));
    try discriminate Hflags; simpl; lia.
Qed.

Ltac by_branches :=
  cbv zeta;
  repeat match goal with
         | |- context [if ?c then _ else _] => destruct c
         end;
  first [left; reflexivity | right; split; reflexivity].

(** X7. A primitive writes all of [flag], [t], [u] and [v] or none of them:
    either it leaves [*param] exactly as it was, or it sets the flag and the
    three lengths, to values that do not depend on what [*param] held. No
    primitive ever clears the flag, so a parameter block that has validated
    once stays validated; the orchestrators hand each call a fresh block. *)
Theorem primitives_write_all_or_nothing (x0 y0 phi0 : float)
    (param : RSPParam) :
  Forall (fun primitive : float -> float -> float -> RSPParam -> RSPParam =>
            primitive x0 y0 phi0 param = param
            \/ (flag (primitive x0 y0 phi0 param) = true
                /\ primitive x0 y0 phi0 param
                   = primitive x0 y0 phi0 RSPParam0))
         [LSL; LSR; LRL; SLS; LRLRn; LRLRp; LRSR; LRSL; LRSLR].
Proof.
  repeat apply Forall_cons; try apply Forall_nil.
  - unfold LSL. by_branches.
  - unfold LSR. by_branches.
  - unfold LRL. by_branches.
  - unfold SLS. by_branches.
  - unfold LRLRn. by_branches.
  - unfold LRLRp. by_branches.
  - unfold LRSR. by_branches.
  - unfold LRSL. by_branches.
  - unfold LRSLR. by_branches.
Qed.

End Primitives.

Lemma SCS_nothing_on_axis_witness :
  SLS 0x1.4p+0 0 0x1p-1 RSPParam0 = RSPParam0
  /\ SLS 0x1.4p+0 (- 0) (- 0x1p-1) RSPParam0 = RSPParam0
  /\ SCS LP64 0x1.4p+0 0 0x1p-1 [] = Ret (true, []).
Proof.
  apply (SCS_nothing_on_axis (M := ref_math) LP64 0x1.4p+0 0 0x1p-1 []);
    reflexivity.
Defined.

Lemma SCS_at_most_one_witness :
  flag (SLS 0x1.4p+3 0x1.4p+2 1 RSPParam0) = true
  /\ flag (SLS 0x1.4p+3 0x1.4p+2 1 RSPParam0)
     && flag (SLS 0x1.4p+3 (- 0x1.4p+2) (- 1) RSPParam0) = false
  /\ exists added,
       SCS LP64 0x1.4p+3 0x1.4p+2 1 [] = Ret (true, [] ++ added)
       /\ (length added <= 1)%nat.
Proof.
  split; [vm_compute; reflexivity|].
  apply (SCS_at_most_one (M := ref_math) 0x1.4p+3 0x1.4p+2 1 []).
  vm_compute. reflexivity.
Defined.

(** ** Segments of length zero *)

(** The four-arc primitives leave [t] and [v] at zero, so the first length
    of every call of [CCCC] and [CCSC] is a zero. *)
Lemma LRLRn_first {M : Math} x0 y0 phi0 :
  (t (LRLRn x0 y0 phi0 RSPParam0) =? 0) = true
  /\ (- t (LRLRn x0 y0 phi0 RSPParam0) =? 0) = true
  /\ (v (LRLRn x0 y0 phi0 RSPParam0) =? 0) = true
  /\ (- v (LRLRn x0 y0 phi0 RSPParam0) =? 0) = true.
Proof.
  unfold LRLRn. cbv zeta.
  repeat match goal with
         | |- context [if ?c then _ else _] => destruct c
         end; repeat split; reflexivity.
Qed.

Lemma LRLRp_first {M : Math} x0 y0 phi0 :
  (t (LRLRp x0 y0 phi0 RSPParam0) =? 0) = true
  /\ (- t (LRLRp x0 y0 phi0 RSPParam0) =? 0) = true
  /\ (v (LRLRp x0 y0 phi0 RSPParam0) =? 0) = true
  /\ (- v (LRLRp x0 y0 phi0 RSPParam0) =? 0) = true.
Proof.
  unfold LRLRp. cbv zeta.
  repeat match goal with
         | |- context [if ?c then _ else _] => destruct c
         end; repeat split; reflexivity.
Qed.

Ltac first_length_zero_tac :=
  repeat (apply Forall_cons;
          [do 4 eexists; split; [reflexivity|]; split; [reflexivity|];
           first [apply LRLRn_first | apply LRLRp_first]|]);
  apply Forall_nil.

Lemma four_arc_calls_zero {M : Math} x0 y0 phi0 :
  Forall first_length_zero (CCCC_calls x0 y0 phi0 ++ CCSC_calls x0 y0 phi0).
Proof.
  apply Forall_app. split.
  - unfold CCCC_calls. cbv zeta. first_length_zero_tac.
  - unfold CCSC_calls. cbv zeta. first_length_zero_tac.
Qed.

Lemma abs_of_zero a : (a =? 0) = true -> abs a = 0.
Proof.
  intros H. destruct (Dbl.eqb_zero_cases _ H) as [-> | ->]; reflexivity.
Qed.

Lemma offers_zero_length calls :
  Forall first_length_zero calls ->
  Forall (fun q => zero_length q /\ total_length q = 0)
         (flat_map offer_of calls).
Proof.
  induction 1 as [|[[param lengths] types] calls Hc _ IH]; [constructor|].
  cbn [flat_map]. apply Forall_app. split; [|exact IH].
  destruct Hc as (a & rest & ch & s & Hl & Ht & Ha). cbn [fst snd] in Hl, Ht.
  subst lengths types. unfold offer_of, offer.
  destruct (flag param); constructor; [|constructor].
  split.
  - exists a, ch. split; [exact Ha | reflexivity].
  - cbn [candidate total_length hd]. apply abs_of_zero. exact Ha.
Qed.

(** X8. On LP64 every record that [CCCC] and [CCSC] append is a single segment
    of length zero with total length zero: the first element of each of their
    length arrays is [t] or [v] of [LRLRn] or [LRLRp], possibly negated, and
    the two primitives leave both at zero. *)
Theorem four_arc_candidates_zero_length {M : Math} (x0 y0 phi0 : float)
    (all_possible_paths : Paths) :
  CCCC LP64 x0 y0 phi0 all_possible_paths
  = Ret (true,
         all_possible_paths ++ flat_map offer_of (CCCC_calls x0 y0 phi0))
  /\ CCSC LP64 x0 y0 phi0 all_possible_paths
     = Ret (true,
            all_possible_paths ++ flat_map offer_of (CCSC_calls x0 y0 phi0))
  /\ Forall (fun q => zero_length q /\ total_length q = 0)
            (flat_map offer_of (CCCC_calls x0 y0 phi0)
             ++ flat_map offer_of (CCSC_calls x0 y0 phi0)).
Proof.
  split; [apply CCCC_LP64|]. split; [apply CCSC_LP64|].
  rewrite <- flat_map_app. apply offers_zero_length, four_arc_calls_zero.
Qed.



Section ZeroLength.

Context {M : Math}.

(** The values the C library returns at the two zeros. *)
Hypothesis sin_zero : sin 0 = 0.
Hypothesis cos_zero : cos 0 = 1.
Hypothesis sin_neg_zero : sin (- 0) = - 0.
Hypothesis cos_neg_zero : cos (- 0) = 1.

(** A positive curvature bound and a positive step. *)
Variable RS : ReedShepp.
Hypothesis max_kappa_positive : (0 <? max_kappa_ RS) = true.
Hypothesis step_size_positive : (0 <? step_size RS) = true.

Lemma neg_zero_div_pos : - 0 / max_kappa_ RS = - 0.
Proof. rewrite Dbl.div_opp_l, Dbl.div_zero_pos by assumption. reflexivity. Qed.

Lemma zero_div_neg : 0 / - max_kappa_ RS = - 0.
Proof. rewrite Dbl.div_opp_r, Dbl.div_zero_pos by assumption. reflexivity. Qed.

(** The final sample of a segment of length zero, whatever its letter. *)
Lemma Interpolation_zero_length a c b :
  a = 0 \/ a = - 0 ->
  Interpolation RS 1 a c 0 0 0
    {| px := [0; 0; 0; 0]; py := [0; 0; 0; 0]; pphi := [0; 0; 0; 0];
       pgear := b |}
  = (pgear' <- assign b 1%nat false ;;
     Ret {| px := [0; 0; 0; 0]; py := [0; 0; 0; 0]; pphi := [0; 0; 0; 0];
            pgear := pgear' |}).
Proof.
  intros [-> | ->]; unfold Interpolation;
    cbn [size_t_of_index Z.ltb Z.compare bind px py pphi pgear];
    rewrite ?sin_zero, ?cos_zero, ?sin_neg_zero, ?cos_neg_zero;
    change (1 - 1) with 0;
    rewrite ?neg_zero_div_pos, ?zero_div_neg,
      ?(Dbl.div_zero_pos _ max_kappa_positive);
    destruct (c =? "S")%char, (c =? "L")%char, (c =? "R")%char;
    vm_compute; destruct b as [|? [|? ?]]; reflexivity.
Qed.

(** The walk over one segment of length zero leaves every slot of the
    four-slot buffers at zero. *)
Lemma walk_zero_length a c :
  (a =? 0) = true -> walk RS (one_segment a c) = Ret all_zero.
Proof.
  intros Ha. apply Dbl.eqb_zero_cases in Ha.
  unfold walk.
  cbn [one_segment total_length segs_lengths segs_types length].
  assert (Habs : abs a = 0) by (destruct Ha as [-> | ->]; reflexivity).
  assert (Hpos : (0 <? a) = false) by (destruct Ha as [-> | ->]; reflexivity).
  rewrite Habs, (Dbl.div_zero_pos _ step_size_positive).
  change (size_t_of_double (0 + double_of_size_t 1 + 3)) with (@Ret nat 4%nat).
  cbn [bind repeat at_ nth_error assign length Nat.ltb Nat.leb update
       px py pphi pgear].
  rewrite Hpos. cbn iota.
  cbn [seq for_each]. unfold segment.
  cbn [one_segment segs_types segs_lengths
       at_ nth_error bind size_t_of_index index Z.ltb Z.compare bufs
       px py pphi pgear Z.to_nat Pos.to_nat Pos.iter_op Nat.add Nat.leb ll].
  rewrite Hpos. cbn iota.
  cbn [length sample_segment].
  rewrite Habs, (Dbl.backward_step_past_zero _ step_size_positive).
  cbn [bind Z.add Z.sub Z.opp Z.pos_sub Pos.add Pos.succ].
  change (Pos.to_nat 1) with 1%nat. cbn [at_ nth_error bind].
  rewrite (Interpolation_zero_length _ _ _ Ha). reflexivity.
Qed.

Lemma discretize_zero_length start_node path :
  zero_length path -> discretize RS start_node path = Undefined.
Proof.
  intros (a & c & Ha & ->). unfold discretize.
  rewrite (walk_zero_length _ _ Ha). reflexivity.
Qed.



(** X9. The discretizer has no defined result on a record of one segment whose
    length is a zero of either sign, whatever the letter of the segment and
    the start pose: the buffers have four slots, the only sample written is
    the final one at index 1, at abscissa zero, so [px] holds zeros only; the
    trim pops all four slots and takes [back] of the empty vector. *)
Theorem zero_length_segment_undefined (start_node : Node3d) (a : float)
    (c : ascii) :
  (a =? 0) = true ->
  walk RS (one_segment a c) = Ret all_zero
  /\ trim (length (px all_zero)) all_zero = Undefined
  /\ discretize RS start_node (one_segment a c) = Undefined.
Proof.
  intros Ha. split; [apply walk_zero_length; exact Ha|].
  split; [reflexivity|].
  apply discretize_zero_length. exists a, c. split; [exact Ha | reflexivity].
Qed.



End ZeroLength.

Lemma zero_length_segment_undefined_witness :
  walk example_RS (one_segment (- 0) "R") = Ret all_zero
  /\ trim (length (px all_zero)) all_zero = Undefined
  /\ discretize example_RS example_goal (one_segment (- 0) "R") = Undefined.
Proof.
  apply (zero_length_segment_undefined (M := ref_math) eq_refl eq_refl eq_refl
           eq_refl example_RS eq_refl eq_refl example_goal (- 0) "R").
  reflexivity.
Defined.



(** ** The trim of the buffers *)

Lemma back_inv {A : Type} (v : list A) a :
  back v = Ret a -> v = removelast v ++ [a].
Proof.
  unfold back. destruct (rev v) as [|b w] eqn:E; intros H; [discriminate H|].
  injection H as ->.
  assert (Hv : v = rev w ++ [a]).
  { rewrite <- (rev_involutive v), E. reflexivity. }
  rewrite Hv at 2. rewrite removelast_last. exact Hv.
Qed.

Lemma firstn_removelast {A : Type} (v : list A) k :
  firstn (length (removelast v) - k) (removelast v)
  = firstn (length v - S k) v.
Proof.
  destruct v as [|a w] using rev_ind; [reflexivity|].
  rewrite removelast_last, length_app. cbn [length].
  replace (length w + 1 - S k)%nat with (length w - k)%nat by lia.
  rewrite firstn_app.
  replace (length w - k - length w)%nat with 0%nat by lia.
  cbn [firstn]. rewrite app_nil_r. reflexivity.
Qed.

Lemma trim_inv : forall fuel b b',
  trim fuel b = Ret b' ->
  exists k,
    px b' = firstn (length (px b) - k) (px b)
    /\ py b' = firstn (length (py b) - k) (py b)
    /\ pphi b' = firstn (length (pphi b) - k) (pphi b)
    /\ pgear b' = firstn (length (pgear b) - k) (pgear b)
    /\ Forall (fun a => (a =? 0) = true)
              (skipn (length (px b) - k) (px b))
    /\ exists last, back (px b') = Ret last /\ (last =? 0) = false.
Proof.
  induction fuel as [|fuel IH]; intros b b' H; cbn [trim] in H;
    destruct (back (px b)) as [last| |] eqn:Eback; try discriminate H;
    cbn [bind] in H; destruct (last =? 0) eqn:Elast; try discriminate H.
  - injection H as <-. exists 0%nat.
    rewrite !Nat.sub_0_r, !firstn_all, skipn_all.
    repeat split; try constructor. exists last. split; assumption.
  - destruct (pop_back (px b)) as [px'| |] eqn:Ex; try discriminate H.
    cbn [bind] in H.
    destruct (pop_back (py b)) as [py'| |] eqn:Ey; try discriminate H.
    cbn [bind] in H.
    destruct (pop_back (pphi b)) as [pphi'| |] eqn:Ephi; try discriminate H.
    cbn [bind] in H.
    destruct (pop_back (pgear b)) as [pgear'| |] eqn:Egear;
      try discriminate H.
    cbn [bind] in H.
    apply pop_back_inv in Ex, Ey, Ephi, Egear.
    destruct Ex as [-> _], Ey as [-> _], Ephi as [-> _], Egear as [-> _].
    apply IH in H. cbn [px py pphi pgear] in H.
    destruct H as (k & Hx & Hy & Hphi & Hgear & Hzero & Hlast).
    exists (S k). rewrite <- !firstn_removelast.
    repeat split; try assumption.
    apply back_inv in Eback. rewrite Eback at 2.
    assert (Hlen : length (px b) = S (length (removelast (px b)))).
    { rewrite Eback at 1. rewrite length_app. cbn [length]. lia. }
    rewrite Hlen, skipn_app.
    replace (S (length (removelast (px b))) - S k)%nat
      with (length (removelast (px b)) - k)%nat by lia.
    replace (length (removelast (px b)) - k - length (removelast (px b)))%nat
      with 0%nat by lia.
    cbn [skipn]. apply Forall_app. split; [exact Hzero|].
    constructor; [exact Elast | constructor].
  - injection H as <-. exists 0%nat.
    rewrite !Nat.sub_0_r, !firstn_all, skipn_all.
    repeat split; try constructor. exists last. split; assumption.
Qed.

(** X12. When the trim returns, it has removed the same number [k] of slots
    from the end of each buffer; every abscissa removed compared equal to
    zero, and the last abscissa kept does not (it is a non-zero number or a
    NaN). The trim cannot tell an unused slot from a sample whose abscissa is
    zero: both are removed. *)
Theorem trim_stops_at_nonzero (fuel : nat) (b b' : Buffers) :
  trim fuel b = Ret b' ->
  exists k,
    px b' = firstn (length (px b) - k) (px b)
    /\ py b' = firstn (length (py b) - k) (py b)
    /\ pphi b' = firstn (length (pphi b) - k) (pphi b)
    /\ pgear b' = firstn (length (pgear b) - k) (pgear b)
    /\ Forall (fun a => (a =? 0) = true)
              (skipn (length (px b) - k) (px b))
    /\ exists last, back (px b') = Ret last /\ (last =? 0) = false.
Proof. apply trim_inv. Qed.

Lemma trim_stops_at_nonzero_witness :
  exists k,
    [0; 1] = firstn (4 - k) [0; 1; 0; -0]
    /\ [0; 2] = firstn (4 - k) [0; 2; 3; 0]
    /\ [0; 0x1p-1] = firstn (4 - k) [0; 0x1p-1; 0; 0]
    /\ [true; false] = firstn (4 - k) [true; false; true; true]
    /\ Forall (fun a => (a =? 0) = true) (skipn (4 - k) [0; 1; 0; -0])
    /\ exists last, back [0; 1] = Ret last /\ (last =? 0) = false.
Proof.
  apply (trim_stops_at_nonzero 4
           {| px := [0; 1; 0; -0]; py := [0; 2; 3; 0];
              pphi := [0; 0x1p-1; 0; 0];
              pgear := [true; false; true; true] |}
           {| px := [0; 1]; py := [0; 2]; pphi := [0; 0x1p-1];
              pgear := [true; false] |}).
  reflexivity.
Defined.

(** ** The result of the discretizer *)

Lemma update_split {A : Type} (v : list A) : forall i a b,
  nth_error v i = Some b ->
  firstn (S i) (update v i a) = firstn i v ++ [a]
  /\ skipn (S i) (update v i a) = skipn (S i) v
  /\ skipn i v = b :: skipn (S i) v.
Proof.
  induction v as [|c w IH]; intros [|i] a b H; try discriminate H.
  - injection H as ->. repeat split; reflexivity.
  - cbn [nth_error] in H. destruct (IH i a b H) as (H1 & H2 & H3).
    cbn [update]. change (firstn (S (S i)) (c :: update w i a))
      with (c :: firstn (S i) (update w i a)).
    change (skipn (S (S i)) (c :: update w i a))
      with (skipn (S i) (update w i a)).
    rewrite H1, H2. repeat split; try reflexivity. exact H3.
Qed.

Section Discretized.

Context {M : Math}.
Variable RS : ReedShepp.

(** The third loop divides every length by [max_kappa_]. *)
Lemma rescale_loop : forall n i path path',
  for_each (seq i n) (rescale RS) path = Ret path' ->
  (i + n)%nat = length (segs_lengths path) ->
  segs_lengths path'
  = firstn i (segs_lengths path)
    ++ map (fun l => l / max_kappa_ RS) (skipn i (segs_lengths path))
  /\ segs_types path' = segs_types path
  /\ total_length path' = total_length path
  /\ x path' = x path /\ y path' = y path /\ phi path' = phi path
  /\ gear path' = gear path.
Proof.
  induction n as [|n IH]; intros i path path' H Hlen.
  - injection H as <-. rewrite Nat.add_0_r in Hlen. subst i.
    rewrite firstn_all, skipn_all, app_nil_r. repeat split; reflexivity.
  - cbn [seq for_each] in H.
    destruct (rescale RS i path) as [p1| |] eqn:E; try discriminate H.
    cbn [bind] in H. unfold rescale, at_ in E.
    destruct (nth_error (segs_lengths path) i) as [l|] eqn:El;
      [|discriminate E].
    cbn [bind] in E.
    destruct (assign (segs_lengths path) i _) as [ls| |] eqn:Els;
      try discriminate E.
    apply assign_inv in Els. destruct Els as [-> Hi].
    cbn [bind] in E. injection E as <-.
    apply IH in H;
      [|cbn [segs_lengths]; rewrite update_length; lia].
    cbn [segs_lengths segs_types total_length x y phi gear] in H.
    destruct H as (Hl & Ht & Htot & Hx & Hy & Hphi & Hgear).
    destruct (update_split (segs_lengths path) i (l / max_kappa_ RS) l El)
      as (H1 & H2 & H3).
    rewrite H1, H2 in Hl. rewrite H3. cbn [map].
    rewrite <- app_assoc in Hl. repeat split; assumption.
Qed.

(** X13. Whenever the discretizer returns, the type letters of its result are
    those of the path it was given, every segment length and the total length
    are the given ones divided by [max_kappa_] (each rounded once), and the
    samples it was given are still there, in front of the new ones: the
    lengths leave unit-curvature space. *)
Theorem discretize_rescales (start_node : Node3d)
    (path path' : ReedSheppPath) :
  discretize RS start_node path = Ret path' ->
  segs_types path' = segs_types path
  /\ segs_lengths path'
     = map (fun l => l / max_kappa_ RS) (segs_lengths path)
  /\ total_length path' = total_length path / max_kappa_ RS
  /\ exists xs ys phis,
       x path' = x path ++ xs /\ y path' = y path ++ ys
       /\ phi path' = phi path ++ phis
       /\ length xs = length (gear path')
       /\ length ys = length (gear path')
       /\ length phis = length (gear path').
Proof.
  intros H. unfold discretize in H.
  destruct (walk RS path) as [b| |] eqn:Ewalk; try discriminate H.
  cbn [bind] in H.
  destruct (walk_untouched RS _ _ Ewalk) as [n Hb].
  destruct (trim (length (px b)) b) as [b'| |] eqn:Etrim; try discriminate H.
  cbn [bind] in H.
  destruct (trim_untouched _ _ _ _ Hb Etrim) as (n' & Hn' & Hb').
  destruct Hb' as (Lx & Ly & Lphi & Lgear & _).
  destruct (for_each (seq 0 (length (px b'))) (to_global start_node b') path)
    as [p1| |] eqn:Eglobal; try discriminate H.
  cbn [bind] in H.
  apply to_global_appends in Eglobal.
  destruct Eglobal as (xs & ys & phis & Ex & Ey & Ephi & Kx & Ky & Kphi
                       & Hl & Ht & Htot).
  rewrite length_seq, Lx in Kx, Ky, Kphi.
  match type of H with
  | bind (for_each ?ixs _ ?p) _ = _ =>
      destruct (for_each ixs (rescale RS) p) as [p2| |] eqn:Erescale;
      try discriminate H
  end.
  cbn [bind] in H. injection H as <-.
  apply rescale_loop in Erescale; [|reflexivity].
  cbn [segs_lengths segs_types total_length x y phi gear] in *.
  destruct Erescale as (Rl & Rt & Rtot & Rx & Ry & Rphi & Rgear).
  rewrite Rl, Rt, Rtot, Rx, Ry, Rphi, Rgear, Hl, Ht, Htot, Lgear.
  cbn [firstn skipn app]. repeat split.
  exists xs, ys, phis. repeat split; assumption.
Qed.

(** A sample stored at an index other than 0 keeps the first flag. *)
Lemma Interpolation_first_gear g index pd0 m ox oy ophi b b' :
  (1 <= index)%Z -> first_gear g b ->
  Interpolation RS index pd0 m ox oy ophi b = Ret b' ->
  first_gear g b'.
Proof.
  unfold first_gear. intros Hidx Hg H.
  assert (Hnz : Z.to_nat index <> 0%nat) by lia.
  unfold Interpolation, size_t_of_index in H.
  destruct (Z.ltb_spec index 0) as [Hneg|_]; [lia|]. cbn [bind] in H.
  destruct (m =? "S")%char; repeat open_assign;
    destruct (m =? "L")%char; [| destruct (m =? "R")%char | |
                                 destruct (m =? "R")%char];
    repeat open_assign; injection H as <-; cbn [pgear];
    rewrite hd_update by assumption; assumption.
Qed.

Lemma sample_segment_first_gear g m l d0 ox oy ophi :
  forall fuel index pd0 b index' pd' b',
    (0 <= index)%Z -> first_gear g b ->
    sample_segment RS fuel m l d0 ox oy ophi index pd0 b
    = Ret (index', pd', b') ->
    first_gear g b'.
Proof.
  induction fuel as [|fuel IH]; intros index pd0 b index' pd' b' Hidx Hb H;
    cbn [sample_segment] in H; destruct (abs pd0 <=? abs l);
    try discriminate H;
    try (injection H as <- <- <-; assumption).
  destruct (Interpolation RS (index + 1) pd0 m ox oy ophi b) as [b1| |] eqn:E;
    try discriminate H.
  cbn [bind] in H.
  apply (Interpolation_first_gear g) in E; [|lia|assumption].
  apply IH in H; [assumption|lia|assumption].
Qed.

Lemma segment_first_gear g n path i c c' :
  (1 <= index c)%Z -> untouched_start n (bufs c) -> first_gear g (bufs c) ->
  segment RS path i c = Ret c' ->
  first_gear g (bufs c').
Proof.
  intros Hidx Hn Hb H. unfold segment in H.
  destruct (at_ (segs_types path) i) as [m| |]; try discriminate H.
  cbn [bind] in H.
  destruct (at_ (segs_lengths path) i) as [l| |]; try discriminate H.
  cbn [bind] in H.
  destruct (size_t_of_index (index c)) as [k| |]; try discriminate H.
  cbn [bind] in H.
  destruct (at_ (px (bufs c)) k) as [ox| |]; try discriminate H.
  cbn [bind] in H.
  destruct (at_ (py (bufs c)) k) as [oy| |]; try discriminate H.
  cbn [bind] in H.
  destruct (at_ (pphi (bufs c)) k) as [ophi| |]; try discriminate H.
  cbn [bind] in H.
  match type of H with
  | bind ?s _ = _ => destruct s as [same_sign| |]; try discriminate H
  end.
  cbn [bind] in H.
  match type of H with
  | bind ?s _ = _ =>
      destruct s as [[[index' pd'] b1]| |] eqn:Eloop; try discriminate H
  end.
  cbn [bind] in H.
  pose proof Eloop as Eloop'.
  apply (sample_segment_untouched RS n) in Eloop'; [|lia|assumption].
  destruct Eloop' as [_ Hle].
  apply (sample_segment_first_gear g) in Eloop; [|lia|assumption].
  destruct (Interpolation RS (index' + 1) l m ox oy ophi b1) as [b2| |] eqn:E;
    try discriminate H.
  cbn [bind] in H. injection H as <-. cbn [bufs].
  apply (Interpolation_first_gear g) in E; [assumption|lia|assumption].
Qed.

(** After the walk the buffers have the size they were allocated with and
    slot 0 holds the zeros and the flag set before the loop. *)
Lemma walk_sized path b :
  walk RS path = Ret b ->
  exists n l0,
    point_num RS path = Ret n
    /\ nth_error (segs_lengths path) 0 = Some l0
    /\ untouched_start n b /\ first_gear (0 <? l0) b.
Proof.
  unfold walk, point_num. intros H.
  destruct (size_t_of_double _) as [n| |]; try discriminate H.
  cbn [bind] in H. exists n. unfold at_ in H.
  destruct (nth_error (segs_lengths path) 0) as [l0|]; [|discriminate H].
  cbn [bind px py pphi pgear] in H. exists l0.
  open_assign.
  match type of H with
  | bind ?s _ = _ => destruct s as [c| |] eqn:Eloop; try discriminate H
  end.
  cbn [bind] in H. injection H as <-.
  apply (for_each_invariant
           (fun c => (1 <= index c)%Z /\ untouched_start n (bufs c)
                     /\ first_gear (0 <? l0) (bufs c)))
    in Eloop.
  - repeat split; try reflexivity; apply Eloop.
  - intros i s s' (Hi & Hs & Hg) Hstep.
    destruct (segment_untouched RS n path i s s' Hi Hs Hstep) as [Hi' Hs'].
    split; [assumption|]. split; [assumption|].
    apply (segment_first_gear _ n path i s); assumption.
  - cbn [index bufs]. split; [lia|].
    unfold untouched_start, first_gear. cbn [px py pphi pgear].
    rewrite update_length, !repeat_length, !hd_repeat.
    repeat split; try reflexivity.
    rewrite repeat_length in H0. destruct n; [simpl in H0; lia|]. reflexivity.
Qed.

Lemma hd_firstn {A : Type} (d0 : A) (v : list A) k :
  (1 <= length (firstn k v))%nat -> hd d0 (firstn k v) = hd d0 v.
Proof.
  destruct v as [|a w], k as [|k]; simpl; intros; try lia; reflexivity.
Qed.

(** X14. Whenever the discretizer returns, the number of samples it has kept
    is at least two and at most the number of slots it allocated, the
    truncation of [total_length / step_size + segs_lengths.size() + 3]; the
    first flag of [gear] tells whether the first segment length is above zero
    (a first segment of length zero counts as driven backwards). *)
Theorem discretize_sample_count (start_node : Node3d)
    (path path' : ReedSheppPath) :
  discretize RS start_node path = Ret path' ->
  exists n l0,
    point_num RS path = Ret n
    /\ nth_error (segs_lengths path) 0 = Some l0
    /\ (2 <= length (gear path'))%nat
    /\ (length (gear path') <= n)%nat
    /\ hd true (gear path') = (0 <? l0).
Proof.
  intros H. unfold discretize in H.
  destruct (walk RS path) as [b| |] eqn:Ewalk; try discriminate H.
  cbn [bind] in H.
  destruct (walk_sized _ _ Ewalk) as (n & l0 & Hn & Hl0 & Hb & Hg).
  exists n, l0. split; [exact Hn|]. split; [exact Hl0|].
  destruct (trim (length (px b)) b) as [b'| |] eqn:Etrim; try discriminate H.
  cbn [bind] in H.
  destruct (trim_untouched _ _ _ _ Hb Etrim) as (n' & Hn' & Hb').
  destruct (trim_inv _ _ _ Etrim) as (k & _ & _ & _ & Egear & _).
  destruct Hb as (_ & _ & _ & Lgear & _).
  destruct Hb' as (_ & _ & _ & Lgear' & _).
  destruct (for_each (seq 0 (length (px b'))) (to_global start_node b') path)
    as [p1| |] eqn:Eglobal; try discriminate H.
  cbn [bind] in H.
  match type of H with
  | bind (for_each ?ixs _ ?p) _ = _ =>
      destruct (for_each ixs (rescale RS) p) as [p2| |] eqn:Erescale;
      try discriminate H
  end.
  cbn [bind] in H. injection H as <-.
  apply rescale_loop in Erescale; [|reflexivity].
  cbn [segs_lengths segs_types total_length x y phi gear] in *.
  destruct Erescale as (_ & _ & _ & _ & _ & _ & ->).
  rewrite Lgear'. split; [exact Hn'|]. split.
  - rewrite <- Lgear', Egear, length_firstn. lia.
  - rewrite Egear. rewrite hd_firstn; [exact Hg|].
    rewrite <- Egear, Lgear'. lia.
Qed.

End Discretized.

Lemma discretize_rescales_witness :
  exists path',
    discretize example_RS origin (candidate [0x1.d748c05a817e4p-2] "L")
    = Ret path'
    /\ segs_types path' = ["L"%char]
    /\ segs_lengths path' = [0x1.d748c05a817e4p+0]
    /\ total_length path' = 0x1.d748c05a817e4p+0.
Proof.
  eexists. split; [vm_compute; reflexivity|].
  match goal with
  | |- segs_types ?p = _ /\ _ =>
      destruct (discretize_rescales (M := ref_math) example_RS origin
                  (candidate [0x1.d748c05a817e4p-2] "L") p)
        as (Ht & Hl & Htot & _); [vm_compute; reflexivity|]
  end.
  rewrite Ht, Hl, Htot. repeat split; vm_compute; reflexivity.
Defined.

Lemma discretize_sample_count_witness :
  exists path' n l0,
    discretize example_RS origin (candidate [0x1.d748c05a817e4p-2] "L")
    = Ret path'
    /\ point_num example_RS (candidate [0x1.d748c05a817e4p-2] "L") = Ret n
    /\ n = 4%nat
    /\ nth_error [0x1.d748c05a817e4p-2] 0 = Some l0
    /\ (2 <= length (gear path'))%nat
    /\ (length (gear path') <= n)%nat
    /\ hd true (gear path') = (0 <? l0).
Proof.
  eexists.
  match goal with
  | |- exists n l0, discretize ?RS ?s ?p = Ret ?q /\ _ =>
      assert (Hrun : discretize RS s p = Ret q) by (vm_compute; reflexivity);
      destruct (discretize_sample_count (M := ref_math) RS s p q Hrun)
        as (n & l0 & Hn & Hl0 & H2 & Hle & Hg);
      exists n, l0
  end.
  repeat split; try assumption.
  vm_compute in Hn. injection Hn as <-. reflexivity.
Defined.

Lemma discretize_retains_two_witness :
  exists path' xs ys phis,
    discretize example_RS example_goal (candidate [0x1.d748c05a817e4p-2] "L")
    = Ret path'
    /\ x path' = (cos (- 1) * 0 + sin (- 1) * 0 + 40) :: xs
    /\ y path' = (- sin (- 1) * 0 + cos (- 1) * 0 + 20) :: ys
    /\ phi path' = NormalizeAngle (0 + 1) :: phis
    /\ (1 <= length xs)%nat /\ length ys = length xs
    /\ length phis = length xs /\ length (gear path') = S (length xs).
Proof.
  eexists.
  match goal with
  | |- exists xs ys phis, discretize ?RS ?s ?p = Ret ?q /\ _ =>
      assert (Hrun : discretize RS s p = Ret q) by (vm_compute; reflexivity);
      destruct (discretize_retains_two (M := ref_math) RS s p q Hrun
                  eq_refl eq_refl eq_refl)
        as (xs & ys & phis & H);
      exists xs, ys, phis
  end.
  split; [exact Hrun | exact H].
Defined.

(** ** The bounds of [Interpolation] *)

(** X15. For a segment letter S, L or R and an index that is not negative,
    [Interpolation] throws [std::out_of_range] exactly when the index is past
    the end of one of the four buffers, and returns otherwise; when it
    returns, every buffer has the size it had. *)
Theorem Interpolation_throws_past_end {M : Math} (RS : ReedShepp)
    (index : Z) (pd : float) (m : ascii) (ox oy ophi : float) (b : Buffers) :
  (0 <= index)%Z ->
  m = "S"%char \/ m = "L"%char \/ m = "R"%char ->
  (Interpolation RS index pd m ox oy ophi b = OutOfRange
   <-> ~ ((Z.to_nat index < length (px b))%nat
          /\ (Z.to_nat index < length (py b))%nat
          /\ (Z.to_nat index < length (pphi b))%nat
          /\ (Z.to_nat index < length (pgear b))%nat))
  /\ Interpolation RS index pd m ox oy ophi b <> Undefined
  /\ forall b', Interpolation RS index pd m ox oy ophi b = Ret b' ->
       length (px b') = length (px b) /\ length (py b') = length (py b)
       /\ length (pphi b') = length (pphi b)
       /\ length (pgear b') = length (pgear b).
Proof.
  intros Hidx Hm. unfold Interpolation, size_t_of_index, assign.
  destruct (Z.ltb_spec index 0) as [Hneg|_]; [lia|].
  set (i := Z.to_nat index).
  destruct Hm as [-> | [-> | ->]]; cbn [bind Ascii.eqb Bool.eqb];
    destruct (Nat.ltb_spec i (length (px b))) as [Hx|Hx];
    cbn [bind px py pphi pgear];
    try (split; [split; [intros _; lia | reflexivity]
                |split; [discriminate | intros ? ?; discriminate]]);
    destruct (Nat.ltb_spec i (length (py b))) as [Hy|Hy];
    cbn [bind px py pphi pgear];
    try (split; [split; [intros _; lia | reflexivity]
                |split; [discriminate | intros ? ?; discriminate]]);
    destruct (Nat.ltb_spec i (length (pphi b))) as [Hphi|Hphi];
    cbn [bind px py pphi pgear];
    try (split; [split; [intros _; lia | reflexivity]
                |split; [discriminate | intros ? ?; discriminate]]);
    destruct (Nat.ltb_spec i (length (pgear b))) as [Hgear|Hgear];
    cbn [bind px py pphi pgear];
    try (split; [split; [intros _; lia | reflexivity]
                |split; [discriminate | intros ? ?; discriminate]]).
  all: split; [split; [discriminate | intros Hn; exfalso; apply Hn; auto]|];
    split; [discriminate|];
    intros b' Hb; injection Hb as <-; cbn [px py pphi pgear];
    rewrite !update_length; auto.
Qed.

Lemma Interpolation_throws_past_end_witness :
  Interpolation example_RS 3 0x1p-1 "L" 0 0 0
    {| px := [0; 0; 0; 0]; py := [0; 0; 0; 0]; pphi := [0; 0; 0];
       pgear := [true; true; true; true] |} = OutOfRange.
Proof.
  apply (Interpolation_throws_past_end (M := ref_math) example_RS 3 0x1p-1
           "L" 0 0 0
           {| px := [0; 0; 0; 0]; py := [0; 0; 0; 0]; pphi := [0; 0; 0];
              pgear := [true; true; true; true] |});
    [lia | right; left; reflexivity |].
  cbn [px py pphi pgear length]. change (Z.to_nat 3) with 3%nat. lia.
Defined.

(** ** Platforms with 32-bit pointers *)

Lemma run_calls_kept P calls :
  Forall (fun c : call => (lengths_size P <= length (snd (fst c)))%nat)
         calls ->
  forall paths,
    run_calls P calls paths = Ret (true, paths ++ flat_map (kept P) calls).
Proof.
  induction 1 as [|[[param lengths] types] calls Hc _ IH]; intros paths.
  - simpl. rewrite app_nil_r. reflexivity.
  - cbn [fst snd] in Hc.
    change (run_calls P ((param, lengths, types) :: calls))
      with (when_flag P (flag param) lengths types ;;; run_calls P calls).
    cbn [flat_map kept]. unfold and_then, when_flag. destruct (flag param).
    + rewrite SetRSP_cases.
      destruct (Nat.ltb_spec (length lengths) (lengths_size P)); [lia|].
      cbn [bind]. rewrite IH, <- app_assoc. reflexivity.
    + cbn [bind]. rewrite IH. reflexivity.
Qed.

Lemma run_calls_ILP32 calls paths :
  run_calls ILP32 calls paths
  = Ret (true, paths ++ flat_map (kept ILP32) calls).
Proof.
  apply run_calls_kept. apply Forall_forall. intros c _.
  change (lengths_size ILP32) with 0%nat. lia.
Qed.

Lemma GenerateRSP_ILP32 {M : Math} RS start_node end_node :
  GenerateRSP ILP32 RS start_node end_node []
  = let '(x0, y0, dphi) := normalized RS start_node end_node in
    Ret (negb (length (flat_map (kept ILP32) (all_calls x0 y0 dphi)) =? 0)%nat,
         flat_map (kept ILP32) (all_calls x0 y0 dphi)).
Proof.
  unfold GenerateRSP, normalized, all_calls. cbv zeta.
  rewrite SCS_run, CSC_run, CCC_run, CCCC_run, CCSC_run, CCSCC_run.
  rewrite !flat_map_app.
  rewrite (and_then_after _ _ _ _ (run_calls_ILP32 _ _)).
  rewrite (and_then_after _ _ _ _ (run_calls_ILP32 _ _)).
  rewrite (and_then_after _ _ _ _ (run_calls_ILP32 _ _)).
  rewrite (and_then_after _ _ _ _ (run_calls_ILP32 _ _)).
  rewrite (and_then_after _ _ _ _ (run_calls_ILP32 _ _)).
  rewrite (and_then_after _ _ _ _ (run_calls_ILP32 _ _)).
  rewrite app_nil_l, <- !app_assoc.
  destruct (length _ =? 0)%nat; reflexivity.
Qed.

(** With 32-bit pointers every validated call leaves a record without
    segments. *)
Lemma kept_ILP32 calls :
  (flat_map (kept ILP32) calls = [] <-> flat_map offer_of calls = [])
  /\ exists k, flat_map (kept ILP32) calls = repeat empty_path k.
Proof.
  induction calls as [|[[param lengths] types] calls [IH (k & Hk)]].
  - split; [tauto | exists 0%nat; reflexivity].
  - cbn [flat_map kept offer_of]. unfold offer. destruct (flag param).
    + split; [split; discriminate|]. exists (S k). rewrite Hk. reflexivity.
    + split; [exact IH | exists k; exact Hk].
Qed.

Lemma walk_empty_path {M : Math} RS :
  (0 <? step_size RS) = true -> walk RS empty_path = OutOfRange.
Proof.
  intros Hstep. unfold walk. cbn [empty_path total_length segs_lengths length].
  rewrite (Dbl.div_zero_pos _ Hstep).
  change (size_t_of_double (0 + double_of_size_t 0 + 3)) with (@Ret nat 3%nat).
  reflexivity.
Qed.

(** X16. Where a pointer to double has half the size of a double,
    [sizeof(lengths) / sizeof(lengths[0])] is 0 and every record [SetRSP]
    appends has no segment. With a positive step, [ShortestRSP] then never
    returns a path: it returns [false] when no primitive validated (when
    [candidates] is empty), and throws [std::out_of_range] from
    [path.segs_lengths.at(0)] on the first record otherwise. *)
Theorem ShortestRSP_ILP32_no_path {M : Math} (RS : ReedShepp)
    (start_node end_node : Node3d) (optimal_path : ReedSheppPath) :
  (0 <? step_size RS) = true ->
  ShortestRSP ILP32 RS start_node end_node optimal_path
  = match candidates RS start_node end_node with
    | [] => Ret (false, optimal_path)
    | _ :: _ => OutOfRange
    end.
Proof.
  intros Hstep. unfold ShortestRSP, GenerateRSPs, and_then, candidates.
  rewrite GenerateRSP_ILP32.
  destruct (normalized RS start_node end_node) as [[x0 y0] dphi].
  unfold search.
  destruct (kept_ILP32 (all_calls x0 y0 dphi)) as [Hnil (k & Hk)].
  destruct (flat_map offer_of (all_calls x0 y0 dphi)) as [|c cs].
  - rewrite (proj2 Hnil eq_refl). reflexivity.
  - rewrite Hk in *. destruct k as [|k].
    + destruct Hnil as [Hnil _]. discriminate (Hnil eq_refl).
    + cbn [repeat length Nat.eqb negb bind].
      unfold GenerateLocalConfigurations. cbn [discretize_copies].
      unfold discretize. rewrite (walk_empty_path _ Hstep). reflexivity.
Qed.

Lemma ShortestRSP_ILP32_no_path_witness :
  ShortestRSP ILP32 example_RS origin example_goal empty_path = OutOfRange.
Proof.
  apply (ShortestRSP_ILP32_no_path (M := ref_math) example_RS origin
           example_goal empty_path).
  reflexivity.
Defined.

(** ** The reversal symmetry of the forward families *)

Lemma sum_abs_opp lengths :
  sum_abs (map PrimFloat.opp lengths) = sum_abs lengths.
Proof.
  unfold sum_abs. generalize 0 as acc.
  induction lengths as [|l ls IH]; intros acc; [reflexivity|].
  cbn [map fold_left]. rewrite Dbl.abs_opp. apply IH.
Qed.

Lemma map_reverse_kept P param lengths types :
  map reverse_path (kept P (param, lengths, types))
  = kept P (param, map PrimFloat.opp lengths, types).
Proof.
  unfold kept. destruct (flag param); [|reflexivity].
  cbn [map]. unfold reverse_path, stored.
  cbn [segs_lengths segs_types total_length x y phi gear].
  rewrite firstn_map, sum_abs_opp. reflexivity.
Qed.

Ltac to_kept :=
  cbv zeta; cbn [flat_map];
  rewrite ?map_app; rewrite !map_reverse_kept;
  cbn [map]; rewrite !Dbl.opp_involutive.

Section Reversal.

Context {M : Math}.
Variable P : Platform.
Variables x0 y0 phi0 : float.

Lemma CSC_reversal :
  Permutation (flat_map (kept P) (CSC_calls (- x0) y0 (- phi0)))
              (map reverse_path (flat_map (kept P) (CSC_calls x0 y0 phi0))).
Proof.
  unfold CSC_calls. to_kept. repeat apply swap_one. reflexivity.
Qed.

Lemma CCCC_reversal :
  Permutation (flat_map (kept P) (CCCC_calls (- x0) y0 (- phi0)))
              (map reverse_path (flat_map (kept P) (CCCC_calls x0 y0 phi0))).
Proof.
  unfold CCCC_calls. to_kept. repeat apply swap_one. reflexivity.
Qed.

Lemma CCSCC_reversal :
  Permutation (flat_map (kept P) (CCSCC_calls (- x0) y0 (- phi0)))
              (map reverse_path (flat_map (kept P) (CCSCC_calls x0 y0 phi0))).
Proof.
  unfold CCSCC_calls. to_kept. repeat apply swap_one. reflexivity.
Qed.

Hypothesis three_fit : (lengths_size P <= 3)%nat.

Ltac arrays_fit :=
  cbv zeta; repeat (apply Forall_cons; [cbn [fst snd length]; lia|]);
  apply Forall_nil.

Lemma CSC_kept x1 y1 phi1 paths :
  CSC P x1 y1 phi1 paths
  = Ret (true, paths ++ flat_map (kept P) (CSC_calls x1 y1 phi1)).
Proof.
  rewrite CSC_run. apply run_calls_kept. unfold CSC_calls. arrays_fit.
Qed.

Lemma CCCC_kept x1 y1 phi1 paths :
  CCCC P x1 y1 phi1 paths
  = Ret (true, paths ++ flat_map (kept P) (CCCC_calls x1 y1 phi1)).
Proof.
  rewrite CCCC_run. apply run_calls_kept. unfold CCCC_calls. arrays_fit.
Qed.

Lemma CCSCC_kept x1 y1 phi1 paths :
  CCSCC P x1 y1 phi1 paths
  = Ret (true, paths ++ flat_map (kept P) (CCSCC_calls x1 y1 phi1)).
Proof.
  rewrite CCSCC_run. apply run_calls_kept. unfold CCSCC_calls. arrays_fit.
Qed.

(** X17. On a platform where [SetRSP] keeps at most three lengths (so that it
    stays inside every array), the families [CSC], [CCCC] and [CCSCC] are
    symmetric under the reversal of the direction of travel: what they append
    for the offset [(-x, y, -phi)] is, up to order, what they append for
    [(x, y, phi)] with every length negated, letters and total lengths kept.
    The calls on [(x, y, phi)] and on [(-x, y, -phi)] exchange their roles,
    and so do those on [(x, -y, -phi)] and [(-x, -y, phi)]. *)
Theorem forward_families_reversal (all_possible_paths : Paths) :
  Forall (fun family : Platform -> float -> float -> float -> step =>
            exists added added',
              family P x0 y0 phi0 all_possible_paths
              = Ret (true, all_possible_paths ++ added)
              /\ family P (- x0) y0 (- phi0) all_possible_paths
                 = Ret (true, all_possible_paths ++ added')
              /\ Permutation added' (map reverse_path added))
         [CSC; CCCC; CCSCC].
Proof.
  repeat apply Forall_cons; try apply Forall_nil.
  - eexists _, _. split; [apply CSC_kept|]. split; [apply CSC_kept|].
    apply CSC_reversal.
  - eexists _, _. split; [apply CCCC_kept|]. split; [apply CCCC_kept|].
    apply CCCC_reversal.
  - eexists _, _. split; [apply CCSCC_kept|]. split; [apply CCSCC_kept|].
    apply CCSCC_reversal.
Qed.

End Reversal.

Lemma forward_families_reversal_witness :
  length (flat_map (kept LP64) (CSC_calls 0x1.4p+3 0x1.4p+2 1)) = 2%nat
  /\ Forall (fun family : Platform -> float -> float -> float -> step =>
               exists added added',
                 family LP64 0x1.4p+3 0x1.4p+2 1 []
                 = Ret (true, [] ++ added)
                 /\ family LP64 (- 0x1.4p+3) 0x1.4p+2 (- 1) []
                    = Ret (true, [] ++ added')
                 /\ Permutation added' (map reverse_path added))
            [CSC; CCCC; CCSCC].
Proof.
  split; [vm_compute; reflexivity|].
  apply (forward_families_reversal (M := ref_math) LP64 0x1.4p+3 0x1.4p+2 1).
  change (lengths_size LP64) with 1%nat. lia.
Defined.

(** ** The two stages of [GenerateRSPs] *)

(** X18. Whenever [GenerateRSPs] returns, on any platform, it returns exactly
    what [GenerateRSP] returned: the same [bool] and the same collection.
    [GenerateLocalConfigurations] never returns [false] and leaves the
    collection as it found it, so the second stage can stop the call (by an
    exception or undefined behaviour) but cannot change its result. *)
Theorem GenerateRSPs_returns_first_stage {M : Math} (P : Platform)
    (RS : ReedShepp) (start_node end_node : Node3d)
    (all_possible_paths paths : Paths) (ok : bool) :
  GenerateRSPs P RS start_node end_node all_possible_paths = Ret (ok, paths) ->
  GenerateRSP P RS start_node end_node all_possible_paths = Ret (ok, paths)
  /\ (ok = true -> discretize_copies RS start_node paths = Ret tt).
Proof.
  unfold GenerateRSPs, and_then, GenerateLocalConfigurations, return_true.
  destruct (GenerateRSP P RS start_node end_node all_possible_paths)
    as [[ok1 paths1]| |]; try discriminate.
  cbn [bind]. destruct ok1.
  - destruct (discretize_copies RS start_node paths1) as [[]| |] eqn:E;
      try discriminate.
    cbn [bind]. intros H. injection H as <- <-.
    split; [reflexivity | intros _; exact E].
  - intros H. injection H as <- <-. split; [reflexivity | discriminate].
Qed.

Lemma GenerateRSPs_returns_first_stage_witness :
  GenerateRSP LP64 example_RS origin example_goal []
  = Ret (true, candidates example_RS origin example_goal)
  /\ (true = true ->
      discretize_copies example_RS origin
        (candidates example_RS origin example_goal) = Ret tt).
Proof.
  apply (GenerateRSPs_returns_first_stage (M := ref_math) LP64 example_RS
           origin example_goal []).
  vm_compute. reflexivity.
Defined.

Lemma discretize_copies_all {M : Math} RS start_node paths :
  discretize_copies RS start_node paths = Ret tt ->
  Forall (fun q => exists q', discretize RS start_node q = Ret q') paths.
Proof.
  induction paths as [|p rest IH]; intros H; [constructor|].
  cbn [discretize_copies] in H.
  destruct (discretize RS start_node p) as [p'| |] eqn:E; try discriminate H.
  cbn [bind] in H. constructor; [exists p'; exact E | apply IH; exact H].
Qed.

(** The buffers can be sized only for a finite total length. *)
Lemma walk_finite {M : Math} RS path b :
  walk RS path = Ret b -> (total_length path <? infinity) = true.
Proof.
  unfold walk, size_t_of_double. intros H.
  apply (Dbl.div_add_add_finite _ (step_size RS)
           (double_of_size_t (length (segs_lengths path))) 3).
  destruct (integer_part _); [discriminate | discriminate H].
Qed.

Lemma discretize_copies_finite {M : Math} RS start_node paths :
  discretize_copies RS start_node paths = Ret tt ->
  forall q, In q paths -> (total_length q <? infinity) = true.
Proof.
  intros H q Hq.
  pose proof (discretize_copies_all _ _ _ H) as Hall.
  rewrite Forall_forall in Hall. destruct (Hall q Hq) as [q' Hq'].
  unfold discretize in Hq'.
  destruct (walk RS q) as [b| |] eqn:E; try discriminate Hq'.
  apply (walk_finite _ _ _ E).
Qed.

(** X20. On LP64, when there is a candidate and the loop of
    [GenerateLocalConfigurations] completes on all of them, [ShortestRSP]
    returns [true] with one of the candidates: the scan, which starts from the
    index -1 and the length plus infinity, always finds an index, because a
    candidate of infinite or NaN total length would have stopped the loop; so
    [all_possible_paths.at(optimal_path_index)] never throws. *)
Theorem ShortestRSP_returns_when_discretized {M : Math} (RS : ReedShepp)
    (start_node end_node : Node3d) (optimal_path : ReedSheppPath) :
  candidates RS start_node end_node <> [] ->
  discretize_copies RS start_node (candidates RS start_node end_node)
  = Ret tt ->
  exists path,
    ShortestRSP LP64 RS start_node end_node optimal_path = Ret (true, path)
    /\ In path (candidates RS start_node end_node).
Proof.
  intros Hsome Hcopies. rewrite ShortestRSP_LP64.
  pose proof (candidates_length RS start_node end_node) as Hlen.
  pose proof (discretize_copies_finite _ _ _ Hcopies) as Hfin.
  destruct (candidates RS start_node end_node) as [|c cs] eqn:E;
    [contradiction|].
  rewrite Hcopies. cbn [bind].
  destruct (scan_chooses (c :: cs) 0%Z infinity (-1)%Z)
    as [[_ Hnone] | (k & p & Hk & Hidx & _)].
  - specialize (Hnone c (or_introl eq_refl)).
    rewrite (Hfin c) in Hnone by (left; reflexivity). discriminate Hnone.
  - rewrite Hidx. cbn [snd].
    assert (Hsame : size_t_of_int (0 + Z.of_nat k) = k).
    { unfold size_t_of_int. rewrite Z.add_0_l.
      assert (k < length (c :: cs))%nat
        by (apply nth_error_Some; congruence).
      rewrite Z.mod_small; [apply Nat2Z.id|]. split; [lia|].
      apply Z.lt_trans with 47%Z; [lia | reflexivity]. }
    rewrite Hsame. unfold at_. rewrite Hk. cbn [bind].
    exists p. split; [reflexivity | apply (nth_error_In _ _ Hk)].
Qed.

Lemma ShortestRSP_returns_when_discretized_witness :
  exists path,
    ShortestRSP LP64 example_RS origin example_goal empty_path
    = Ret (true, path)
    /\ In path (candidates example_RS origin example_goal).
Proof.
  apply (ShortestRSP_returns_when_discretized (M := ref_math) example_RS
           origin example_goal empty_path).
  - vm_compute. discriminate.
  - vm_compute. reflexivity.
Defined.

(** ** The end of a vector *)

Lemma back_snoc {A : Type} (v : list A) a : back (v ++ [a]) = Ret a.
Proof. unfold back. rewrite rev_unit. reflexivity. Qed.

Lemma pop_back_snoc {A : Type} (v : list A) a : pop_back (v ++ [a]) = Ret v.
Proof.
  unfold pop_back. rewrite removelast_last.
  destruct v; reflexivity.
Qed.

Lemma repeat_snoc {A : Type} (a : A) k : repeat a (S k) = repeat a k ++ [a].
Proof. apply repeat_cons. Qed.

(** The trim removes the slots that were allocated and never written. *)
Lemma trim_trailing_zeros : forall k fuel vx vy vphi vg,
  (k <= fuel)%nat ->
  trim fuel {| px := vx ++ repeat 0 k; py := vy ++ repeat 0 k;
               pphi := vphi ++ repeat 0 k; pgear := vg ++ repeat true k |}
  = trim (fuel - k) {| px := vx; py := vy; pphi := vphi; pgear := vg |}.
Proof.
  induction k as [|k IH]; intros fuel vx vy vphi vg Hk.
  - cbn [repeat]. rewrite !app_nil_r, Nat.sub_0_r. reflexivity.
  - destruct fuel as [|fuel]; [lia|].
    rewrite !repeat_snoc, !app_assoc. cbn [trim px py pphi pgear].
    rewrite back_snoc. cbn [bind].
    change (0 =? 0) with true. cbn iota.
    rewrite !pop_back_snoc. cbn [bind].
    rewrite IH by lia. reflexivity.
Qed.

(** ** The two [while] loops end *)

(** X21. Neither [while] loop of the discretizer can run forever. Every turn
    of the sampling loop stores at the next index and a store past the end of
    the buffers throws, so the loop exits or throws within as many turns as
    slots are left, even when [pd += d] no longer changes [pd]; every turn of
    the trim removes a slot. Hence turns beyond the number of slots change
    nothing. *)
Theorem discretizer_loops_end {M : Math} (RS : ReedShepp) (fuel : nat)
    (m : ascii) (l d0 ox oy ophi : float) (index : Z) (pd0 : float)
    (b : Buffers) :
  (-1 <= index)%Z ->
  (length (px b) <= fuel)%nat ->
  sample_segment RS fuel m l d0 ox oy ophi index pd0 b
  = sample_segment RS (length (px b)) m l d0 ox oy ophi index pd0 b
  /\ trim fuel b = trim (length (px b)) b.
Proof.
  intros Hidx Hfuel. split.
  - apply sample_segment_fuel; lia.
  - apply trim_fuel; lia.
Qed.

Lemma discretizer_loops_end_witness :
  sample_segment example_RS 100 "S" infinity 0 0 0 0 0 0x1p-1
    {| px := [0; 0; 0]; py := [0; 0; 0]; pphi := [0; 0; 0];
       pgear := [true; true; true] |} = OutOfRange
  /\ trim 100 {| px := [0; 0; 0]; py := [0; 0; 0]; pphi := [0; 0; 0];
                 pgear := [true; true; true] |} = Undefined.
Proof.
  destruct (discretizer_loops_end (M := ref_math) example_RS 100 "S" infinity
              0 0 0 0 0 0x1p-1
              {| px := [0; 0; 0]; py := [0; 0; 0]; pphi := [0; 0; 0];
                 pgear := [true; true; true] |}) as [H1 H2];
    [lia | simpl; lia |].
  rewrite H1, H2. split; vm_compute; reflexivity.
Defined.

(** ** The discretization of one segment *)

Lemma assign_middle {A : Type} (v r : list A) a a' :
  assign (v ++ a :: r) (length v) a' = Ret (v ++ a' :: r).
Proof.
  unfold assign. rewrite length_app. cbn [length].
  destruct (Nat.ltb_spec (length v) (length v + S (length r))) as [_|];
    [|lia].
  f_equal. induction v as [|b v IH]; [reflexivity|].
  cbn [app length update]. f_equal. exact IH.
Qed.

Section OneSegment.

Context {M : Math}.
Variable RS : ReedShepp.
Variables (a : float) (c : ascii).
Hypothesis letter : c = "S"%char \/ c = "L"%char \/ c = "R"%char.

(** A sample stored in the first free slot. *)
Lemma Interpolation_append poses gears m pd0 :
  length gears = length poses ->
  Interpolation RS (Z.of_nat (length poses)) pd0 c 0 0 0
    (buffers_of poses gears (S m))
  = Ret (buffers_of (poses ++ [sample_pose RS c pd0 0 0 0])
                    (gears ++ [0 <? pd0]) m).
Proof.
  intros Hg. unfold Interpolation, size_t_of_index, buffers_of.
  destruct (Z.ltb_spec (Z.of_nat (length poses)) 0) as [Hneg|_]; [lia|].
  rewrite Nat2Z.id. cbn [bind px py pphi pgear repeat].
  rewrite !map_app, <- !app_assoc. cbn [map app].
  pose proof (assign_middle (map (fun s => fst (fst s)) poses) (repeat 0 m) 0)
    as Hx.
  pose proof (assign_middle (map (fun s => snd (fst s)) poses) (repeat 0 m) 0)
    as Hy.
  pose proof (assign_middle (map (fun s => snd s) poses) (repeat 0 m) 0)
    as Hphi.
  pose proof (assign_middle gears (repeat true m) true) as Hgear.
  rewrite length_map in Hx, Hy, Hphi. rewrite Hg in Hgear.
  unfold sample_pose, rotate, chord_offset.
  destruct letter as [-> | [-> | ->]];
    cbn [Ascii.eqb Bool.eqb bind px py pphi pgear fst snd];
    rewrite ?Hx, ?Hy; cbn [bind px py pphi pgear];
    rewrite ?Hphi, ?Hgear; cbn [bind px py pphi pgear];
    rewrite ?Hphi, ?Hgear; cbn [bind px py pphi pgear];
    rewrite ?Dbl.div_opp_r; reflexivity.
Qed.

(** The sampling loop stores the pose at every sampled [pd], one slot after
    the other. *)
Lemma sample_segment_sampled d0 : forall fuel poses gears m pd0,
  length gears = length poses ->
  (length (sampled fuel a d0 pd0) <= m)%nat -> (m < fuel)%nat ->
  exists pd',
    sample_segment RS fuel c a d0 0 0 0 (Z.of_nat (length poses) - 1) pd0
      (buffers_of poses gears m)
    = Ret ((Z.of_nat (length poses + length (sampled fuel a d0 pd0)) - 1)%Z,
           pd',
           buffers_of
             (poses ++ map (fun pd => sample_pose RS c pd 0 0 0)
                           (sampled fuel a d0 pd0))
             (gears ++ map (fun pd => 0 <? pd) (sampled fuel a d0 pd0))
             (m - length (sampled fuel a d0 pd0))).
Proof.
  induction fuel as [|fuel IH]; intros poses gears m pd0 Hg Hm Hfuel; [lia|].
  cbn [sample_segment sampled] in *.
  destruct (abs pd0 <=? abs a).
  - cbn [length] in Hm. destruct m as [|m]; [lia|].
    replace (Z.of_nat (length poses) - 1 + 1)%Z
      with (Z.of_nat (length poses)) by lia.
    rewrite (Interpolation_append _ _ _ _ Hg). cbn [bind].
    destruct (IH (poses ++ [sample_pose RS c pd0 0 0 0])
                 (gears ++ [0 <? pd0]) m (pd0 + d0))
      as [pd' Hrun]; [rewrite !length_app, Hg; reflexivity | lia | lia |].
    exists pd'.
    replace (Z.of_nat (length poses))
      with (Z.of_nat (length (poses ++ [sample_pose RS c pd0 0 0 0])) - 1)%Z
      by (rewrite length_app; cbn [length]; lia).
    rewrite Hrun. cbn [map length]. rewrite <- !app_assoc. cbn [app].
    rewrite length_app. cbn [length].
    replace (length poses + 1 + length (sampled fuel a d0 (pd0 + d0)))%nat
      with (length poses + S (length (sampled fuel a d0 (pd0 + d0))))%nat
      by lia.
    reflexivity.
  - exists pd0. cbn [map length]. rewrite !app_nil_r, Nat.add_0_r, Nat.sub_0_r.
    reflexivity.
Qed.

Lemma walk_one_segment n :
  point_num RS (one_segment a c) = Ret n ->
  (length (sample_points RS a n) < n)%nat ->
  walk RS (one_segment a c)
  = Ret (buffers_of (local_poses RS a c n)
                    ((0 <? a) :: map (fun pd => 0 <? pd) (sample_points RS a n))
                    (n - S (length (sample_points RS a n)))).
Proof.
  intros Hn Hfit. unfold sample_points in *. rewrite length_app in Hfit.
  cbn [length] in Hfit.
  destruct n as [|[|n]]; try lia.
  unfold walk. fold (point_num RS (one_segment a c)). rewrite Hn.
  cbn [one_segment total_length segs_lengths segs_types length
       bind repeat at_ nth_error assign Nat.ltb Nat.leb update
       px py pphi pgear].
  cbn [seq for_each]. unfold segment.
  cbn [one_segment segs_types segs_lengths
       at_ nth_error bind size_t_of_index index Z.ltb Z.compare bufs
       px py pphi pgear Z.to_nat Pos.to_nat Pos.iter_op Nat.add Nat.leb ll].
  change (Pos.to_nat 1) with 1%nat. cbn [at_ nth_error bind length].
  rewrite repeat_length.
  set (d0 := if 0 <? a then step_size RS else - step_size RS) in *.
  change {| px := 0 :: 0 :: repeat 0 n; py := 0 :: 0 :: repeat 0 n;
            pphi := 0 :: 0 :: repeat 0 n;
            pgear := (0 <? a) :: true :: repeat true n |}
    with (buffers_of [(0, 0, 0)] [0 <? a] (S n)).
  destruct (sample_segment_sampled d0 (S (S n)) [(0, 0, 0)] [0 <? a] (S n)
              (d0 - 0)) as [pd' Hrun]; [reflexivity | lia | lia |].
  cbn [length] in Hrun. change (Z.of_nat 1) with 1%Z in Hrun.
  rewrite Hrun. cbn [bind].
  set (pds := sampled (S (S n)) a d0 (d0 - 0)) in *.
  replace (Z.of_nat (1 + length pds) - 1 + 1)%Z
    with (Z.of_nat (length ([(0, 0, 0)]
                            ++ map (fun pd => sample_pose RS c pd 0 0 0) pds)))
    by (rewrite !length_app, length_map; cbn [length]; lia).
  replace (S n - length pds)%nat with (S (n - length pds)) by lia.
  rewrite Interpolation_append
    by (rewrite !length_app, !length_map; reflexivity).
  cbn [bind bufs]. unfold local_poses, sample_points. fold d0. fold pds.
  rewrite !map_app, length_app. cbn [map length app].
  replace (S (S n) - S (length pds + 1))%nat with (n - length pds)%nat by lia.
  reflexivity.
Qed.

End OneSegment.

(** The trim stops at a last abscissa that is not zero. *)
Lemma trim_stops fuel b last :
  back (px b) = Ret last -> (last =? 0) = false -> trim fuel b = Ret b.
Proof.
  intros Hback Hlast.
  destruct fuel; cbn [trim]; rewrite Hback; cbn [bind]; rewrite Hlast;
    reflexivity.
Qed.

Lemma nth_error_middle {A : Type} (v r : list A) a :
  nth_error (v ++ a :: r) (length v) = Some a.
Proof.
  rewrite nth_error_app2, Nat.sub_diag by lia. reflexivity.
Qed.

Lemma to_global_at {M : Math} start_node gears pre s post path :
  to_global start_node (buffers_of (pre ++ s :: post) gears 0) (length pre)
    path
  = Ret {| segs_lengths := segs_lengths path;
           segs_types := segs_types path;
           total_length := total_length path;
           x := x path ++ [fst (fst (global_pose start_node s))];
           y := y path ++ [snd (fst (global_pose start_node s))];
           phi := phi path ++ [snd (global_pose start_node s)];
           gear := gear path |}.
Proof.
  unfold to_global, at_, buffers_of.
  cbn [px py pphi repeat]. rewrite !app_nil_r, !map_app. cbn [map].
  pose proof (nth_error_middle (map (fun s => fst (fst s)) pre)
                (map (fun s => fst (fst s)) post) (fst (fst s))) as Hx.
  pose proof (nth_error_middle (map (fun s => snd (fst s)) pre)
                (map (fun s => snd (fst s)) post) (snd (fst s))) as Hy.
  pose proof (nth_error_middle (map (fun s => snd s) pre)
                (map (fun s => snd s) post) (snd s)) as Hphi.
  rewrite length_map in Hx, Hy, Hphi. rewrite Hx, Hy, Hphi.
  reflexivity.
Qed.

(** The second loop turns every retained sample to the global frame. *)
Lemma to_global_map {M : Math} start_node gears :
  forall post pre path,
    for_each (seq (length pre) (length post))
      (to_global start_node (buffers_of (pre ++ post) gears 0)) path
    = Ret {| segs_lengths := segs_lengths path;
             segs_types := segs_types path;
             total_length := total_length path;
             x := x path
                  ++ map (fun s => fst (fst (global_pose start_node s))) post;
             y := y path
                  ++ map (fun s => snd (fst (global_pose start_node s))) post;
             phi := phi path
                    ++ map (fun s => snd (global_pose start_node s)) post;
             gear := gear path |}.
Proof.
  induction post as [|s post IH]; intros pre path.
  - cbn [length seq for_each map]. rewrite !app_nil_r.
    destruct path; reflexivity.
  - cbn [length seq for_each]. rewrite to_global_at. cbn [bind].
    specialize (IH (pre ++ [s])).
    rewrite length_app, <- app_assoc in IH. cbn [length app] in IH.
    rewrite Nat.add_1_r in IH. rewrite IH.
    cbn [segs_lengths segs_types total_length x y phi gear map].
    rewrite <- !app_assoc. reflexivity.
Qed.

(** X22. What the loop of [GenerateLocalConfigurations] makes of a path of one
    segment of letter S, L or R (the only paths [SetRSP] builds on LP64). The
    samples are the start pose, then the pose [Interpolation] computes from
    the origin of the local frame at [pd = d], [d + d], [(d + d) + d] and so
    on (each sum rounded) as long as [|pd| <= |l|], then the pose at [pd = l],
    the end of the segment, all turned and moved to the frame of the start
    node; [gear] holds [l > 0] and then [pd > 0] for each sample; the segment
    length and the total length are divided by [max_kappa_]. When the length
    is a multiple of the step that the sums reach exactly, the end of the
    segment is sampled twice. This needs one slot more than there are sample
    points, and an end sample whose local abscissa does not compare equal to
    zero, or the trim would remove it. *)
Theorem one_segment_discretized {M : Math} (RS : ReedShepp)
    (start_node : Node3d) (a : float) (c : ascii) (n : nat) :
  c = "S"%char \/ c = "L"%char \/ c = "R"%char ->
  point_num RS (one_segment a c) = Ret n ->
  (length (sample_points RS a n) < n)%nat ->
  (fst (fst (sample_pose RS c a 0 0 0)) =? 0) = false ->
  discretize RS start_node (one_segment a c)
  = Ret (discretized RS start_node a c n).
Proof.
  intros Hc Hn Hfit Hend. unfold discretize.
  rewrite (walk_one_segment RS a c Hc n Hn Hfit). cbn [bind].
  set (poses := local_poses RS a c n).
  set (gears := (0 <? a) :: map (fun pd => 0 <? pd) (sample_points RS a n)).
  set (m := (n - S (length (sample_points RS a n)))%nat).
  assert (Hlen : length (px (buffers_of poses gears m))
                 = (length poses + m)%nat).
  { unfold buffers_of. cbn [px].
    rewrite length_app, length_map, repeat_length. reflexivity. }
  rewrite Hlen. unfold buffers_of at 1.
  rewrite trim_trailing_zeros by lia.
  assert (Hb : {| px := map (fun s => fst (fst s)) poses;
                  py := map (fun s => snd (fst s)) poses;
                  pphi := map (fun s => snd s) poses;
                  pgear := gears |} = buffers_of poses gears 0).
  { unfold buffers_of. cbn [repeat]. rewrite !app_nil_r. reflexivity. }
  rewrite Hb.
  assert (Hback : back (px (buffers_of poses gears 0))
                  = Ret (fst (fst (sample_pose RS c a 0 0 0)))).
  { unfold buffers_of, poses, local_poses, sample_points. cbn [px repeat].
    rewrite app_nil_r, map_app. cbn [map].
    rewrite map_app, app_comm_cons. cbn [map]. apply back_snoc. }
  rewrite (trim_stops _ _ _ Hback Hend). cbn [bind].
  assert (Hsize : length (px (buffers_of poses gears 0)) = length poses).
  { unfold buffers_of. cbn [px repeat].
    rewrite app_nil_r, length_map. reflexivity. }
  rewrite Hsize.
  pose proof (to_global_map start_node gears poses [] (one_segment a c))
    as Hglobal.
  cbn [length app] in Hglobal. rewrite Hglobal. cbn [bind].
  cbn [one_segment segs_lengths segs_types total_length x y phi gear
       length seq for_each rescale at_ nth_error bind assign Nat.ltb Nat.leb
       update app].
  unfold rescale.
  cbn [segs_lengths segs_types total_length x y phi gear
       at_ nth_error bind assign length Nat.ltb Nat.leb update].
  unfold discretized, buffers_of. cbn [pgear repeat].
  rewrite app_nil_r, !map_map. reflexivity.
Qed.

Lemma one_segment_discretized_witness :
  sample_points example_RS 2 8 = [0x1p-1; 1; 0x1.8p+0; 2; 2]
  /\ discretize example_RS example_goal (one_segment 2 "L")
     = Ret (discretized example_RS example_goal 2 "L" 8).
Proof.
  split; [vm_compute; reflexivity|].
  apply (one_segment_discretized (M := ref_math) example_RS example_goal 2
           "L" 8).
  - right. left. reflexivity.
  - vm_compute. reflexivity.
  - vm_compute. lia.
  - vm_compute. reflexivity.
Defined.
